(** * Renderer: spectral colouring, colour stops, tiled canvases

    A shallow embedding of [src/renderer.ts] (class [Renderer]).

    Numbers.  A finite JavaScript number is modelled by a real number.
    Where the code takes the result of a computation to an integer
    ([Math.round] in [getColorValue] and [renderProgress], [Math.ceil]
    of the scroll width in [render], [Math.floor] in the scroll
    listener), the integer depends on how the operations before it
    round, and these operations are modelled in double precision
    ([Double.add], [Double.mul], ...: the exact result rounded to 53
    significant bits, ties to the even neighbour).  So are the width
    [render] hands to the tiles (a width in CSS pixels times the pixel
    ratio) and the total width [renderMultiCanvas] divides it back to:
    the two operations do not always cancel, and the number of tiles
    depends on it.  The exponent range of a double is not modelled: no
    operation overflows or underflows.  Elsewhere the arithmetic of the
    renderer is read over [R] and rounding error is not modelled.  The
    two non-finite values the code can produce from finite inputs are
    kept apart in [jsnum]: [Infinity] (from [Math.pow(0, p)] with
    [p < 0]) and [NaN] (from reading an array past its end, [undefined],
    and converting it to a number).

    A division by zero, which JavaScript answers with [Infinity] or
    [NaN], is outside this reading of the arithmetic: the statements
    below assume what excludes one wherever the result depends on it (a
    positive sample rate, a positive total width and width of tile, a
    pixel ratio of at least 1, as [getPixelRatio] returns).

    Strings are [string]s of 8-bit code units.

    Mutable members of the class ([brightnessData],
    [prominentFrequencyData], the canvas containers, [drawnIndexes], the
    2D context) are threaded explicitly. *)

From Stdlib Require Import Reals Lra Lia ZArith List String Ascii Bool Sorted Permutation.
From stdpp Require Import gmap pretty.
From Equations Require Import Equations.
Import ListNotations.

Open Scope R_scope.

(** ** JavaScript numbers *)

Inductive jsnum : Type :=
| Num (x : R)
| Infinity
| NaN.

Module Math.

(** [Math.floor], [Math.ceil] on a finite number. *)
Definition floor (x : R) : Z := Zfloor x.
Definition ceil (x : R) : Z := Zceil x.

(** [Math.round]: the nearest integer, ties towards plus infinity. *)
Definition round (x : R) : Z := Zfloor (x + / 2).

Definition abs (x : R) : R := Rabs x.
Definition min (x y : R) : R := Rmin x y.
Definition max (x y : R) : R := Rmax x y.

(** Is the finite number an integer, and is that integer odd:
    needed by [pow] for a negative base. *)
Definition is_integer (p : R) : bool :=
  if Req_dec_T (IZR (Zfloor p)) p then true else false.

(** [Math.pow(x, p)] for finite [x] and [p] (ECMAScript
    Number::exponentiate): [p = 0] gives 1 whatever the base; base 0
    gives 0 for [p > 0] and [Infinity] for [p < 0]; a negative base
    gives [NaN] unless [p] is an integer. *)
Definition pow (x p : R) : jsnum :=
  if Req_dec_T p 0 then Num 1
  else if Rlt_dec 0 x then Num (Rpower x p)
  else if Req_dec_T x 0 then (if Rlt_dec 0 p then Num 0 else Infinity)
  else if is_integer p
       then (if Z.odd (Zfloor p) then Num (- Rpower (- x) p)
             else Num (Rpower (- x) p))
       else NaN.

(** [Math.min(...xs)] and [Math.max(...xs)] of a non-empty argument
    list [x :: xs], folded from the left as the specification does. *)
Definition min_list (x : R) (xs : list R) : R := fold_left Rmin xs x.
Definition max_list (x : R) (xs : list R) : R := fold_left Rmax xs x.

(** [Math.min(...values)] and [Math.max(...values)] for the array
    [x :: xs]: the array is spread into the arguments of the call, and an
    engine that accepts [maxArguments] arguments in a call throws a
    RangeError for a longer array ([None]). *)
Definition min_spread (maxArguments : nat) (x : R) (xs : list R) : option R :=
  if (S (List.length xs) <=? maxArguments)%nat then Some (min_list x xs) else None.
Definition max_spread (maxArguments : nat) (x : R) (xs : list R) : option R :=
  if (S (List.length xs) <=? maxArguments)%nat then Some (max_list x xs) else None.

End Math.

(** ** Double precision *)

Module Double.

(** The exponent of a number other than 0: [floor (log2 |x|)]. *)
Definition exponent (x : R) : Z := Zfloor (ln (Rabs x) / ln 2).

(** The integer nearest to [m]; of two equally near, the even one. *)
Definition nearest_even (m : R) : Z :=
  let f := Zfloor m in
  if Rlt_dec (m - IZR f) (/ 2) then f
  else if Rlt_dec (/ 2) (m - IZR f) then (f + 1)%Z
  else if Z.even f then f else (f + 1)%Z.

(** A positive number rounded to 53 significant bits: the number is
    scaled into [[2^52, 2^53)], rounded to an integer and scaled back. *)
Definition round_pos (x : R) : R :=
  let e := exponent x in
  IZR (nearest_even (x * powerRZ 2 (52 - e))) * powerRZ 2 (e - 52).

(** Rounding to the nearest double, ties to even. *)
Definition round (x : R) : R :=
  if Rlt_dec 0 x then round_pos x
  else if Rlt_dec x 0 then - round_pos (- x)
  else 0.

(** The operators [+], [-], [*] and [/] on doubles. *)
Definition add (x y : R) : R := round (x + y).
Definition sub (x y : R) : R := round (x - y).
Definition mul (x y : R) : R := round (x * y).
Definition div (x y : R) : R := round (x / y).

(** A real number that is a double. *)
Definition representable (x : R) : Prop := round x = x.

End Double.

(** ** Strings: the three regular expressions of [parseColor] *)

Definition is_digit (c : ascii) : bool :=
  let n := nat_of_ascii c in (48 <=? n)%nat && (n <=? 57)%nat.

(** [\s] restricted to 8-bit code units: TAB, LF, VT, FF, CR, SPACE and
    NBSP. *)
Definition is_space (c : ascii) : bool :=
  let n := nat_of_ascii c in
  ((9 <=? n)%nat && (n <=? 13)%nat) || (n =? 32)%nat || (n =? 160)%nat.

(** [[0-9a-f]] under the [i] flag. *)
Definition is_hex (c : ascii) : bool :=
  let n := nat_of_ascii c in
  is_digit c || ((97 <=? n)%nat && (n <=? 102)%nat)
             || ((65 <=? n)%nat && (n <=? 70)%nat).

Definition digit_value (c : ascii) : Z :=
  let n := Z.of_nat (nat_of_ascii c) in
  if is_digit c then n - 48
  else if (97 <=? n)%Z then n - 87
  else n - 55.

(** [parseInt(s, radix)] on a string made of digits of that radix. *)
Definition parseInt (s : list ascii) (radix : Z) : Z :=
  fold_left (fun acc c => acc * radix + digit_value c)%Z s 0%Z.

(** The longest prefix of [s] whose characters satisfy [p], and the rest:
    a greedy [p*]. *)
Fixpoint span (p : ascii -> bool) (s : string) : list ascii * string :=
  match s with
  | EmptyString => ([], EmptyString)
  | String c s' =>
      if p c then let '(xs, r) := span p s' in (c :: xs, r)
      else ([], s)
  end.

(** A literal at the head of the subject. *)
Fixpoint expect (lit s : string) : option string :=
  match lit, s with
  | EmptyString, _ => Some s
  | String a lit', String b s' =>
      if Ascii.eqb a b then expect lit' s' else None
  | String _ _, EmptyString => None
  end.

(** [(\d+)]: a greedy, non-empty run of digits.  In the three patterns
    the run is always followed by a character that is not a digit, so
    giving digits back never helps and the greedy run is the capture. *)
Definition digits1 (s : string) : option (list ascii * string) :=
  match span is_digit s with
  | ([], _) => None
  | (ds, r) => Some (ds, r)
  end.

(** [,\s*] *)
Definition comma_spaces (s : string) : option string :=
  match expect "," s with
  | Some r => Some (snd (span is_space r))
  | None => None
  end.

Record RGB : Type := mkRGB { r : Z; g : Z; b : Z }.

(** [/rgba?\((\d+),\s*(\d+),\s*(\d+)(?:,\s*[\d.]+)?\)/] anchored at the
    head of [s]. *)
Definition rgb_at (s : string) : option RGB :=
  match expect "rgb" s with
  | None => None
  | Some s1 =>
    let s2 := match expect "a(" s1 with
              | Some t => Some t
              | None => expect "(" s1
              end in
    match s2 with
    | None => None
    | Some s3 =>
      match digits1 s3 with
      | None => None
      | Some (d1, s4) =>
        match comma_spaces s4 with
        | None => None
        | Some s5 =>
          match digits1 s5 with
          | None => None
          | Some (d2, s6) =>
            match comma_spaces s6 with
            | None => None
            | Some s7 =>
              match digits1 s7 with
              | None => None
              | Some (d3, s8) =>
                let closing :=
                  match comma_spaces s8 with
                  | Some s9 =>
                      match span (fun c => is_digit c || Ascii.eqb c ".") s9 with
                      | ([], _) => None
                      | (_, s10) => expect ")" s10
                      end
                  | None => expect ")" s8
                  end in
                match closing with
                | Some _ =>
                    Some (mkRGB (parseInt d1 10) (parseInt d2 10) (parseInt d3 10))
                | None => None
                end
              end
            end
          end
        end
      end
    end
  end.

(** [/#([0-9a-f]{2})([0-9a-f]{2})([0-9a-f]{2})/i] anchored at the head. *)
Definition hex6_at (s : string) : option RGB :=
  match s with
  | String "#" (String a (String b (String c (String d (String e (String f _)))))) =>
      if is_hex a && is_hex b && is_hex c && is_hex d && is_hex e && is_hex f
      then Some (mkRGB (parseInt [a; b] 16) (parseInt [c; d] 16) (parseInt [e; f] 16))
      else None
  | _ => None
  end.

(** [/#([0-9a-f])([0-9a-f])([0-9a-f])/i] anchored at the head; each digit
    is doubled before [parseInt]. *)
Definition hex3_at (s : string) : option RGB :=
  match s with
  | String "#" (String a (String b (String c _))) =>
      if is_hex a && is_hex b && is_hex c
      then Some (mkRGB (parseInt [a; a] 16) (parseInt [b; b] 16) (parseInt [c; c] 16))
      else None
  | _ => None
  end.

(** [String.prototype.match] without the [g] flag: the leftmost position
    at which the pattern matches. *)
Fixpoint search {A : Type} (at_head : string -> option A) (s : string) : option A :=
  match at_head s with
  | Some x => Some x
  | None =>
      match s with
      | EmptyString => None
      | String _ s' => search at_head s'
      end
  end.

(** [parseColor] *)
Definition parseColor (color : string) : option RGB :=
  match search rgb_at color with
  | Some c => Some c
  | None =>
      match search hex6_at color with
      | Some c => Some c
      | None => search hex3_at color
      end
  end.

(** ** Color Mapper: [getColorValue] *)

Record ColorStop : Type := mkStop { stop : R; color : string }.

Definition leb (x y : R) : bool := if Rle_dec x y then true else false.
Definition ltb (x y : R) : bool := if Rlt_dec x y then true else false.
Definition neqb (x y : R) : bool := if Req_dec_T x y then false else true.

(** [[...colorStops].sort((a, b) => a.stop - b.stop)].  [Array.prototype.sort]
    is stable, so the result is the stable ascending arrangement; it is
    computed here by insertion from the right, an element going in front
    of the first one that is not smaller. *)
Fixpoint insertStop (x : ColorStop) (l : list ColorStop) : list ColorStop :=
  match l with
  | [] => [x]
  | y :: l' => if ltb (stop y) (stop x) then y :: insertStop x l' else x :: l
  end.

Definition sortStops (colorStops : list ColorStop) : list ColorStop :=
  fold_right insertStop [] colorStops.

(** A clamped value is a finite number or [NaN]; [NaN] is written [None]. *)
Definition clamp01 (v : jsnum) : option R :=
  match v with
  | Num x => Some (Math.max 0 (Math.min 1 x))
  | Infinity => Some 1
  | NaN => None
  end.

Definition reclamp01 (v : option R) : option R :=
  match v with
  | Some x => Some (Math.max 0 (Math.min 1 x))
  | None => None
  end.

(** Comparisons of a clamped value with a finite number: every
    comparison with [NaN] is false. *)
Definition ge_num (v : option R) (x : R) : bool :=
  match v with Some a => leb x a | None => false end.
Definition le_num (v : option R) (x : R) : bool :=
  match v with Some a => leb a x | None => false end.

(** The search loop: the first [i] with
    [sortedStops[i].stop <= v <= sortedStops[i + 1].stop]. *)
Fixpoint findLower (v : option R) (l : list ColorStop) (i : nat) : option nat :=
  match l with
  | a :: ((b :: _) as l') =>
      if ge_num v (stop a) && le_num v (stop b) then Some i
      else findLower v l' (S i)
  | _ => None
  end.

(** [`rgb(${r}, ${g}, ${b})`] *)
Definition template (r g b : string) : string :=
  ("rgb(" ++ r ++ ", " ++ g ++ ", " ++ b ++ ")")%string.

(** [Math.round(lower + normalizedPosition * (upper - lower))], computed
    in double precision and converted to a string by the template: the
    decimal digits of the integer (as JavaScript prints an integer that
    is below 2^53 in magnitude), or ["NaN"]. *)
Definition channel (normalizedPosition : option R) (lower upper : Z) : string :=
  match normalizedPosition with
  | Some t =>
      pretty (Math.round
                (Double.add (IZR lower)
                            (Double.mul t (Double.sub (IZR upper) (IZR lower)))))
  | None => "NaN"
  end.

Definition defaultStop : ColorStop := mkStop 0 "".

Definition getColorValue (normalizedValue : jsnum) (colorStops : list ColorStop)
  : string :=
  let normalizedValue := reclamp01 (clamp01 normalizedValue) in
  let sortedStops := sortStops colorStops in
  match sortedStops with
  | [] => "rgb(0, 0, 0)"
  | [s] => color s
  | first :: _ =>
      let lowerIndex :=
        match findLower normalizedValue sortedStops 0 with
        | Some i => i
        | None => 0%nat
        end in
      if le_num normalizedValue (stop first) then color first
      else if ge_num normalizedValue (stop (List.last sortedStops first))
      then color (List.last sortedStops first)
      else
        let lowerStop := nth lowerIndex sortedStops defaultStop in
        let upperStop := nth (lowerIndex + 1) sortedStops defaultStop in
        let range := Double.sub (stop upperStop) (stop lowerStop) in
        let normalizedPosition :=
          if neqb range 0
          then match normalizedValue with
               | Some v => Some (Double.div (Double.sub v (stop lowerStop)) range)
               | None => None
               end
          else Some 0 in
        match parseColor (color lowerStop), parseColor (color upperStop) with
        | Some lowerColor, Some upperColor =>
            template (channel normalizedPosition (r lowerColor) (r upperColor))
                     (channel normalizedPosition (g lowerColor) (g upperColor))
                     (channel normalizedPosition (b lowerColor) (b upperColor))
        | _, _ => color lowerStop
        end
  end.

(** ** Options *)

(** The members of [WaveSurferOptions] the renderer core reads.  An
    absent member is [None]. *)
Record WaveSurferOptions : Type := mkOptions {
  colorizeByBrightness : bool;
  colorAnalysisType : option string;
  brightnessColors : option (list ColorStop);
  normalizationPower : option R;
  barWidth : option R;
  barGap : option R;
  barRadius : option R;
  barAlign : option string;
}.

(** Truthiness of an optional number, and [o || d]. *)
Definition truthy (o : option R) : bool :=
  match o with Some x => neqb x 0 | None => false end.

Definition or_else (o : option R) (d : R) : R :=
  match o with Some x => if neqb x 0 then x else d | None => d end.

(** The [%] operator on finite numbers with a non-zero divisor: the
    quotient is truncated towards zero. *)
Definition rem (a n : R) : R :=
  let q := a / n in
  a - n * IZR (if Rle_dec 0 q then Zfloor q else Zceil q).

(** [Array.prototype.slice(start, end)] with integer arguments. *)
Definition slice {A : Type} (start end_ : Z) (l : list A) : list A :=
  let len := Z.of_nat (List.length l) in
  let k := if (start <? 0)%Z then Z.max (len + start) 0 else Z.min start len in
  let final := if (end_ <? 0)%Z then Z.max (len + end_) 0 else Z.min end_ len in
  firstn (Z.to_nat (Z.max (final - k) 0)) (skipn (Z.to_nat k) l).

(** ** Tile Manager: [renderSingleCanvas], [renderMultiCanvas] *)

Definition MAX_CANVAS_WIDTH : R := 8000.
Definition MAX_NODES : nat := 10.

(** A canvas element as [renderSingleCanvas] sets it up.  [cv_data] is
    the slice of channel data [renderWaveform] paints on it. *)
Record Canvas : Type := mkCanvas {
  cv_width : Z;
  cv_height : Z;
  style_width : R;
  style_height : R;
  style_left : Z;
  cv_data : list (list R);
}.

(** The state [draw] and [clearCanvases] share: the closure variable
    [drawnIndexes] and the children of the two containers. *)
Record Tiles : Type := mkTiles {
  drawnIndexes : gmap Z bool;
  canvasContainer : list Canvas;
  progressContainer : list Canvas;
}.

Definition noTiles : Tiles := mkTiles ∅ [] [].

Definition renderSingleCanvas (data : list (list R)) (pixelRatio : R)
    (width height offset : R) (st : Tiles) : Tiles :=
  let canvas :=
    mkCanvas (Math.round (width * pixelRatio)) (Math.round (height * pixelRatio))
             width height (Math.round offset) data in
  let st := mkTiles (drawnIndexes st) (canvasContainer st ++ [canvas])
                    (progressContainer st) in
  (* the progress canvas is a clone of the canvas, filled through a mask *)
  if (0 <? cv_width canvas)%Z && (0 <? cv_height canvas)%Z
  then mkTiles (drawnIndexes st) (canvasContainer st)
               (progressContainer st ++ [canvas])
  else st.

Section RenderMultiCanvas.

Variable channelData : list (list R).
Variable options : WaveSurferOptions.
Variables width height pixelRatio clientWidth : R.

(** [width / pixelRatio], in double precision: the tiles are counted
    from this quotient. *)
Definition totalWidth : R := Double.div width pixelRatio.

(** The width before the adjustment to whole bars; the function returns
    at once when it is 0. *)
Definition cappedWidth : R :=
  Math.min (Math.min MAX_CANVAS_WIDTH clientWidth) totalWidth.

Definition singleCanvasWidth : R :=
  if truthy (barWidth options) || truthy (barGap options) then
    let barWidth := or_else (barWidth options) (5 / 10) in
    let barGap := or_else (barGap options) (barWidth / 2) in
    let totalBarWidth := barWidth + barGap in
    if neqb (rem cappedWidth totalBarWidth) 0
    then IZR (Math.floor (cappedWidth / totalBarWidth)) * totalBarWidth
    else cappedWidth
  else cappedWidth.

Definition numCanvases : Z := Math.ceil (totalWidth / singleCanvasWidth).

Definition tileOffset (index : Z) : R := IZR index * singleCanvasWidth.

Definition clampedWidth (index : Z) : R :=
  Math.min (totalWidth - tileOffset index) singleCanvasWidth.

Definition tileData (index : Z) : list (list R) :=
  let offset := tileOffset index in
  map (fun channel =>
         let len := INR (List.length channel) in
         let start := Math.floor (offset / totalWidth * len) in
         let end_ := Math.floor ((offset + clampedWidth index) / totalWidth * len) in
         slice start end_ channel)
      channelData.

Definition draw (index : Z) (st : Tiles) : Tiles :=
  if (index <? 0)%Z || (numCanvases <=? index)%Z then st
  else match drawnIndexes st !! index with
       | Some true => st
       | _ =>
         let st := mkTiles (<[index := true]> (drawnIndexes st))
                           (canvasContainer st) (progressContainer st) in
         if leb (clampedWidth index) 0 then st
         else renderSingleCanvas (tileData index) pixelRatio
                (clampedWidth index) height (tileOffset index) st
       end.

Definition clearCanvases (st : Tiles) : Tiles :=
  if (MAX_NODES <? size (drawnIndexes st))%nat then noTiles else st.

(** The tile index the code derives from a scroll offset:
    [Math.floor((scrollLeft / totalWidth) * numCanvases)], the quotient
    and the product in double precision. *)
Definition canvasIndex (scrollLeft : R) : Z :=
  Math.floor (Double.mul (Double.div scrollLeft totalWidth) (IZR numCanvases)).

Definition drawAround (index : Z) (st : Tiles) : Tiles :=
  draw (index + 1) (draw index (draw (index - 1) st)).

(** The listener subscribed to ['scroll']. *)
Definition onScroll (scrollLeft : R) (st : Tiles) : Tiles :=
  drawAround (canvasIndex scrollLeft) (clearCanvases st).

(** The synchronous part of [renderMultiCanvas], for a width of tile
    that is not 0: the tiles after the call and whether the scroll
    listener was subscribed.  The two containers are fresh and empty
    (see [renderChannel]). *)
Definition renderMultiCanvas (isScrollable : bool) (scrollLeft : R)
  : Tiles * bool :=
  if neqb cappedWidth 0 then
    if negb isScrollable then
      (fold_left (fun st i => draw (Z.of_nat i) st)
                 (seq 0 (Z.to_nat numCanvases)) noTiles, false)
    else
      (drawAround (canvasIndex scrollLeft) noTiles, (1 <? numCanvases)%Z)
  else (noTiles, false).

End RenderMultiCanvas.

(** ** Spectral Analyzer: [analyzeBrightness], [analyzeProminentFrequency] *)

(** An [AudioBuffer]: the samples of channel 0, those of the further
    channels, and the sample rate.  [audioBuffer.length] is the length of
    a channel. *)
Record AudioBuffer : Type := mkAudioBuffer {
  channel0 : list R;
  moreChannels : list (list R);
  sampleRate : R;
}.

Definition bufferLength (audioBuffer : AudioBuffer) : nat :=
  List.length (channel0 audioBuffer).

Definition fftSize : nat := 128.
Definition hopSize : nat := fftSize / 4.

(** The frame loop shared by the two analyses,
    [for (frameStart = segmentStart; frameStart + fftSize <= segmentEnd;
          frameStart += hopSize)],
    accumulating the sum of the per-frame feature and [framesCount]. *)
Equations? frames (feature : nat -> R) (frameStart segmentEnd : nat)
    (total : R) (framesCount : nat) : R * nat
    by wf (segmentEnd - frameStart)%nat lt :=
  frames feature frameStart segmentEnd total framesCount
    with Compare_dec.le_dec (frameStart + fftSize) segmentEnd := {
    | left _ => frames feature (frameStart + hopSize) segmentEnd
                       (total + feature frameStart) (S framesCount)
    | right _ => (total, framesCount) }.
Proof.
  change hopSize with 32%nat. change fftSize with 128%nat in l. lia.
Qed.

Section Analyzer.

(** [fft.transform(fftOutput, fftInput)] of [utils/fft.js], which is not
    among the sources: from an interleaved complex array to an
    interleaved complex array. *)
Variable transform : list R -> list R.

(** The Hann window. *)
Definition windowValue (i : nat) : R :=
  5 / 10 * (1 - cos (2 * PI * INR i / (INR fftSize - 1))).

Definition fftInput (channelData : list R) (frameStart : nat) : list R :=
  flat_map (fun i => [nth (frameStart + i) channelData 0 * windowValue i; 0])
           (seq 0 fftSize).

Definition magnitude (fftOutput : list R) (i : nat) : R :=
  let real := nth (i * 2) fftOutput 0 in
  let imag := nth (i * 2 + 1) fftOutput 0 in
  sqrt (real * real + imag * imag).

(** The bins [1 .. fftSize / 2 - 1]: the DC component is skipped. *)
Definition bins : list nat := seq 1 (fftSize / 2 - 1).

(** The spectral centroid of one frame. *)
Definition centroid (sampleRate : R) (fftOutput : list R) : R :=
  let '(numerator, denominator) :=
    fold_left (fun '(numerator, denominator) i =>
                 let frequency := INR i * sampleRate / INR fftSize in
                 let m := magnitude fftOutput i in
                 (numerator + frequency * m, denominator + m))
              bins (0, 0) in
  if neqb denominator 0 then numerator / denominator else 0.

Definition normalizedFrameCentroid (channelData : list R) (sampleRate : R)
    (frameStart : nat) : R :=
  let fftOutput := transform (fftInput channelData frameStart) in
  ln (1 + centroid sampleRate fftOutput) / ln (1 + sampleRate / 2).

(** The bin of maximal magnitude of one frame, and its frequency. *)
Definition prominentBin (fftOutput : list R) : nat :=
  snd (fold_left (fun '(maxMagnitude, prominentBin) i =>
                    let m := magnitude fftOutput i in
                    if ltb maxMagnitude m then (m, i)
                    else (maxMagnitude, prominentBin))
                 bins (0, 0%nat)).

Definition prominentFrequency (channelData : list R) (sampleRate : R)
    (frameStart : nat) : R :=
  let fftOutput := transform (fftInput channelData frameStart) in
  INR (prominentBin fftOutput) * sampleRate / INR fftSize.

(** One turn of the segment loop: the raw value pushed for
    [segmentIndex]. *)
Definition segmentValue (feature : nat -> R) (default : R)
    (length segmentSize segmentIndex : nat) : R :=
  let segmentStart := (segmentIndex * segmentSize)%nat in
  let segmentEnd := Nat.min (segmentStart + segmentSize) length in
  if (segmentEnd - segmentStart <? fftSize)%nat then default
  else
    let '(total, framesCount) := frames feature segmentStart segmentEnd 0 0 in
    if (0 <? framesCount)%nat then total / INR framesCount else default.

Definition segmentValues (feature : nat -> R) (default : R)
    (length numberOfSegments : nat) : list R :=
  let segmentSize := (length / numberOfSegments)%nat in
  map (segmentValue feature default length segmentSize)
      (seq 0 numberOfSegments).

Definition rawBrightnessValues (audioBuffer : AudioBuffer)
    (numberOfSegments : nat) : list R :=
  let channelData := channel0 audioBuffer in
  segmentValues (normalizedFrameCentroid channelData (sampleRate audioBuffer))
                (5 / 10) (List.length channelData) numberOfSegments.

Definition rawProminentFrequencyValues (audioBuffer : AudioBuffer)
    (numberOfSegments : nat) : list R :=
  let channelData := channel0 audioBuffer in
  segmentValues (prominentFrequency channelData (sampleRate audioBuffer))
                (sampleRate audioBuffer / 4) (List.length channelData)
                numberOfSegments.

(** [max - min > 0.001 ? max - min : 1] *)
Definition normalizationRange (minValue maxValue : R) : R :=
  if ltb (1 / 1000) (maxValue - minValue) then maxValue - minValue else 1.

(** [analyzeBrightness]: the new value of [brightnessData] after a call
    that returns. *)
Definition analyzeBrightness (options : WaveSurferOptions)
    (audioBuffer : AudioBuffer) (numberOfSegments : nat) : list jsnum :=
  if negb (colorizeByBrightness options) then []
  else
    match rawBrightnessValues audioBuffer numberOfSegments with
    | [] => [Num (5 / 10)]
    | v :: vs =>
        let minBrightness := Math.min_list v vs in
        let maxBrightness := Math.max_list v vs in
        let range := normalizationRange minBrightness maxBrightness in
        map (fun raw =>
               let normalizedValue := (raw - minBrightness) / range in
               match normalizationPower options with
               | Some p => Math.pow normalizedValue p
               | None => Num normalizedValue
               end)
            (v :: vs)
    end.

(** [analyzeProminentFrequency]: the new value of
    [prominentFrequencyData] after a call that returns. *)
Definition analyzeProminentFrequency (audioBuffer : AudioBuffer)
    (numberOfSegments : nat) : list jsnum :=
  match rawProminentFrequencyValues audioBuffer numberOfSegments with
  | [] => [Num (5 / 10)]
  | v :: vs =>
      let minProminentFrequency := Math.min_list v vs in
      let maxProminentFrequency := Math.max_list v vs in
      let range := normalizationRange minProminentFrequency maxProminentFrequency in
      map (fun value => Num ((value - minProminentFrequency) / range)) (v :: vs)
  end.

(** The outcome of a call of [analyzeBrightness] in an engine that
    accepts [maxArguments] arguments in a call: the array the call leaves
    in [brightnessData], or [None] when [Math.min(...rawBrightnessValues)]
    or [Math.max(...rawBrightnessValues)] throws a RangeError. *)
Definition analyzeBrightnessOutcome (maxArguments : nat) (options : WaveSurferOptions)
    (audioBuffer : AudioBuffer) (numberOfSegments : nat) : option (list jsnum) :=
  if negb (colorizeByBrightness options) then Some []
  else
    match rawBrightnessValues audioBuffer numberOfSegments with
    | [] => Some [Num (5 / 10)]
    | v :: vs =>
        match Math.min_spread maxArguments v vs with
        | None => None
        | Some minBrightness =>
            match Math.max_spread maxArguments v vs with
            | None => None
            | Some maxBrightness =>
                let range := normalizationRange minBrightness maxBrightness in
                Some (map (fun raw =>
                             let normalizedValue := (raw - minBrightness) / range in
                             match normalizationPower options with
                             | Some p => Math.pow normalizedValue p
                             | None => Num normalizedValue
                             end)
                          (v :: vs))
            end
        end
    end.

(** The outcome of a call of [analyzeProminentFrequency], likewise. *)
Definition analyzeProminentFrequencyOutcome (maxArguments : nat)
    (audioBuffer : AudioBuffer) (numberOfSegments : nat) : option (list jsnum) :=
  match rawProminentFrequencyValues audioBuffer numberOfSegments with
  | [] => Some [Num (5 / 10)]
  | v :: vs =>
      match Math.min_spread maxArguments v vs with
      | None => None
      | Some minProminentFrequency =>
          match Math.max_spread maxArguments v vs with
          | None => None
          | Some maxProminentFrequency =>
              let range :=
                normalizationRange minProminentFrequency maxProminentFrequency in
              Some (map (fun value => Num ((value - minProminentFrequency) / range))
                        (v :: vs))
          end
      end
  end.

(** *** The analysis step of [render] *)

(** [finalNumberOfSegments] for a buffer of [length] samples and a
    waveform [width] (in device pixels). *)
Definition finalNumberOfSegments (length : nat) (width pixelRatio : R) : Z :=
  let maxPossibleSegments := Math.floor (INR length / INR fftSize) in
  let segmentsBasedOnWidth := Z.max 100 (Math.ceil (width / pixelRatio / 5)) in
  let numberOfSegments := Z.min maxPossibleSegments segmentsBasedOnWidth in
  Z.max 1 numberOfSegments.

Record AnalysisData : Type := mkAnalysisData {
  brightnessData : list jsnum;
  prominentFrequencyData : list jsnum;
}.

Definition isProminentFrequency (options : WaveSurferOptions) : bool :=
  match colorAnalysisType options with
  | Some t => String.eqb t "prominentFrequency"
  | None => false
  end.

(** The two members after the analysis step of [render]; their former
    values are overwritten on every path. *)
Definition renderAnalysis (options : WaveSurferOptions)
    (audioData : AudioBuffer) (width pixelRatio : R) : AnalysisData :=
  if colorizeByBrightness options then
    let n := Z.to_nat (finalNumberOfSegments (bufferLength audioData)
                                             width pixelRatio) in
    if isProminentFrequency options
    then mkAnalysisData [] (analyzeProminentFrequency audioData n)
    else mkAnalysisData (analyzeBrightness options audioData n) []
  else mkAnalysisData [] [].

End Analyzer.

(** ** Waveform Rasterizer: [renderBarWaveform], [renderLineWaveform] *)

(** What [ctx.fillStyle] holds: a CSS colour or a gradient (as built by
    [convertColorValues]). *)
Inductive FillStyle : Type :=
| CssColor (s : string)
| CanvasGradient (colorStops : list (R * string)).

(** The calls made on the 2D context; [Fill] records the fill style in
    force when [ctx.fill()] is called. *)
Inductive Call : Type :=
| BeginPath
| ClosePath
| Rect (x y w h : R)
| RoundRect (x y w h radii : R)
| MoveTo (x y : R)
| LineTo (x y : R)
| Fill (style : FillStyle).

(** The 2D context: its [fillStyle], the size of its canvas, whether it
    has a [roundRect] method, and the calls received so far. *)
Record Context2D : Type := mkContext {
  fillStyle : FillStyle;
  canvas_width : R;
  canvas_height : R;
  has_roundRect : bool;
  calls : list Call;
}.

Definition call (c : Call) (ctx : Context2D) : Context2D :=
  mkContext (fillStyle ctx) (canvas_width ctx) (canvas_height ctx)
            (has_roundRect ctx) (calls ctx ++ [c]).

(** [ctx.fillStyle = s]: the context is read as a record, and the
    assignment stores the value. *)
Definition set_fillStyle (s : FillStyle) (ctx : Context2D) : Context2D :=
  mkContext s (canvas_width ctx) (canvas_height ctx) (has_roundRect ctx)
            (calls ctx).

Definition fill (ctx : Context2D) : Context2D := call (Fill (fillStyle ctx)) ctx.

(** [a[i]] for an integer [i]: [None] is [undefined]. *)
Definition at_index {A : Type} (a : list A) (i : Z) : option A :=
  if (i <? 0)%Z then None else nth_error a (Z.to_nat i).

(** [Math.abs(channel[i] || 0)] *)
Definition sampleMagnitude (channel : list R) (i : Z) : R :=
  Math.abs (match at_index channel i with Some v => v | None => 0 end).

(** [analysisData[i]], as the number [getColorValue] clamps. *)
Definition analysisValue (analysisData : list jsnum) (i : Z) : jsnum :=
  match at_index analysisData i with Some v => v | None => NaN end.

Definition is_align (options : WaveSurferOptions) (a : string) : bool :=
  match barAlign options with Some s => String.eqb s a | None => false end.

(** [n || 1] for an integer. *)
Definition or_one (n : Z) : Z := if (n =? 0)%Z then 1%Z else n.

Section Rasterizer.

(** Members of the renderer: [this.options], [this.brightnessData],
    [this.prominentFrequencyData], and [getPixelRatio()]. *)
Variable thisOptions : WaveSurferOptions.
Variable data : AnalysisData.
Variable pixelRatio : R.

Definition useColorization (options : WaveSurferOptions) : bool :=
  colorizeByBrightness options && (0 <? List.length (brightnessData data))%nat.

Definition analysisData : list jsnum :=
  if isProminentFrequency thisOptions then prominentFrequencyData data
  else brightnessData data.

Definition stopsOf (options : WaveSurferOptions) : list ColorStop :=
  match brightnessColors options with Some l => l | None => [] end.

(** *** Bars *)

Record BarLoop : Type := mkBarLoop {
  prevX : Z;
  maxTop : R;
  maxBottom : R;
  barCount : nat;
  bar_ctx : Context2D;
}.

Section Bars.

Variable channelData : list (list R).
Variable options : WaveSurferOptions.
Variable vScale : R.
Variable ctx0 : Context2D.

Definition topChannel : list R := nth 0 channelData [].
Definition bottomChannel : list R :=
  match nth_error channelData 1 with Some c => c | None => topChannel end.

Definition bar_width : R := canvas_width ctx0.
Definition bar_height : R := canvas_height ctx0.
Definition halfHeight : R := bar_height / 2.

Definition barWidth' : R :=
  if truthy (barWidth options) then or_else (barWidth options) 0 * pixelRatio
  else 1.
Definition barGap' : R :=
  if truthy (barGap options) then or_else (barGap options) 0 * pixelRatio
  else if truthy (barWidth options) then barWidth' / 2 else 0.
Definition barRadius' : R := or_else (barRadius options) 0.
Definition barIndexScale : R :=
  bar_width / (barWidth' + barGap') / INR (List.length topChannel).

Definition rectFn (x y w h : R) : Call :=
  if truthy (barRadius options) && has_roundRect ctx0
  then RoundRect x y w h barRadius' else Rect x y w h.

(** The rectangle of the bar that ends when the loop reaches a new
    bar slot. *)
Definition barRect (st : BarLoop) : Call :=
  let topBarHeight := Math.round (maxTop st * halfHeight * vScale) in
  let bottomBarHeight := Math.round (maxBottom st * halfHeight * vScale) in
  let barHeight := or_one (topBarHeight + bottomBarHeight) in
  let y := if is_align options "top" then 0
           else if is_align options "bottom" then bar_height - IZR barHeight
           else halfHeight - IZR topBarHeight in
  rectFn (IZR (prevX st) * (barWidth' + barGap')) y barWidth' (IZR barHeight).

Definition brightnessIndex (st : BarLoop) : Z :=
  let n := List.length (brightnessData data) in
  Z.min (Z.of_nat n - 1)
        (Math.floor (INR (barCount st) / (bar_width / (barWidth' + barGap'))
                     * INR n)).

(** The end of every turn: the running maxima take the sample [i]. *)
Definition takeSample (i : nat) (st : BarLoop) : BarLoop :=
  let magnitudeTop := sampleMagnitude topChannel (Z.of_nat i) in
  let magnitudeBottom := sampleMagnitude bottomChannel (Z.of_nat i) in
  mkBarLoop (prevX st)
            (if ltb (maxTop st) magnitudeTop then magnitudeTop else maxTop st)
            (if ltb (maxBottom st) magnitudeBottom then magnitudeBottom
             else maxBottom st)
            (barCount st) (bar_ctx st).

(** One turn of the loop without colorization: the bar joins the one
    path. *)
Definition plainBarStep (st : BarLoop) (i : nat) : BarLoop :=
  let x := Math.round (INR i * barIndexScale) in
  takeSample i
    (if (prevX st <? x)%Z
     then mkBarLoop x 0 0 (barCount st) (call (barRect st) (bar_ctx st))
     else st).

(** One turn of the loop with colorization: the bar is a path of its
    own, filled with the colour of its analysis value. *)
Definition colorBarStep (st : BarLoop) (i : nat) : BarLoop :=
  let x := Math.round (INR i * barIndexScale) in
  takeSample i
    (if (prevX st <? x)%Z
     then
       let value := analysisValue analysisData (brightnessIndex st) in
       let ctx := set_fillStyle
                    (CssColor (getColorValue value (stopsOf options)))
                    (bar_ctx st) in
       let ctx := call ClosePath (fill (call (barRect st) (call BeginPath ctx))) in
       mkBarLoop x 0 0 (S (barCount st)) ctx
     else st).

Definition barTurns : list nat := seq 0 (List.length topChannel + 1).

Definition renderBarWaveform : Context2D :=
  let defaultFillStyle := fillStyle ctx0 in
  if negb (useColorization options) then
    let st := fold_left plainBarStep barTurns
                        (mkBarLoop 0 0 0 0 (call BeginPath ctx0)) in
    call ClosePath (fill (bar_ctx st))
  else
    let st := fold_left colorBarStep barTurns (mkBarLoop 0 0 0 0 ctx0) in
    set_fillStyle defaultFillStyle (bar_ctx st).

End Bars.

(** *** Lines *)

Record LineLoop : Type := mkLineLoop {
  line_prevX : R;
  line_max : R;
  line_ctx : Context2D;
}.

Section Lines.

Variable channelData : list (list R).
Variable options : WaveSurferOptions.
Variable vScale : R.
Variable ctx0 : Context2D.

Definition line_halfHeight : R := canvas_height ctx0 / 2.

(** [drawChannel(index)] of the path without colorization. *)
Definition drawChannel (index : nat) (ctx : Context2D) : Context2D :=
  let channel := match nth_error channelData index with
                 | Some c => c
                 | None => nth 0 channelData []
                 end in
  let length := List.length channel in
  let hScale := canvas_width ctx0 / INR length in
  let step (st : LineLoop) (i : nat) : LineLoop :=
    let x := IZR (Math.round (INR i * hScale)) in
    let st :=
      if ltb (line_prevX st) x then
        let h := or_one (Math.round (line_max st * line_halfHeight * vScale)) in
        let y := line_halfHeight + IZR h * (if (index =? 0)%nat then -1 else 1) in
        mkLineLoop x 0 (call (LineTo (line_prevX st) y) (line_ctx st))
      else st in
    let value := sampleMagnitude channel (Z.of_nat i) in
    mkLineLoop (line_prevX st)
               (if ltb (line_max st) value then value else line_max st)
               (line_ctx st) in
  let st := fold_left step (seq 0 (length + 1))
                      (mkLineLoop 0 0 (call (MoveTo 0 line_halfHeight) ctx)) in
  call (LineTo (line_prevX st) line_halfHeight) (line_ctx st).

Definition segmentWidth : Z :=
  Z.max 1 (Math.ceil (canvas_width ctx0
                      / INR (List.length (brightnessData data)))).

(** One of the two inner loops of a coloured segment, over
    [i = startIndex .. min(endIndex, length)]; [sign] is [-1] for the
    top channel and [1] for the bottom one. *)
Definition segmentLoop (channel : list R) (sign : R)
    (startX endX hScale : R) (startIndex endIndex : Z) (ctx : Context2D)
  : Context2D :=
  let last := Z.min endIndex (Z.of_nat (List.length (nth 0 channelData []))) in
  let step (st : LineLoop) (k : nat) : LineLoop :=
    let i := (startIndex + Z.of_nat k)%Z in
    let x := Math.min endX (IZR (Math.round (IZR i * hScale))) in
    let st :=
      if ltb (line_prevX st) x then
        let h := or_one (Math.round (line_max st * line_halfHeight * vScale)) in
        let y := line_halfHeight + sign * IZR h in
        mkLineLoop x 0 (call (LineTo (line_prevX st) y) (line_ctx st))
      else st in
    let value := sampleMagnitude channel i in
    mkLineLoop (line_prevX st)
               (if ltb (line_max st) value then value else line_max st)
               (line_ctx st) in
  line_ctx (fold_left step (seq 0 (Z.to_nat (last - startIndex + 1)))
                      (mkLineLoop startX 0 ctx)).

(** The body of the segment loop, after the [break] test. *)
Definition drawSegment (segmentIndex : nat) (ctx : Context2D) : Context2D :=
  let width := canvas_width ctx0 in
  let startX := IZR (Z.of_nat segmentIndex * segmentWidth) in
  let endX := Math.min width (IZR ((Z.of_nat segmentIndex + 1) * segmentWidth)) in
  let value := analysisValue analysisData (Z.of_nat segmentIndex) in
  let ctx := set_fillStyle (CssColor (getColorValue value (stopsOf options)))
                           ctx in
  let channel0 := nth 0 channelData [] in
  let channel1 := match nth_error channelData 1 with
                  | Some c => c
                  | None => channel0
                  end in
  let hScale := width / INR (List.length channel0) in
  let startIndex := Math.floor (startX / hScale) in
  let endIndex := Math.ceil (endX / hScale) in
  let ctx := call (MoveTo startX line_halfHeight) (call BeginPath ctx) in
  let ctx := segmentLoop channel0 (-1) startX endX hScale startIndex endIndex ctx in
  let ctx := segmentLoop channel1 1 startX endX hScale startIndex endIndex ctx in
  call ClosePath (fill (call (LineTo endX line_halfHeight) ctx)).

(** The segment loop, left by [break] at the first segment that
    starts at or beyond the width. *)
Fixpoint segmentsLoop (segments : list nat) (ctx : Context2D) : Context2D :=
  match segments with
  | [] => ctx
  | segmentIndex :: rest =>
      if leb (canvas_width ctx0) (IZR (Z.of_nat segmentIndex * segmentWidth))
      then ctx
      else segmentsLoop rest (drawSegment segmentIndex ctx)
  end.

Definition renderLineWaveform : Context2D :=
  if negb (useColorization options) then
    call ClosePath (fill (drawChannel 1 (drawChannel 0 (call BeginPath ctx0))))
  else
    let defaultFillStyle := fillStyle ctx0 in
    let ctx := segmentsLoop (seq 0 (List.length (brightnessData data))) ctx0 in
    set_fillStyle defaultFillStyle ctx.

End Lines.

(** [renderWaveform] after the fill style is set and without a custom
    [renderFunction]: bars when any bar option is set, a polyline
    otherwise. *)
Definition rasterize (channelData : list (list R)) (options : WaveSurferOptions)
    (vScale : R) (ctx : Context2D) : Context2D :=
  if truthy (barWidth options) || truthy (barGap options)
     || match barAlign options with Some s => negb (String.eqb s "") | None => false end
  then renderBarWaveform channelData options vScale ctx
  else renderLineWaveform channelData options vScale ctx.

End Rasterizer.

(** Modelled from the spec: the discrete Fourier transform of an
    interleaved complex array, standing for [FFT.transform] of
    [utils/fft.js], which is not among the sources.  It serves as an
    instance of the transform the analyzer is parameterised by. *)
Definition dft (input : list R) : list R :=
  let n := (List.length input / 2)%nat in
  let re j := nth (2 * j) input 0 in
  let im j := nth (2 * j + 1) input 0 in
  let angle k j := 2 * PI * INR k * INR j / INR n in
  let sum (f : nat -> R) := fold_right Rplus 0 (map f (seq 0 n)) in
  flat_map (fun k =>
              [sum (fun j => re j * cos (angle k j) + im j * sin (angle k j));
               sum (fun j => im j * cos (angle k j) - re j * sin (angle k j))])
           (seq 0 n).

(** The spec's wording of the fallback of the Color Mapper: the
    bracketing stop whose position is closest to the value. *)
Definition nearerStop (value : R) (a b : ColorStop) : ColorStop :=
  if leb (Rabs (value - stop a)) (Rabs (stop b - value)) then a else b.

(** A feature value of the documented range. *)
Definition in01 (v : jsnum) : Prop :=
  match v with
  | Num x => 0 <= x <= 1
  | _ => False
  end.

(** The canvas [draw] hands to the container for the tile [index]. *)
Definition tileCanvas (channelData : list (list R)) (options : WaveSurferOptions)
    (width height pixelRatio clientWidth : R) (index : Z) : Canvas :=
  let w := clampedWidth options width pixelRatio clientWidth index in
  mkCanvas (Math.round (w * pixelRatio)) (Math.round (height * pixelRatio))
           w height
           (Math.round (tileOffset options width pixelRatio clientWidth index))
           (tileData channelData options width pixelRatio clientWidth index).

(** A canvas with pixels: [renderSingleCanvas] gives it a progress
    canvas. *)
Definition hasPixels (canvas : Canvas) : bool :=
  (0 <? cv_width canvas)%Z && (0 <? cv_height canvas)%Z.

(** The canvas container holds the canvases of the tiles [tiles], in
    this order and each tile once, and nothing else; the progress
    container holds the copies of those that have pixels; the tiles
    tracked in [drawnIndexes] are these tiles. *)
Definition materialized (channelData : list (list R)) (options : WaveSurferOptions)
    (width height pixelRatio clientWidth : R) (st : Tiles) (tiles : list Z) : Prop :=
  NoDup tiles
  /\ canvasContainer st
     = map (tileCanvas channelData options width height pixelRatio clientWidth) tiles
  /\ progressContainer st = List.filter hasPixels (canvasContainer st)
  /\ (forall i, drawnIndexes st !! i = if decide (i ∈ tiles) then Some true else None).

(** What one call of [draw] adds to the tiles [tiles]: the index, if
    [draw] accepts it and it is not among them. *)
Definition freshTile (numCanvases i : Z) (tiles : list Z) : list Z :=
  if decide ((0 <= i < numCanvases)%Z /\ i ∉ tiles) then [i] else [].

(** The indices of [index - 1], [index], [index + 1] that [draw] accepts
    and that are not among [tiles], in the order of the calls. *)
Definition freshTiles (numCanvases index : Z) (tiles : list Z) : list Z :=
  filter (fun i => (0 <= i < numCanvases)%Z /\ i ∉ tiles)
         [(index - 1)%Z; index; (index + 1)%Z].

(** Options with colorization off and no bar option. *)
Definition plainOptions : WaveSurferOptions :=
  mkOptions false None None None None None None None.

(** Scenario A: a mono buffer of 16,000 samples at 16 kHz, all zero. *)
Definition silence : AudioBuffer :=
  mkAudioBuffer (repeat 0 (16 * 1000)) [] 16000.

(** A colour none of whose channels is negative. *)
Definition nonneg_rgb (c : RGB) : Prop := (0 <= r c /\ 0 <= g c /\ 0 <= b c)%Z.

(** A colour whose channels are below 2^53: integers a double holds
    exactly and JavaScript prints with all their decimal digits. *)
Definition safe_rgb (c : RGB) : Prop := (r c < 2 ^ 53 /\ g c < 2 ^ 53 /\ b c < 2 ^ 53)%Z.

(** [x] lies between [u] and [v], whichever is the smaller. *)
Definition between (u v x : Z) : Prop := (Z.min u v <= x <= Z.max u v)%Z.

(** The tiles after a first render of a scrollable waveform at the
    scroll offset [scrollLeft] and the scroll notifications [offsets],
    handled in order. *)
Definition afterScrolls (channelData : list (list R)) (options : WaveSurferOptions)
    (width height pixelRatio clientWidth scrollLeft : R) (offsets : list R) : Tiles :=
  fold_left (fun st s => onScroll channelData options width height pixelRatio
                                  clientWidth s st)
            offsets
            (fst (renderMultiCanvas channelData options width height pixelRatio
                                    clientWidth true scrollLeft)).

(** Every entry of [drawnIndexes] is [true], no container holds more
    canvases than tiles are tracked, and no canvas of the progress
    container is without its canvas. *)
Definition tilesConsistent (st : Tiles) : Prop :=
  (forall k, drawnIndexes st !! k <> Some false)
  /\ (List.length (canvasContainer st) <= size (drawnIndexes st))%nat
  /\ (List.length (progressContainer st) <= List.length (canvasContainer st))%nat.

(** ** The width of the waveform in [render], and [reRender] *)

(** The members of the options [render] reads for the width. *)
Record LayoutOptions : Type := mkLayout {
  minPxPerSec : option R;
  audioRate : option R;
  fillParent : bool;
}.

(** [Math.ceil(audioData.duration / (audioRate || 1) * (minPxPerSec || 0))],
    the quotient and the product in double precision. *)
Definition scrollWidth (duration : R) (layout : LayoutOptions) : Z :=
  let audioRate := or_else (audioRate layout) 1 in
  let scaledDuration := Double.div duration audioRate in
  Math.ceil (Double.mul scaledDuration (or_else (minPxPerSec layout) 0)).

Definition isScrollable (duration : R) (layout : LayoutOptions) (parentWidth : R)
  : bool :=
  ltb parentWidth (IZR (scrollWidth duration layout)).

Definition useParentWidth (duration : R) (layout : LayoutOptions) (parentWidth : R)
  : bool :=
  fillParent layout && negb (isScrollable duration layout parentWidth).

(** The [width] handed to [renderChannel], in device pixels: a product in
    double precision. *)
Definition renderWidth (duration : R) (layout : LayoutOptions)
    (parentWidth pixelRatio : R) : R :=
  Double.mul (if useParentWidth duration layout parentWidth then parentWidth
              else IZR (scrollWidth duration layout))
             pixelRatio.

(** A bar option that is absent or not negative. *)
Definition nonneg_option (o : option R) : Prop :=
  match o with Some x => 0 <= x | None => True end.

(** The adjustment of the scroll offset in [reRender]:
    [delta *= 2; delta = delta < 0 ? Math.floor(delta) : Math.ceil(delta);
     delta /= 2]. *)
Definition roundDelta (delta : R) : R :=
  let delta := delta * 2 in
  let delta := if ltb delta 0 then IZR (Math.floor delta) else IZR (Math.ceil delta) in
  delta / 2.

(** The number of samples of a channel of [len] samples that lie before
    the tile [i], as [draw] cuts the channel. *)
Definition sampleEdge (options : WaveSurferOptions) (width pixelRatio clientWidth : R)
    (len : nat) (i : Z) : Z :=
  Zfloor (Rmin (IZR i * singleCanvasWidth options width pixelRatio clientWidth)
               (totalWidth width pixelRatio)
          / totalWidth width pixelRatio * INR len).

(** ** [renderWaveform]: the vertical scale, and [convertColorValues] *)

(** [vScale] as [renderWaveform] computes it from [options.barHeight],
    [options.normalize] and the first channel. *)
Definition peak (channel : list R) : R :=
  fold_left (fun max value => Math.max max (Math.abs value)) channel 0.

Definition verticalScale (barHeight : option R) (normalize : bool)
    (channel : list R) : R :=
  let vScale := or_else barHeight 1 in
  if normalize then
    let max := peak channel in
    if neqb max 0 then 1 / max else 1
  else vScale.

(** [options.waveColor]: absent, one colour, a gradient made by the
    caller, or an array of colours. *)
Inductive WaveColor : Type :=
| NoColor
| OneColor (color : string)
| GradientColor (stops : list (R * string))
| Colors (colors : list string).

(** [color || ''] for a string. *)
Definition or_empty (o : option string) : string :=
  match o with Some c => c | None => EmptyString end.

(** [convertColorValues]: a string as it is, an array of fewer than two
    colours as its first colour, a longer array as a vertical gradient
    with the colours at equal distances. *)
Definition convertColorValues (color : WaveColor) : FillStyle :=
  match color with
  | NoColor => CssColor EmptyString
  | OneColor c => CssColor c
  | GradientColor stops => CanvasGradient stops
  | Colors colors =>
      if (List.length colors <? 2)%nat then CssColor (or_empty (List.head colors))
      else
        let colorStopPercentage := 1 / (INR (List.length colors) - 1) in
        CanvasGradient
          (map (fun '(index, color) => (INR index * colorStopPercentage, color))
               (combine (seq 0 (List.length colors)) colors))
  end.

(** The calls of a path of its own for one bar. *)
Definition barPath (bar : Call * FillStyle) : list Call :=
  [BeginPath; fst bar; Fill (snd bar); ClosePath].

Definition is_rect (c : Call) : bool :=
  match c with Rect _ _ _ _ | RoundRect _ _ _ _ _ => true | _ => false end.

(** No analysis data: colorization cannot be in use. *)
Definition noAnalysis : AnalysisData := mkAnalysisData [] [].

(** The bar loop without colorization ([p]) and with it ([c]) in step:
    the same position and running maxima, the same rectangles [bars], in
    one path after [base] on one side and in a path each on the other. *)
Definition barsInStep (options : WaveSurferOptions) (ctx0 : Context2D)
    (base : list Call) (bars : list (Call * FillStyle)) (p c : BarLoop) : Prop :=
  prevX p = prevX c /\ maxTop p = maxTop c /\ maxBottom p = maxBottom c
  /\ fillStyle (bar_ctx p) = fillStyle ctx0
  /\ calls (bar_ctx p) = base ++ BeginPath :: map fst bars
  /\ calls (bar_ctx c) = base ++ flat_map barPath bars
  /\ Forall (fun bar => is_rect (fst bar) = true
                        /\ exists v, snd bar
                                     = CssColor (getColorValue v (stopsOf options)))
            bars.

(** ** [renderProgress]: the cursor

    The clip path, the width of the progress wrapper and the left edge of
    the cursor are all at [percents], the product [progress * 100] in
    double precision; the cursor is moved back by
    [cursorOffset] pixels ([translateX(-...px)]).  Nothing is changed for
    a NaN progress ([None]). *)
Record ProgressStyle : Type := mkProgressStyle {
  percents : R;
  cursorOffset : R
}.

Definition renderProgress (cursorWidth : R) (progress : option R)
    : option ProgressStyle :=
  match progress with
  | None => None
  | Some progress =>
      let percents := Double.mul progress 100 in
      Some (mkProgressStyle percents
              (if (Math.round percents =? 100)%Z then cursorWidth else 0))
  end.

(** * The Segments plugin ([plugins/index.ts])

    The plugin lays a strip of labelled segments under the waveform.
    The model keeps what the plugin computes: the position and width of
    each segment element, and whether the element is attached to the
    strip.  The widths the browser reports for an element
    ([offsetWidth], [getBoundingClientRect]) are inputs of the model. *)

Module Segments.

Record Segment : Type := mkSegment {
  start : R;
  end_ : R;
  label : string
}.

(** The style of a segment element: [left] and [width], in pixels. *)
Record SegmentElement : Type := mkSegmentElement {
  style_left : R;
  style_width : R;
  textContent : string
}.

(** [(wrapper.scrollWidth || segmentsWrapper.scrollWidth) / duration]. *)
Definition pxPerSec (wrapperScrollWidth segmentsScrollWidth duration : R) : R :=
  (if neqb wrapperScrollWidth 0 then wrapperScrollWidth else segmentsScrollWidth)
  / duration.

Definition segmentElement (pxPerSec : R) (segment : Segment) : SegmentElement :=
  let startPosition := start segment * pxPerSec in
  let endPosition := end_ segment * pxPerSec in
  let width := endPosition - startPosition in
  mkSegmentElement startPosition width (label segment).

(** [initSegments]: nothing is built while the duration is not positive
    ([None]); otherwise one element per segment, in order. *)
Definition initSegments (duration wrapperScrollWidth segmentsScrollWidth : R)
    (segments : list Segment) : option (list SegmentElement) :=
  if leb duration 0 then None
  else
    let pxPerSec := pxPerSec wrapperScrollWidth segmentsScrollWidth duration in
    Some (map (segmentElement pxPerSec) segments).

(** The state of one [virtualAppend]: the closure variable [wasVisible]
    and whether the element is a child of the segments container. *)
Record Visibility : Type := mkVisibility {
  wasVisible : bool;
  attached : bool
}.

(** One notification: the width read from the element, and the scroll
    window. *)
Record Scroll : Type := mkScroll {
  elementWidth : R;
  scrollLeft : R;
  scrollRight : R
}.

Definition isVisible (start : R) (s : Scroll) : bool :=
  leb start (scrollRight s) && leb (scrollLeft s) (start + elementWidth s).

(** [renderIfVisible]: [appendChild] or [remove] only when the visibility
    changes. *)
Definition renderIfVisible (start : R) (st : Visibility) (s : Scroll) : Visibility :=
  let isVisible := isVisible start s in
  if Bool.eqb isVisible (wasVisible st) then st
  else mkVisibility isVisible isVisible.

(** [virtualAppend]: the element starts detached, [renderIfVisible] runs
    once at once and then at every [scroll] event. *)
Definition virtualAppend (start : R) (first : Scroll) (scrolls : list Scroll)
    : Visibility :=
  fold_left (renderIfVisible start) scrolls
            (renderIfVisible start (mkVisibility false false) first).

End Segments.

(** * Properties *)

(** ** Comparisons and rounding *)

Lemma leb_true x y : x <= y -> leb x y = true.
Proof. intros H. unfold leb. destruct (Rle_dec x y); [reflexivity | contradiction]. Qed.

Lemma leb_false x y : y < x -> leb x y = false.
Proof. intros H. unfold leb. destruct (Rle_dec x y); [lra | reflexivity]. Qed.

Lemma ltb_true x y : x < y -> ltb x y = true.
Proof. intros H. unfold ltb. destruct (Rlt_dec x y); [reflexivity | contradiction]. Qed.

Lemma ltb_false x y : y <= x -> ltb x y = false.
Proof. intros H. unfold ltb. destruct (Rlt_dec x y); [lra | reflexivity]. Qed.

Lemma neqb_true x y : x <> y -> neqb x y = true.
Proof. intros H. unfold neqb. destruct (Req_dec_T x y); [contradiction | reflexivity]. Qed.

Lemma neqb_false x : neqb x x = false.
Proof. unfold neqb. destruct (Req_dec_T x x); [reflexivity | contradiction]. Qed.

(** ** Double precision *)

Lemma pow2_pos (z : Z) : 0 < powerRZ 2 z.
Proof. apply powerRZ_lt. lra. Qed.

Lemma pow2_add (a b : Z) : powerRZ 2 (a + b) = powerRZ 2 a * powerRZ 2 b.
Proof. apply powerRZ_add. lra. Qed.

Lemma pow2_exp (z : Z) : powerRZ 2 z = exp (IZR z * ln 2).
Proof. rewrite powerRZ_Rpower by lra. reflexivity. Qed.

Lemma ln2_pos : 0 < ln 2.
Proof. rewrite <- ln_1. apply ln_increasing; lra. Qed.

Lemma pow2_le (a b : Z) : (a <= b)%Z -> powerRZ 2 a <= powerRZ 2 b.
Proof.
  intros H. rewrite !pow2_exp.
  destruct (Z.eq_dec a b) as [->|N]; [lra|].
  left. apply exp_increasing. apply Rmult_lt_compat_r; [apply ln2_pos|].
  apply IZR_lt. lia.
Qed.

Lemma pow2_lt (a b : Z) : (a < b)%Z -> powerRZ 2 a < powerRZ 2 b.
Proof.
  intros H. rewrite !pow2_exp. apply exp_increasing.
  apply Rmult_lt_compat_r; [apply ln2_pos|]. apply IZR_lt. exact H.
Qed.

Lemma pow2_lt_inv (a b : Z) : powerRZ 2 a < powerRZ 2 b -> (a < b)%Z.
Proof.
  intros H. destruct (Z_lt_le_dec a b) as [L|G]; [exact L|].
  pose proof (pow2_le b a G). lra.
Qed.

Lemma pow2_IZR (k : Z) : (0 <= k)%Z -> powerRZ 2 k = IZR (2 ^ k).
Proof.
  intros H. rewrite <- (Z2Nat.id k H) at 1. rewrite <- pow_powerRZ.
  rewrite pow_IZR. rewrite Z2Nat.id by exact H. reflexivity.
Qed.

Lemma pow2_cancel (a : Z) : powerRZ 2 a * powerRZ 2 (- a) = 1.
Proof. rewrite <- pow2_add. replace (a + - a)%Z with 0%Z by lia. reflexivity. Qed.

Lemma exponent_spec (x : R) :
  0 < x -> powerRZ 2 (Double.exponent x) <= x < powerRZ 2 (Double.exponent x + 1).
Proof.
  intros Hx. unfold Double.exponent. rewrite Rabs_right by lra.
  pose proof (Zfloor_bound (ln x / ln 2)) as [B1 B2].
  set (e := Zfloor (ln x / ln 2)) in *.
  pose proof ln2_pos as L.
  assert (E : x = exp (ln x / ln 2 * ln 2)).
  { replace (ln x / ln 2 * ln 2) with (ln x) by (field; lra).
    symmetry. apply exp_ln. exact Hx. }
  rewrite !pow2_exp. rewrite plus_IZR.
  assert (A1 : exp (IZR e * ln 2) <= exp (ln x / ln 2 * ln 2)).
  { destruct B1 as [B1|B1].
    - left. apply exp_increasing. apply Rmult_lt_compat_r; lra.
    - rewrite B1. lra. }
  assert (A2 : exp (ln x / ln 2 * ln 2) < exp ((IZR e + 1) * ln 2)).
  { apply exp_increasing. apply Rmult_lt_compat_r; lra. }
  rewrite <- E in A1, A2. split; assumption.
Qed.

Lemma exponent_unique (x : R) (e : Z) :
  powerRZ 2 e <= x < powerRZ 2 (e + 1) -> Double.exponent x = e.
Proof.
  intros [H1 H2]. assert (Hx : 0 < x) by (pose proof (pow2_pos e); lra).
  destruct (exponent_spec x Hx) as [S1 S2].
  assert (Double.exponent x < e + 1)%Z by (apply pow2_lt_inv; lra).
  assert (e < Double.exponent x + 1)%Z by (apply pow2_lt_inv; lra).
  lia.
Qed.

(** The nearest integer. *)

Lemma nearest_even_IZR (z : Z) : Double.nearest_even (IZR z) = z.
Proof.
  unfold Double.nearest_even. rewrite ZfloorZ.
  destruct (Rlt_dec (IZR z - IZR z) (/ 2)); [reflexivity | lra].
Qed.

Lemma nearest_even_cases (m : R) :
  Double.nearest_even m = Zfloor m \/ Double.nearest_even m = (Zfloor m + 1)%Z.
Proof.
  unfold Double.nearest_even.
  destruct (Rlt_dec _ _); [left; reflexivity|].
  destruct (Rlt_dec _ _); [right; reflexivity|].
  destruct (Z.even _); [left | right]; reflexivity.
Qed.

Lemma nearest_even_near (m : R) : Rabs (IZR (Double.nearest_even m) - m) <= / 2.
Proof.
  pose proof (Zfloor_bound m) as [B1 B2].
  unfold Double.nearest_even.
  destruct (Rlt_dec _ _) as [L|NL].
  - rewrite Rabs_left1 by lra. lra.
  - destruct (Rlt_dec _ _) as [G|NG].
    + rewrite plus_IZR. rewrite Rabs_right by lra. lra.
    + destruct (Z.even _).
      * rewrite Rabs_left1 by lra. lra.
      * rewrite plus_IZR. rewrite Rabs_right by lra. lra.
Qed.

Lemma nearest_even_mono (m m' : R) :
  m <= m' -> (Double.nearest_even m <= Double.nearest_even m')%Z.
Proof.
  intros H.
  pose proof (Zfloor_le m m' H) as F.
  destruct (Z.eq_dec (Zfloor m) (Zfloor m')) as [E|N].
  - unfold Double.nearest_even. rewrite <- E.
    destruct (Rlt_dec (m - _) _) as [L|NL];
      destruct (Rlt_dec (m' - _) _) as [L'|NL']; try lia; try lra.
    + destruct (Rlt_dec (/ 2) (m' - _)); [lia|]. destruct (Z.even _); lia.
    + destruct (Rlt_dec (/ 2) (m - _)) as [G|NG];
        destruct (Rlt_dec (/ 2) (m' - _)) as [G'|NG']; try lia; try lra.
      destruct (Z.even _); lia.
  - destruct (nearest_even_cases m) as [-> | ->];
      destruct (nearest_even_cases m') as [-> | ->]; lia.
Qed.

Lemma nearest_even_le (m : R) (z : Z) : m <= IZR z -> (Double.nearest_even m <= z)%Z.
Proof. intros H. rewrite <- (nearest_even_IZR z). apply nearest_even_mono. exact H. Qed.

Lemma nearest_even_ge (m : R) (z : Z) : IZR z <= m -> (z <= Double.nearest_even m)%Z.
Proof. intros H. rewrite <- (nearest_even_IZR z) at 1. apply nearest_even_mono. exact H. Qed.

(** Rounding a positive number. *)

Lemma scaled_range (x : R) :
  0 < x ->
  IZR (2 ^ 52) <= x * powerRZ 2 (52 - Double.exponent x) < IZR (2 ^ 53).
Proof.
  intros Hx. destruct (exponent_spec x Hx) as [S1 S2].
  set (e := Double.exponent x) in *.
  pose proof (pow2_pos (52 - e)) as P.
  rewrite <- !pow2_IZR by lia. split.
  - replace 52%Z with (e + (52 - e))%Z at 1 by lia. rewrite pow2_add.
    apply Rmult_le_compat_r; lra.
  - replace 53%Z with ((e + 1) + (52 - e))%Z at 1 by lia. rewrite pow2_add.
    apply Rmult_lt_compat_r; lra.
Qed.

Lemma round_pos_bounds (x : R) :
  0 < x ->
  powerRZ 2 (Double.exponent x) <= Double.round_pos x
  <= powerRZ 2 (Double.exponent x + 1).
Proof.
  intros Hx. destruct (scaled_range x Hx) as [S1 S2].
  unfold Double.round_pos. cbv zeta.
  set (e := Double.exponent x) in *.
  set (m := x * powerRZ 2 (52 - e)) in *.
  pose proof (nearest_even_ge m _ S1) as G.
  pose proof (nearest_even_le m (2 ^ 53) (Rlt_le _ _ S2)) as L.
  apply IZR_le in G, L.
  pose proof (pow2_pos (e - 52)) as P.
  rewrite <- !pow2_IZR in G, L by lia. split.
  - replace e with (52 + (e - 52))%Z at 1 by lia. rewrite pow2_add.
    apply Rmult_le_compat_r; lra.
  - replace (e + 1)%Z with (53 + (e - 52))%Z at 1 by lia. rewrite pow2_add.
    apply Rmult_le_compat_r; lra.
Qed.

Lemma round_pos_pos (x : R) : 0 < x -> 0 < Double.round_pos x.
Proof.
  intros Hx. pose proof (round_pos_bounds x Hx). pose proof (pow2_pos (Double.exponent x)). lra.
Qed.

Lemma exponent_mono (x y : R) : 0 < x -> x <= y -> (Double.exponent x <= Double.exponent y)%Z.
Proof.
  intros Hx H. destruct (exponent_spec x Hx) as [S1 S2].
  destruct (exponent_spec y) as [T1 T2]; [lra|].
  assert (Double.exponent x < Double.exponent y + 1)%Z by (apply pow2_lt_inv; lra).
  lia.
Qed.

Lemma round_pos_mono (x y : R) :
  0 < x -> x <= y -> Double.round_pos x <= Double.round_pos y.
Proof.
  intros Hx H.
  pose proof (exponent_mono x y Hx H) as E.
  destruct (Z.eq_dec (Double.exponent x) (Double.exponent y)) as [Eq|Ne].
  - unfold Double.round_pos. cbv zeta. rewrite Eq.
    apply Rmult_le_compat_r; [left; apply pow2_pos|].
    apply IZR_le. apply nearest_even_mono.
    apply Rmult_le_compat_r; [left; apply pow2_pos | exact H].
  - pose proof (round_pos_bounds x Hx) as [_ B].
    destruct (round_pos_bounds y) as [B' _]; [lra|].
    assert (Double.exponent x + 1 <= Double.exponent y)%Z as Hs by lia.
    pose proof (pow2_le _ _ Hs). lra.
Qed.

Lemma double_mono (x y : R) : x <= y -> Double.round x <= Double.round y.
Proof.
  intros H. unfold Double.round.
  destruct (Rlt_dec 0 x) as [Px|Nx].
  - destruct (Rlt_dec 0 y) as [Py|Ny]; [|lra]. apply round_pos_mono; assumption.
  - destruct (Rlt_dec x 0) as [Lx|Zx].
    + assert (0 < Double.round_pos (- x)) by (apply round_pos_pos; lra).
      destruct (Rlt_dec 0 y) as [Py|Ny].
      * pose proof (round_pos_pos y Py). lra.
      * destruct (Rlt_dec y 0) as [Ly|Zy]; [|lra].
        assert (Double.round_pos (- y) <= Double.round_pos (- x))
          by (apply round_pos_mono; lra).
        lra.
    + destruct (Rlt_dec 0 y) as [Py|Ny].
      * pose proof (round_pos_pos y Py). lra.
      * destruct (Rlt_dec y 0); lra.
Qed.

Lemma double_opp (x : R) : Double.round (- x) = - Double.round x.
Proof.
  unfold Double.round.
  destruct (Rlt_dec 0 x); destruct (Rlt_dec x 0); try lra;
    destruct (Rlt_dec 0 (- x)); destruct (Rlt_dec (- x) 0); try lra.
  rewrite Ropp_involutive. reflexivity.
Qed.

Lemma double_0 : Double.round 0 = 0.
Proof. unfold Double.round. destruct (Rlt_dec 0 0); [lra|]. reflexivity. Qed.

Lemma double_zero_iff (x : R) : Double.round x = 0 <-> x = 0.
Proof.
  split; [|intros ->; apply double_0].
  unfold Double.round.
  destruct (Rlt_dec 0 x) as [P|NP].
  - pose proof (round_pos_pos x P). lra.
  - destruct (Rlt_dec x 0) as [L|NL]; [|lra].
    assert (0 < Double.round_pos (- x)) by (apply round_pos_pos; lra). lra.
Qed.

(** Representable numbers: an integer of less than 2^53 in magnitude,
    scaled by a power of two. *)
Lemma round_pos_dyadic (n k : Z) :
  (0 < n < 2 ^ 53)%Z -> Double.round_pos (IZR n * powerRZ 2 k) = IZR n * powerRZ 2 k.
Proof.
  intros [H0 H1]. set (x := IZR n * powerRZ 2 k).
  assert (Hx : 0 < x).
  { apply Rmult_lt_0_compat; [apply IZR_lt; lia | apply pow2_pos]. }
  destruct (exponent_spec x Hx) as [S1 S2].
  set (e := Double.exponent x) in *.
  assert (He : (e <= 52 + k)%Z).
  { assert (x < powerRZ 2 (53 + k)).
    { replace (53 + k)%Z with (53 + k)%Z by lia. rewrite pow2_add, pow2_IZR by lia.
      unfold x. apply Rmult_lt_compat_r; [apply pow2_pos | apply IZR_lt; exact H1]. }
    assert (e < 53 + k)%Z by (apply pow2_lt_inv; lra). lia. }
  unfold Double.round_pos. cbv zeta. fold e.
  assert (Em : x * powerRZ 2 (52 - e) = IZR (n * 2 ^ (k + 52 - e))).
  { unfold x. rewrite Rmult_assoc, <- pow2_add.
    replace (k + (52 - e))%Z with (k + 52 - e)%Z by lia.
    rewrite pow2_IZR by lia. rewrite <- mult_IZR. reflexivity. }
  rewrite Em, nearest_even_IZR. rewrite mult_IZR, <- pow2_IZR by lia.
  rewrite Rmult_assoc, <- pow2_add.
  replace (k + 52 - e + (e - 52))%Z with k by lia. reflexivity.
Qed.

Lemma double_dyadic (n k : Z) :
  (Z.abs n < 2 ^ 53)%Z -> Double.round (IZR n * powerRZ 2 k) = IZR n * powerRZ 2 k.
Proof.
  intros H. pose proof (pow2_pos k) as P.
  destruct (Z.lt_trichotomy n 0) as [L|[E|G]].
  - replace (IZR n * powerRZ 2 k) with (- (IZR (- n) * powerRZ 2 k))
      by (rewrite opp_IZR; lra).
    rewrite double_opp. f_equal. unfold Double.round.
    assert (0 < IZR (- n) * powerRZ 2 k)
      by (apply Rmult_lt_0_compat; [apply IZR_lt; lia | exact P]).
    destruct (Rlt_dec _ _); [|lra]. apply round_pos_dyadic. lia.
  - subst n. rewrite Rmult_0_l. apply double_0.
  - unfold Double.round.
    assert (0 < IZR n * powerRZ 2 k)
      by (apply Rmult_lt_0_compat; [apply IZR_lt; lia | exact P]).
    destruct (Rlt_dec _ _); [|lra]. apply round_pos_dyadic. lia.
Qed.

Lemma double_IZR (n : Z) : (Z.abs n < 2 ^ 53)%Z -> Double.round (IZR n) = IZR n.
Proof.
  intros H. pose proof (double_dyadic n 0 H) as E.
  rewrite powerRZ_O, Rmult_1_r in E. exact E.
Qed.

Lemma representable_dyadic (x : R) (n k : Z) :
  (Z.abs n < 2 ^ 53)%Z -> x = IZR n * powerRZ 2 k -> Double.representable x.
Proof. intros H ->. apply double_dyadic. exact H. Qed.

Lemma representable_IZR (n : Z) : (Z.abs n < 2 ^ 53)%Z -> Double.representable (IZR n).
Proof. apply double_IZR. Qed.

Lemma double_between (a b x : R) :
  Double.round a = a -> Double.round b = b -> a <= x <= b ->
  a <= Double.round x <= b.
Proof.
  intros Ha Hb [H1 H2].
  pose proof (double_mono a x H1) as M1. pose proof (double_mono x b H2) as M2.
  rewrite Ha in M1. rewrite Hb in M2. split; assumption.
Qed.

Lemma double_nonneg (x : R) : 0 <= x -> 0 <= Double.round x.
Proof. intros H. pose proof (double_mono 0 x H) as M. rewrite double_0 in M. exact M. Qed.

Lemma double_nonpos (x : R) : x <= 0 -> Double.round x <= 0.
Proof. intros H. pose proof (double_mono x 0 H) as M. rewrite double_0 in M. exact M. Qed.

Lemma double_pos (x : R) : 0 < x -> 0 < Double.round x.
Proof.
  intros H. pose proof (double_nonneg x (Rlt_le _ _ H)) as [L|E]; [exact L|].
  symmetry in E. apply (proj1 (double_zero_iff x)) in E. lra.
Qed.

Lemma nearest_even_eq (m : R) (z : Z) :
  Rabs (m - IZR z) < / 2 -> Double.nearest_even m = z.
Proof.
  intros H. apply Rabs_def2 in H as [H1 H2].
  assert (L : (z - 1 < Double.nearest_even m)%Z).
  { destruct (nearest_even_cases m) as [E|E]; rewrite E.
    - pose proof (nearest_even_near m) as N. unfold Double.nearest_even in E.
      pose proof (Zfloor_bound m) as [B1 B2].
      apply lt_IZR. rewrite minus_IZR.
      destruct (Rlt_dec (m - IZR (Zfloor m)) (/ 2)) as [C|C]; [lra|].
      destruct (Rlt_dec (/ 2) (m - IZR (Zfloor m))) as [C'|C']; [lia|].
      lra.
    - pose proof (Zfloor_bound m) as [B1 B2]. apply lt_IZR.
      rewrite minus_IZR, plus_IZR. lra. }
  assert (U : (Double.nearest_even m < z + 1)%Z).
  { destruct (nearest_even_cases m) as [E|E]; rewrite E.
    - pose proof (Zfloor_bound m) as [B1 B2]. apply lt_IZR. rewrite plus_IZR. lra.
    - unfold Double.nearest_even in E.
      pose proof (Zfloor_bound m) as [B1 B2].
      apply lt_IZR. rewrite !plus_IZR.
      destruct (Rlt_dec (m - IZR (Zfloor m)) (/ 2)) as [C|C]; [lia|].
      lra. }
  lia.
Qed.

Lemma double_eval (x : R) (e z : Z) :
  powerRZ 2 e <= x < powerRZ 2 (e + 1) ->
  Rabs (x * powerRZ 2 (52 - e) - IZR z) < / 2 ->
  Double.round x = IZR z * powerRZ 2 (e - 52).
Proof.
  intros He Hz. assert (Hx : 0 < x) by (pose proof (pow2_pos e); lra).
  unfold Double.round. destruct (Rlt_dec 0 x); [|lra].
  unfold Double.round_pos. cbv zeta. rewrite (exponent_unique x e He).
  rewrite (nearest_even_eq _ z Hz). reflexivity.
Qed.

Lemma double_error (x : R) :
  Rabs (Double.round x - x) <= Rabs x * / IZR (2 ^ 53).
Proof.
  assert (P : forall y, 0 < y ->
              Rabs (Double.round_pos y - y) <= y * / IZR (2 ^ 53)).
  { intros y Hy. destruct (exponent_spec y Hy) as [S1 S2].
    unfold Double.round_pos. cbv zeta.
    set (e := Double.exponent y) in *.
    set (m := y * powerRZ 2 (52 - e)).
    pose proof (nearest_even_near m) as N.
    pose proof (pow2_pos (e - 52)) as P1.
    assert (Ey : y = m * powerRZ 2 (e - 52)).
    { unfold m. rewrite Rmult_assoc, <- pow2_add.
      replace (52 - e + (e - 52))%Z with 0%Z by lia. rewrite powerRZ_O. lra. }
    replace (IZR (Double.nearest_even m) * powerRZ 2 (e - 52) - y)
      with ((IZR (Double.nearest_even m) - m) * powerRZ 2 (e - 52))
      by (generalize Ey; generalize (powerRZ 2 (e - 52)); intros; nra).
    rewrite Rabs_mult, (Rabs_right (powerRZ 2 (e - 52))) by lra.
    assert (E53 : powerRZ 2 e * / IZR (2 ^ 53) = / 2 * powerRZ 2 (e - 52)).
    { rewrite <- pow2_IZR by lia.
      replace e with ((e - 52) + 52)%Z at 1 by lia. rewrite pow2_add.
      replace 53%Z with (52 + 1)%Z by lia. rewrite pow2_add.
      pose proof (pow2_pos 52). rewrite powerRZ_1. field. lra. }
    assert (0 < / IZR (2 ^ 53)).
    { apply Rinv_0_lt_compat. apply IZR_lt. reflexivity. }
    apply Rle_trans with (/ 2 * powerRZ 2 (e - 52)).
    - apply Rmult_le_compat_r; lra.
    - rewrite <- E53. apply Rmult_le_compat_r; lra. }
  unfold Double.round.
  destruct (Rlt_dec 0 x) as [Hp|Hn].
  - rewrite (Rabs_right x) by lra. apply P. exact Hp.
  - destruct (Rlt_dec x 0) as [Hl|Hz].
    + rewrite (Rabs_left x) by lra.
      replace (- Double.round_pos (- x) - x) with (- (Double.round_pos (- x) - - x))
        by ring.
      rewrite Rabs_Ropp. apply P. lra.
    + assert (x = 0) by lra. subst x. rewrite Rminus_0_r, Rabs_R0. lra.
Qed.

(** ** Rounding to an integer *)

Lemma round_IZR (z : Z) : Math.round (IZR z) = z.
Proof. unfold Math.round. apply Zfloor_eq. lra. Qed.

Lemma round_half (z : Z) : Math.round (IZR z + / 2) = (z + 1)%Z.
Proof. unfold Math.round. apply Zfloor_eq. rewrite plus_IZR. lra. Qed.

Lemma clamp_id (x : R) : 0 <= x <= 1 -> Math.max 0 (Math.min 1 x) = x.
Proof.
  intros [H0 H1]. unfold Math.max, Math.min.
  rewrite (Rmin_right 1 x) by exact H1. apply Rmax_right. exact H0.
Qed.

Example parseColor_rgb : parseColor "rgb(255, 99, 71)" = Some (mkRGB 255 99 71).
Proof. reflexivity. Qed.

Example parseColor_rgba : parseColor "rgba(1,2,3, 0.5)" = Some (mkRGB 1 2 3).
Proof. reflexivity. Qed.

Example parseColor_hex6 : parseColor "#FF8000" = Some (mkRGB 255 128 0).
Proof. reflexivity. Qed.

Example parseColor_hex3 : parseColor "#f80" = Some (mkRGB 255 136 0).
Proof. reflexivity. Qed.

Example parseColor_named : parseColor "red" = None.
Proof. reflexivity. Qed.

Example parseColor_percent : parseColor "rgb(10%, 20%, 30%)" = None.
Proof. reflexivity. Qed.

(** ** Color Mapper *)

Definition stop_le (a b : ColorStop) : Prop := stop a <= stop b.

Lemma insertStop_Forall (P : ColorStop -> Prop) x l :
  P x -> Forall P l -> Forall P (insertStop x l).
Proof.
  intros Hx Hl. induction Hl as [|y l Hy Hl IH]; simpl.
  - constructor; [exact Hx | constructor].
  - destruct (ltb (stop y) (stop x)); constructor; auto.
Qed.

Lemma insertStop_sorted x l :
  StronglySorted stop_le l -> StronglySorted stop_le (insertStop x l).
Proof.
  induction 1 as [|y l Hs IH Hy]; simpl.
  - constructor; constructor.
  - unfold ltb. destruct (Rlt_dec (stop y) (stop x)) as [Hlt|Hge].
    + constructor; [exact IH|].
      apply insertStop_Forall; [unfold stop_le; lra | exact Hy].
    + constructor; [constructor; assumption|].
      constructor; [unfold stop_le; lra|].
      eapply Forall_impl; [exact Hy|]. unfold stop_le. intros z Hz. lra.
Qed.

Lemma sortStops_sorted (colorStops : list ColorStop) :
  StronglySorted stop_le (sortStops colorStops).
Proof.
  induction colorStops as [|x l IH]; simpl.
  - constructor.
  - apply insertStop_sorted. exact IH.
Qed.

(** In a sorted sequence [l1 ++ a :: b :: l2] every stop of [l1] is at or
    below [a], and every stop of [l2] at or above [b]. *)
Lemma sorted_split l1 a b l2 :
  StronglySorted stop_le (l1 ++ a :: b :: l2) ->
  Forall (fun c => stop c <= stop a) l1 /\ Forall (fun c => stop b <= stop c) l2.
Proof.
  induction l1 as [|c l1 IH]; simpl; intros Hs.
  - split; [constructor|].
    inversion Hs as [|? ? Hs' _]; subst.
    inversion Hs' as [|? ? _ Hb]; subst. exact Hb.
  - inversion Hs as [|? ? Hs' Hc]; subst.
    destruct (IH Hs') as [H1 H2]. split; [|exact H2].
    constructor; [|exact H1].
    rewrite Forall_app in Hc. destruct Hc as [_ Hc].
    inversion Hc; subst. assumption.
Qed.

Lemma findLower_cons v a b l i :
  findLower v (a :: b :: l) i =
  if ge_num v (stop a) && le_num v (stop b) then Some i
  else findLower v (b :: l) (S i).
Proof. reflexivity. Qed.

Lemma findLower_bracket v l1 a b l2 i :
  StronglySorted stop_le (l1 ++ a :: b :: l2) ->
  stop a < v <= stop b ->
  findLower (Some v) (l1 ++ a :: b :: l2) i = Some (i + List.length l1)%nat.
Proof.
  revert i. induction l1 as [|c l1 IH]; intros i Hs Hv.
  - simpl. rewrite leb_true by lra. rewrite leb_true by lra. simpl.
    f_equal. lia.
  - destruct (sorted_split _ _ _ _ Hs) as [Hl1 _].
    assert (Hs' : StronglySorted stop_le (l1 ++ a :: b :: l2))
      by (inversion Hs; assumption).
    specialize (IH (S i) Hs' Hv).
    assert (Hnext : forall d rest, l1 ++ a :: b :: l2 = d :: rest -> stop d <= stop a).
    { intros d rest E. destruct l1 as [|e l1']; simpl in E; inversion E; subst.
      - lra.
      - inversion Hl1 as [|? ? _ Hrest]; subst. inversion Hrest; subst. assumption. }
    change ((c :: l1) ++ a :: b :: l2) with (c :: (l1 ++ a :: b :: l2)).
    destruct (l1 ++ a :: b :: l2) as [|d rest] eqn:E.
    + destruct l1; discriminate.
    + rewrite findLower_cons. cbn [ge_num le_num].
      rewrite (leb_false v (stop d)) by (specialize (Hnext d rest eq_refl); lra).
      rewrite andb_false_r. rewrite IH. f_equal. simpl. lia.
Qed.

Lemma clamp_Num (value : R) :
  0 <= value <= 1 -> reclamp01 (clamp01 (Num value)) = Some value.
Proof.
  intros H. cbn [clamp01 reclamp01]. rewrite (clamp_id value H).
  rewrite (clamp_id value H). reflexivity.
Qed.

Lemma last_app_cons {A : Type} (l1 : list A) (x d d' : A) (l2 : list A) :
  List.last (l1 ++ x :: l2) d = List.last (x :: l2) d'.
Proof.
  induction l1 as [|y l1 IH].
  - cbn [app]. revert x. induction l2 as [|z l2 IH2]; intros x; [reflexivity|].
    change (List.last (x :: z :: l2) d) with (List.last (z :: l2) d).
    change (List.last (x :: z :: l2) d') with (List.last (z :: l2) d').
    apply IH2.
  - cbn [app]. destruct (l1 ++ x :: l2) eqn:E.
    + destruct l1; discriminate.
    + exact IH.
Qed.

(** What [getColorValue] computes for a value of [0,1] that lies in
    [(a.stop, b.stop]] for two neighbours [sa], [sb] of the sorted stops and
    below the last stop: the interpolated colour when both colours parse,
    the colour string of [sa] otherwise. *)
Lemma getColorValue_bracket colorStops l1 sa sb l2 value :
  sortStops colorStops = l1 ++ sa :: sb :: l2 ->
  0 <= value <= 1 ->
  stop sa < value <= stop sb ->
  value < stop (List.last (sb :: l2) sb) ->
  getColorValue (Num value) colorStops =
  match parseColor (color sa), parseColor (color sb) with
  | Some lowerColor, Some upperColor =>
      let t := Some (Double.div (Double.sub value (stop sa))
                                (Double.sub (stop sb) (stop sa))) in
      template (channel t (r lowerColor) (r upperColor))
               (channel t (g lowerColor) (g upperColor))
               (channel t (b lowerColor) (b upperColor))
  | _, _ => color sa
  end.
Proof.
  intros Hsort H01 Hv Hlast.
  pose proof (sortStops_sorted colorStops) as Hs. rewrite Hsort in Hs.
  pose proof (findLower_bracket value l1 sa sb l2 0 Hs Hv) as Hfind.
  destruct (sorted_split _ _ _ _ Hs) as [Hl1 _].
  assert (Hna : nth (List.length l1) (l1 ++ sa :: sb :: l2) defaultStop = sa).
  { rewrite app_nth2 by lia. rewrite Nat.sub_diag. reflexivity. }
  assert (Hnb : nth (List.length l1 + 1) (l1 ++ sa :: sb :: l2) defaultStop = sb).
  { rewrite app_nth2 by lia.
    replace (List.length l1 + 1 - List.length l1)%nat with 1%nat by lia.
    reflexivity. }
  assert (Hshape : exists first second rest,
             l1 ++ sa :: sb :: l2 = first :: second :: rest /\ stop first <= stop sa).
  { destruct l1 as [|c [|e l1']].
    - exists sa, sb, l2. split; [reflexivity | lra].
    - exists c, sa, (sb :: l2). split; [reflexivity|]. inversion Hl1; assumption.
    - exists c, e, (l1' ++ sa :: sb :: l2). split; [reflexivity|].
      inversion Hl1; assumption. }
  destruct Hshape as (first & second & rest & Hshape & Hfirst).
  assert (Hl : List.last (l1 ++ sa :: sb :: l2) first = List.last (sb :: l2) sb).
  { change (l1 ++ sa :: sb :: l2) with (l1 ++ [sa] ++ sb :: l2).
    rewrite app_assoc. apply last_app_cons. }
  rewrite Hshape in Hfind, Hna, Hnb, Hl. rewrite Nat.add_0_l in Hfind.
  unfold getColorValue. rewrite Hsort, (clamp_Num value H01), Hshape.
  cbv iota beta zeta. rewrite Hfind, Hl, Hna, Hnb.
  cbn [le_num ge_num].
  rewrite (leb_false value (stop first)) by lra.
  rewrite (leb_false (stop (List.last (sb :: l2) sb)) value) by lra.
  rewrite neqb_true
    by (unfold Double.sub; intros E; apply (proj1 (double_zero_iff _)) in E; lra).
  destruct (parseColor (color sa)), (parseColor (color sb)); reflexivity.
Qed.

Lemma round_eq (x : R) (z : Z) :
  IZR z <= x + / 2 < IZR z + 1 -> Math.round x = z.
Proof. intros H. unfold Math.round. apply Zfloor_eq. exact H. Qed.

Lemma last_ge (sb : ColorStop) (l2 : list ColorStop) :
  Forall (fun c => stop sb <= stop c) l2 ->
  stop sb <= stop (List.last (sb :: l2) sb).
Proof.
  intros H. destruct (exists_last (l := sb :: l2)) as (l' & z & E); [discriminate|].
  rewrite E, last_last.
  destruct l' as [|y l'].
  - inversion E; subst. lra.
  - inversion E as [[E1 E2]]. subst y.
    rewrite List.Forall_forall in H. apply H. rewrite E2.
    apply in_or_app. right. left. reflexivity.
Qed.

Lemma sortStops_pair (x y : R) (c d : string) :
  x <= y -> sortStops [mkStop x c; mkStop y d] = [mkStop x c; mkStop y d].
Proof.
  intros H. unfold sortStops. cbn [fold_right insertStop stop].
  rewrite ltb_false by exact H. reflexivity.
Qed.

(** C3, as the code has it.  For a value of [0,1] strictly between the
    first and the last stop position, with [sa], [sb] the bracketing pair
    the search loop selects (neighbours of the sorted stops with
    [sa.stop < value <= sb.stop]), when the colour of [sa] or of [sb] does
    not parse, [getColorValue] returns the literal colour string of the
    lower bracketing stop [sa], whichever stop is nearer. *)
Theorem getColorValue_fallback_lower colorStops l1 sa sb l2 value :
  sortStops colorStops = l1 ++ sa :: sb :: l2 ->
  0 <= value <= 1 ->
  stop sa < value <= stop sb ->
  value < stop (List.last (sortStops colorStops) sb) ->
  parseColor (color sa) = None \/ parseColor (color sb) = None ->
  getColorValue (Num value) colorStops = color sa.
Proof.
  intros Hsort H01 Hv Hlast Hparse.
  rewrite Hsort in Hlast.
  change (l1 ++ sa :: sb :: l2) with (l1 ++ [sa] ++ sb :: l2) in Hlast.
  rewrite app_assoc, (last_app_cons _ sb sb sb l2) in Hlast.
  rewrite (getColorValue_bracket colorStops l1 sa sb l2 value Hsort H01 Hv Hlast).
  destruct Hparse as [E|E]; rewrite E.
  - reflexivity.
  - destruct (parseColor (color sa)); reflexivity.
Qed.

Lemma getColorValue_fallback_lower_witness :
  getColorValue (Num (3 / 4)) [mkStop 0 "red"; mkStop 1 "blue"] = "red"%string.
Proof.
  apply (getColorValue_fallback_lower
           [mkStop 0 "red"; mkStop 1 "blue"]
           [] (mkStop 0 "red") (mkStop 1 "blue") [] (3 / 4)).
  - apply sortStops_pair. lra.
  - lra.
  - cbn [stop]. lra.
  - rewrite sortStops_pair by lra. cbn [List.last stop]. lra.
  - left. reflexivity.
Defined.

(** C3 as stated fails: with the stops [{0, "red"}], [{1, "blue"}],
    neither of which parses, and the value 0.75, the nearer bracketing
    stop is the upper one, ["blue"], and [getColorValue] returns
    ["red"]. *)
Lemma getColorValue_fallback_not_nearer :
  let sa := mkStop 0 "red" in
  let sb := mkStop 1 "blue" in
  sortStops [sa; sb] = [sa; sb]
  /\ stop sa < 3 / 4 < stop sb
  /\ parseColor (color sa) = None
  /\ color (nearerStop (3 / 4) sa sb) = "blue"%string
  /\ getColorValue (Num (3 / 4)) [sa; sb] = "red"%string
  /\ getColorValue (Num (3 / 4)) [sa; sb] <> color (nearerStop (3 / 4) sa sb).
Proof.
  cbv zeta.
  assert (Hnear : nearerStop (3 / 4) (mkStop 0 "red") (mkStop 1 "blue")
                  = mkStop 1 "blue").
  { unfold nearerStop. cbn [stop].
    rewrite leb_false; [reflexivity|].
    rewrite (Rabs_pos_eq (1 - 3 / 4)) by lra.
    rewrite (Rabs_pos_eq (3 / 4 - 0)) by lra. lra. }
  assert (Hget : getColorValue (Num (3 / 4)) [mkStop 0 "red"; mkStop 1 "blue"]
                 = "red"%string)
    by (rewrite (getColorValue_bracket _ [] (mkStop 0 "red")
                   (mkStop 1 "blue") [] (3 / 4));
        [ reflexivity | apply sortStops_pair; lra | lra | cbn [stop]; lra
        | cbn [List.last stop]; lra ]).
  repeat split.
  - apply sortStops_pair. lra.
  - cbn [stop]. lra.
  - cbn [stop]. lra.
  - rewrite Hnear. reflexivity.
  - exact Hget.
  - rewrite Hget, Hnear. cbn [color]. discriminate.
Qed.

(** ** Tile Manager *)

Section TileProperties.

Variable channelData : list (list R).
Variable options : WaveSurferOptions.
Variables width height pixelRatio clientWidth : R.

Local Abbreviation T := (totalWidth width pixelRatio).
Local Abbreviation W := (singleCanvasWidth options width pixelRatio clientWidth).
Local Abbreviation n := (numCanvases options width pixelRatio clientWidth).
Local Abbreviation offset := (tileOffset options width pixelRatio clientWidth).
Local Abbreviation cw := (clampedWidth options width pixelRatio clientWidth).
Local Abbreviation draw' := (draw channelData options width height pixelRatio clientWidth).
Local Abbreviation canvas := (tileCanvas channelData options width height pixelRatio clientWidth).

Hypothesis T_pos : 0 < T.
Hypothesis W_pos : 0 < W.

Lemma numCanvases_bounds : (IZR n - 1) * W < T <= IZR n * W.
Proof.
  pose proof (Zceil_bound (T / W)) as [H1 H2].
  fold (Math.ceil (T / W)) in H1, H2.
  change (Math.ceil (T / W)) with n in H1, H2.
  assert (E : T / W * W = T) by (field; lra).
  remember (T / W) as q eqn:Eq. clear Eq.
  split; nra.
Qed.

Lemma numCanvases_pos : (1 <= n)%Z.
Proof.
  pose proof numCanvases_bounds as [_ H].
  assert (0 < IZR n) by nra.
  apply lt_IZR in H0. lia.
Qed.

Lemma offset_below (i : Z) : (i < n)%Z -> offset i < T.
Proof.
  intros Hi. unfold tileOffset.
  pose proof numCanvases_bounds as [H _].
  assert (IZR i <= IZR n - 1).
  { rewrite <- minus_IZR. apply IZR_le. lia. }
  nra.
Qed.

Lemma clampedWidth_pos (i : Z) : (i < n)%Z -> 0 < cw i.
Proof.
  intros Hi. pose proof (offset_below i Hi).
  unfold clampedWidth, Math.min. apply Rmin_glb_lt; lra.
Qed.

Lemma tile_end (i : Z) : offset i + cw i = Rmin (IZR (i + 1) * W) T.
Proof.
  unfold clampedWidth, tileOffset, Math.min. rewrite plus_IZR.
  unfold Rmin.
  destruct (Rle_dec (T - IZR i * W) W), (Rle_dec ((IZR i + 1) * W) T); lra.
Qed.

Lemma tile_inside (i : Z) (x : R) :
  (0 <= i < n)%Z -> offset i <= x < offset i + cw i -> 0 <= x < T.
Proof.
  intros [Hi _] [H1 H2]. rewrite tile_end in H2.
  pose proof (Rmin_r (IZR (i + 1) * W) T).
  assert (0 <= IZR i) by (apply IZR_le; lia).
  unfold tileOffset in H1. split; [nra | lra].
Qed.

Lemma tile_of_pixel (i : Z) (x : R) :
  offset i <= x < offset i + cw i -> i = Zfloor (x / W).
Proof.
  intros [H1 H2]. rewrite tile_end in H2.
  pose proof (Rmin_l (IZR (i + 1) * W) T).
  unfold tileOffset in H1. rewrite plus_IZR in *.
  symmetry. apply Zfloor_eq.
  assert (E : x / W * W = x) by (field; lra).
  remember (x / W) as q eqn:Eq. clear Eq.
  split; nra.
Qed.

Lemma pixel_in_tile (x : R) :
  0 <= x < T ->
  let i := Zfloor (x / W) in
  (0 <= i < n)%Z /\ offset i <= x < offset i + cw i.
Proof.
  intros [H0 HT] i.
  pose proof (Zfloor_bound (x / W)) as [F1 F2]. fold i in F1, F2.
  assert (E : x / W * W = x) by (field; lra).
  assert (Hi0 : (0 <= i)%Z).
  { apply Zfloor_lub. apply Rmult_le_reg_r with W; [lra|].
    rewrite E. lra. }
  clearbody i. remember (x / W) as q eqn:Eq. clear Eq.
  assert (L : IZR i * W <= x) by nra.
  assert (U : x < (IZR i + 1) * W) by nra.
  pose proof numCanvases_bounds as [_ Hn].
  assert (Hin : (i < n)%Z).
  { apply lt_IZR. apply Rmult_lt_reg_r with W; [lra|]. lra. }
  split; [lia|]. rewrite tile_end, plus_IZR. unfold tileOffset.
  split; [exact L|]. apply Rmin_glb_lt; lra.
Qed.

(** *** [draw] *)

Lemma draw_fresh (i : Z) (st : Tiles) :
  (0 <= i < n)%Z -> drawnIndexes st !! i = None ->
  draw' i st =
  renderSingleCanvas (tileData channelData options width pixelRatio clientWidth i)
                     pixelRatio (cw i) height (offset i)
                     (mkTiles (<[i := true]> (drawnIndexes st))
                              (canvasContainer st) (progressContainer st)).
Proof.
  intros [H0 Hn] Hnone. unfold draw.
  replace (i <? 0)%Z with false by (symmetry; apply Z.ltb_ge; lia).
  replace (n <=? i)%Z with false by (symmetry; apply Z.leb_gt; lia).
  cbn [orb]. rewrite Hnone.
  rewrite leb_false by (apply clampedWidth_pos; lia). reflexivity.
Qed.

Lemma renderSingleCanvas_canvases data w h o st :
  canvasContainer (renderSingleCanvas data pixelRatio w h o st)
  = canvasContainer st
      ++ [mkCanvas (Math.round (w * pixelRatio)) (Math.round (h * pixelRatio))
                   w h (Math.round o) data].
Proof.
  unfold renderSingleCanvas. cbn [cv_width cv_height canvasContainer].
  destruct (_ && _); reflexivity.
Qed.

Lemma renderSingleCanvas_drawn data w h o st :
  drawnIndexes (renderSingleCanvas data pixelRatio w h o st) = drawnIndexes st.
Proof.
  unfold renderSingleCanvas. cbn [cv_width cv_height drawnIndexes].
  destruct (_ && _); reflexivity.
Qed.

Lemma draw_fresh_canvases (i : Z) (st : Tiles) :
  (0 <= i < n)%Z -> drawnIndexes st !! i = None ->
  canvasContainer (draw' i st) = canvasContainer st ++ [canvas i]
  /\ drawnIndexes (draw' i st) = <[i := true]> (drawnIndexes st).
Proof.
  intros Hi Hnone. rewrite (draw_fresh i st Hi Hnone).
  rewrite renderSingleCanvas_canvases, renderSingleCanvas_drawn.
  split; reflexivity.
Qed.

Lemma draw_keeps_canvases (i : Z) (st : Tiles) :
  exists extra, canvasContainer (draw' i st) = canvasContainer st ++ extra.
Proof.
  unfold draw.
  destruct (_ || _); [exists []; rewrite app_nil_r; reflexivity|].
  destruct (drawnIndexes st !! i) as [[|]|];
    try (exists []; rewrite app_nil_r; reflexivity);
    (destruct (leb _ _);
     [ exists []; rewrite app_nil_r; reflexivity
     | rewrite renderSingleCanvas_canvases; eexists; reflexivity ]).
Qed.

(** The loop of the path that does not scroll: after [draw(0)], ...,
    [draw(k - 1)] the container holds the canvases of the tiles
    [0 .. k - 1], in this order, and nothing else is tracked. *)
Lemma draw_loop (k : nat) :
  (Z.of_nat k <= n)%Z ->
  let st := fold_left (fun st i => draw' (Z.of_nat i) st) (seq 0 k) noTiles in
  canvasContainer st = map (fun i => canvas (Z.of_nat i)) (seq 0 k)
  /\ (forall j, (Z.of_nat k <= j)%Z -> drawnIndexes st !! j = None).
Proof.
  induction k as [|k IH]; intros Hk st.
  - split; [reflexivity|]. intros j _. apply lookup_empty.
  - subst st. rewrite seq_S, fold_left_app, map_app. cbn [fold_left map Nat.add].
    destruct IH as [IHc IHd]; [lia|].
    destruct (draw_fresh_canvases (Z.of_nat k)
                (fold_left (fun st i => draw' (Z.of_nat i) st) (seq 0 k) noTiles))
      as [Hc Hd]; [lia | apply IHd; lia |].
    rewrite Hc, Hd, IHc. split; [reflexivity|].
    intros j Hj. rewrite lookup_insert_ne by lia. apply IHd. lia.
Qed.

Lemma drawAround_keeps_canvases (c : Z) (st : Tiles) :
  exists extra,
    canvasContainer
      (drawAround channelData options width height pixelRatio clientWidth c st)
    = canvasContainer st ++ extra.
Proof.
  unfold drawAround.
  destruct (draw_keeps_canvases (c - 1) st) as [e1 H1].
  destruct (draw_keeps_canvases c (draw' (c - 1) st)) as [e2 H2].
  destruct (draw_keeps_canvases (c + 1) (draw' c (draw' (c - 1) st))) as [e3 H3].
  exists (e1 ++ e2 ++ e3). rewrite H3, H2, H1, <- !app_assoc. reflexivity.
Qed.

End TileProperties.

(** The total width, when the exact quotient is a whole number of
    pixels below 2^53: the division is exact. *)
Lemma totalWidth_exact (width pixelRatio : R) (w : Z) :
  (Z.abs w < 2 ^ 53)%Z -> width / pixelRatio = IZR w ->
  totalWidth width pixelRatio = IZR w.
Proof.
  intros H E. unfold totalWidth, Double.div. rewrite E. apply double_IZR. exact H.
Qed.

Lemma totalWidth_one (w : Z) :
  (Z.abs w < 2 ^ 53)%Z -> totalWidth (IZR w) 1 = IZR w.
Proof. intros H. apply totalWidth_exact; [exact H | lra]. Qed.

Lemma cappedWidth_nonzero options width pixelRatio clientWidth :
  0 < singleCanvasWidth options width pixelRatio clientWidth ->
  neqb (cappedWidth width pixelRatio clientWidth) 0 = true.
Proof.
  intros HW. apply neqb_true. intros E. unfold singleCanvasWidth in HW.
  rewrite E in HW.
  destruct (_ || _); [|lra].
  destruct (neqb _ _); [|lra].
  unfold Rdiv in HW. rewrite Rmult_0_l in HW.
  unfold Math.floor in HW. rewrite (ZfloorZ 0) in HW. lra.
Qed.

Lemma singleCanvasWidth_no_bars options width pixelRatio clientWidth :
  truthy (barWidth options) = false -> truthy (barGap options) = false ->
  singleCanvasWidth options width pixelRatio clientWidth
  = cappedWidth width pixelRatio clientWidth.
Proof. intros H1 H2. unfold singleCanvasWidth. rewrite H1, H2. reflexivity. Qed.

(** The offsets and widths [draw] hands to [renderSingleCanvas].  For a
    positive total width and a positive width of tile [W], the tile [i]
    of [0 .. ceil(totalWidth / W) - 1] has a positive width and spans
    [[i * W, min((i + 1) * W, totalWidth))]; every position of
    [[0, totalWidth)] lies in one of these spans and in one only, no
    span reaches outside, and when the waveform does not scroll the
    canvases created are those of the tiles
    [0 .. ceil(totalWidth / W) - 1], in order.  With a total width of
    20000, a viewport of at least 8000 and no bar option, [W] is 8000 and
    three canvases are created, spanning [[0, 8000)], [[8000, 16000)] and
    [[16000, 20000)].  The canvas itself is placed at the offset rounded
    to a whole pixel: see [tiles_misplaced_with_bars]. *)
Lemma tile_spans_partition :
  (forall channelData options width height pixelRatio clientWidth scrollLeft,
      let T := totalWidth width pixelRatio in
      let W := singleCanvasWidth options width pixelRatio clientWidth in
      let n := numCanvases options width pixelRatio clientWidth in
      let offset := tileOffset options width pixelRatio clientWidth in
      let cw := clampedWidth options width pixelRatio clientWidth in
      0 < T -> 0 < W ->
      n = Math.ceil (T / W)
      /\ (forall i, (0 <= i < n)%Z ->
                    0 < cw i /\ offset i = IZR i * W
                    /\ offset i + cw i = Rmin (IZR (i + 1) * W) T)
      /\ (forall x, 0 <= x < T ->
                    exists i, (0 <= i < n)%Z /\ offset i <= x < offset i + cw i)
      /\ (forall i j x, offset i <= x < offset i + cw i ->
                        offset j <= x < offset j + cw j -> i = j)
      /\ (forall i x, (0 <= i < n)%Z -> offset i <= x < offset i + cw i ->
                      0 <= x < T)
      /\ canvasContainer
           (fst (renderMultiCanvas channelData options width height pixelRatio
                                   clientWidth false scrollLeft))
         = map (fun i => tileCanvas channelData options width height pixelRatio
                                    clientWidth (Z.of_nat i))
               (seq 0 (Z.to_nat n)))
  /\ (forall channelData options height pixelRatio clientWidth scrollLeft,
         truthy (barWidth options) = false ->
         truthy (barGap options) = false ->
         0 < pixelRatio -> 8000 <= clientWidth ->
         let width := 20000 * pixelRatio in
         let offset := tileOffset options width pixelRatio clientWidth in
         let cw := clampedWidth options width pixelRatio clientWidth in
         totalWidth width pixelRatio = 20000
         /\ singleCanvasWidth options width pixelRatio clientWidth = 8000
         /\ numCanvases options width pixelRatio clientWidth = 3%Z
         /\ map (fun i => (offset i, offset i + cw i)) [0%Z; 1%Z; 2%Z]
            = [(0, 8000); (8000, 16000); (16000, 20000)]
         /\ map (fun c => (style_left c, style_width c))
                (canvasContainer
                   (fst (renderMultiCanvas channelData options width height
                                           pixelRatio clientWidth false scrollLeft)))
            = [(0%Z, 8000); (8000%Z, 8000); (16000%Z, 4000)]).
Proof.
  assert (General :
    forall channelData options width height pixelRatio clientWidth scrollLeft,
      let T := totalWidth width pixelRatio in
      let W := singleCanvasWidth options width pixelRatio clientWidth in
      let n := numCanvases options width pixelRatio clientWidth in
      let offset := tileOffset options width pixelRatio clientWidth in
      let cw := clampedWidth options width pixelRatio clientWidth in
      0 < T -> 0 < W ->
      n = Math.ceil (T / W)
      /\ (forall i, (0 <= i < n)%Z ->
                    0 < cw i /\ offset i = IZR i * W
                    /\ offset i + cw i = Rmin (IZR (i + 1) * W) T)
      /\ (forall x, 0 <= x < T ->
                    exists i, (0 <= i < n)%Z /\ offset i <= x < offset i + cw i)
      /\ (forall i j x, offset i <= x < offset i + cw i ->
                        offset j <= x < offset j + cw j -> i = j)
      /\ (forall i x, (0 <= i < n)%Z -> offset i <= x < offset i + cw i ->
                      0 <= x < T)
      /\ canvasContainer
           (fst (renderMultiCanvas channelData options width height pixelRatio
                                   clientWidth false scrollLeft))
         = map (fun i => tileCanvas channelData options width height pixelRatio
                                    clientWidth (Z.of_nat i))
               (seq 0 (Z.to_nat n))).
  { intros channelData options width height pixelRatio clientWidth scrollLeft
           T W n offset cw HT HW.
    split; [reflexivity|].
    split.
    { intros i [Hi0 Hin]. split; [apply clampedWidth_pos; assumption|].
      split; [reflexivity | apply tile_end]. }
    split.
    { intros x Hx. exists (Zfloor (x / W)).
      apply (pixel_in_tile options width pixelRatio clientWidth HW x Hx). }
    split.
    { intros i j x Hi Hj.
      rewrite (tile_of_pixel options width pixelRatio clientWidth HW i x Hi).
      rewrite (tile_of_pixel options width pixelRatio clientWidth HW j x Hj).
      reflexivity. }
    split.
    { intros i x Hi Hx.
      apply (tile_inside options width pixelRatio clientWidth HW i x Hi Hx). }
    unfold renderMultiCanvas.
    rewrite (cappedWidth_nonzero options width pixelRatio clientWidth HW).
    cbn [negb fst].
    apply (draw_loop channelData options width height pixelRatio clientWidth
                     HW (Z.to_nat n)).
    pose proof (numCanvases_pos options width pixelRatio clientWidth HT HW).
    fold n in H. lia. }
  split; [exact General|].
  intros channelData options height pixelRatio clientWidth scrollLeft
         Hbw Hbg Hpr Hcw width offset cw.
  assert (ET : totalWidth width pixelRatio = 20000).
  { apply totalWidth_exact; [reflexivity|]. unfold width. field. lra. }
  assert (EW : singleCanvasWidth options width pixelRatio clientWidth = 8000).
  { rewrite singleCanvasWidth_no_bars by assumption.
    unfold cappedWidth. rewrite ET. unfold Math.min, MAX_CANVAS_WIDTH.
    rewrite (Rmin_left 8000 clientWidth) by lra. apply Rmin_left. lra. }
  assert (En : numCanvases options width pixelRatio clientWidth = 3%Z).
  { unfold numCanvases. rewrite ET, EW. unfold Math.ceil.
    apply Zceil_eq. lra. }
  assert (Eo : forall i, offset i = IZR i * 8000).
  { intros i. unfold offset, tileOffset. rewrite EW. reflexivity. }
  assert (Ec : forall i, cw i = Rmin (20000 - IZR i * 8000) 8000).
  { intros i. unfold cw, clampedWidth, Math.min. fold (offset i).
    rewrite Eo, ET, EW. reflexivity. }
  split; [exact ET|]. split; [exact EW|]. split; [exact En|].
  split.
  { cbn [map]. rewrite !Eo, !Ec.
    rewrite (Rmin_right (20000 - 0 * 8000) 8000) by lra.
    rewrite (Rmin_right (20000 - 1 * 8000) 8000) by lra.
    rewrite (Rmin_left (20000 - 2 * 8000) 8000) by lra.
    repeat (f_equal; try lra). }
  destruct (General channelData options width height pixelRatio clientWidth
                    scrollLeft) as (_ & _ & _ & _ & _ & Hc); [lra | lra |].
  rewrite Hc, En. change (Z.to_nat 3) with 3%nat.
  cbn [seq map tileCanvas style_left style_width]. fold offset cw.
  change (Z.of_nat 0) with 0%Z. change (Z.of_nat 1) with 1%Z.
  change (Z.of_nat 2) with 2%Z.
  rewrite !Eo, !Ec.
  rewrite (Rmin_right (20000 - 0 * 8000) 8000) by lra.
  rewrite (Rmin_right (20000 - 1 * 8000) 8000) by lra.
  rewrite (Rmin_left (20000 - 2 * 8000) 8000) by lra.
  rewrite (round_eq (0 * 8000) 0) by lra.
  rewrite (round_eq (1 * 8000) 8000) by lra.
  rewrite (round_eq (2 * 8000) 16000) by lra.
  repeat (f_equal; try lra).
Qed.

Lemma plain_widths (total : Z) :
  (8000 <= total < 2 ^ 53)%Z ->
  totalWidth (IZR total) 1 = IZR total
  /\ singleCanvasWidth plainOptions (IZR total) 1 8000 = 8000.
Proof.
  intros H.
  assert (ET : totalWidth (IZR total) 1 = IZR total) by (apply totalWidth_one; lia).
  split; [exact ET|].
  rewrite singleCanvasWidth_no_bars by reflexivity.
  unfold cappedWidth. rewrite ET. unfold Math.min, MAX_CANVAS_WIDTH.
  rewrite (Rmin_left 8000 8000) by lra. apply Rmin_left.
  apply IZR_le. lia.
Qed.

Lemma tile_spans_partition_witness :
  0 < totalWidth 20000 1
  /\ 0 < singleCanvasWidth plainOptions 20000 1 8000
  /\ numCanvases plainOptions 20000 1 8000
     = Math.ceil (totalWidth 20000 1 / singleCanvasWidth plainOptions 20000 1 8000).
Proof.
  destruct (plain_widths 20000) as [ET EW]; [lia|].
  split; [lra|]. split; [lra|].
  apply (proj1 tile_spans_partition [] plainOptions 20000 128 1 8000 0); lra.
Defined.

(** C2 fails on the code.  With [barWidth: 3] (and so a bar gap of 1.5)
    the width of a tile is adjusted to whole bars, 1777 * 4.5 = 7996.5
    pixels, and each canvas is placed at the rounded offset.  For a
    waveform of 20000 pixels that fills its parent, on one channel of
    eight samples, three canvases are created, of the widths 7996.5,
    7996.5 and 4007 at the positions 0, 7997 and 15993: the position
    7996.75 of the waveform lies on no canvas, and the position 15993.25
    on two. *)
Theorem tiles_misplaced_with_bars :
  let options := mkOptions false None None None (Some 3) None None None in
  let channelData := [[0; 1 / 2; 1; 1 / 2; 0; - (1 / 2); -1; - (1 / 2)]] in
  let canvases :=
    canvasContainer
      (fst (renderMultiCanvas channelData options 20000 128 1 20000 false 0)) in
  let covers (canvas : Canvas) (x : R) :=
    IZR (style_left canvas) <= x < IZR (style_left canvas) + style_width canvas in
  totalWidth 20000 1 = 20000
  /\ singleCanvasWidth options 20000 1 20000 = 15993 / 2
  /\ numCanvases options 20000 1 20000 = 3%Z
  /\ map (fun c => (style_left c, style_width c)) canvases
     = [(0%Z, 15993 / 2); (7997%Z, 15993 / 2); (15993%Z, 4007)]
  /\ 0 <= 7996 + 3 / 4 < 20000
  /\ Forall (fun canvas => ~ covers canvas (7996 + 3 / 4)) canvases
  /\ (exists first second third,
        canvases = [first; second; third]
        /\ covers second (15993 + 1 / 4) /\ covers third (15993 + 1 / 4)).
Proof.
  intros options channelData canvases covers.
  assert (ET : totalWidth 20000 1 = 20000) by (apply totalWidth_one; reflexivity).
  assert (EC : cappedWidth 20000 1 20000 = 8000).
  { unfold cappedWidth. rewrite ET. unfold Math.min, MAX_CANVAS_WIDTH.
    rewrite (Rmin_left 8000 20000) by lra. apply Rmin_left. lra. }
  assert (EF : Zfloor (8000 / (3 + 3 / 2)) = 1777%Z) by (apply Zfloor_eq; lra).
  assert (EW : singleCanvasWidth options 20000 1 20000 = 15993 / 2).
  { unfold singleCanvasWidth. cbn [barWidth barGap options truthy or_else].
    rewrite !neqb_true by lra. cbn [orb]. rewrite EC.
    assert (Er : rem 8000 (3 + 3 / 2) = 7 / 2).
    { unfold rem. destruct (Rle_dec 0 (8000 / (3 + 3 / 2))) as [_|N]; [|lra].
      rewrite EF. lra. }
    rewrite Er, neqb_true by lra. unfold Math.floor. rewrite EF. lra. }
  assert (HW : 0 < singleCanvasWidth options 20000 1 20000) by (rewrite EW; lra).
  assert (En : numCanvases options 20000 1 20000 = 3%Z).
  { unfold numCanvases. rewrite ET, EW. apply Zceil_eq. lra. }
  assert (Hc : canvases
               = map (fun i => tileCanvas channelData options 20000 128 1 20000
                                          (Z.of_nat i))
                     (seq 0 3)).
  { unfold canvases, renderMultiCanvas.
    rewrite (cappedWidth_nonzero options 20000 1 20000 HW). cbn [negb fst].
    rewrite En. change (Z.to_nat 3) with 3%nat.
    apply (draw_loop channelData options 20000 128 1 20000 HW 3).
    rewrite En. lia. }
  assert (Eo : forall i, tileOffset options 20000 1 20000 i = IZR i * (15993 / 2)).
  { intros i. unfold tileOffset. rewrite EW. reflexivity. }
  assert (Ew : forall i, clampedWidth options 20000 1 20000 i
                         = Rmin (20000 - IZR i * (15993 / 2)) (15993 / 2)).
  { intros i. unfold clampedWidth, Math.min. rewrite Eo, ET, EW. reflexivity. }
  assert (Hl : map (fun c => (style_left c, style_width c)) canvases
               = [(0%Z, 15993 / 2); (7997%Z, 15993 / 2); (15993%Z, 4007)]).
  { rewrite Hc. cbn [seq map tileCanvas style_left style_width].
    change (Z.of_nat 0) with 0%Z. change (Z.of_nat 1) with 1%Z.
    change (Z.of_nat 2) with 2%Z.
    rewrite !Eo, !Ew.
    rewrite (Rmin_right (20000 - 0 * (15993 / 2)) (15993 / 2)) by lra.
    rewrite (Rmin_right (20000 - 1 * (15993 / 2)) (15993 / 2)) by lra.
    rewrite (Rmin_left (20000 - 2 * (15993 / 2)) (15993 / 2)) by lra.
    rewrite (round_eq (0 * (15993 / 2)) 0) by lra.
    rewrite (round_eq (1 * (15993 / 2)) 7997) by lra.
    rewrite (round_eq (2 * (15993 / 2)) 15993) by lra.
    repeat (f_equal; try lra). }
  split; [exact ET|]. split; [exact EW|]. split; [exact En|]. split; [exact Hl|].
  split; [lra|].
  destruct canvases as [|c0 [|c1 [|c2 [|c3 rest]]]]; try discriminate Hl.
  cbn [map] in Hl.
  injection Hl as L0 W0 L1 W1 L2 W2.
  split.
  - repeat constructor; unfold covers; intros [A B].
    + rewrite L0, W0 in B. lra.
    + rewrite L1 in A. lra.
    + rewrite L2 in A. lra.
  - exists c0, c1, c2. split; [reflexivity|]. unfold covers.
    rewrite L1, W1, L2, W2. split; lra.
Qed.

(** ** Scrolling *)

Lemma clearCanvases_keep st :
  (size (drawnIndexes st) <= MAX_NODES)%nat -> clearCanvases st = st.
Proof.
  intros H. unfold clearCanvases.
  replace (MAX_NODES <? size (drawnIndexes st))%nat with false; [reflexivity|].
  symmetry. apply Nat.ltb_ge. exact H.
Qed.

Lemma clearCanvases_reset st :
  (MAX_NODES < size (drawnIndexes st))%nat -> clearCanvases st = noTiles.
Proof.
  intros H. unfold clearCanvases.
  replace (MAX_NODES <? size (drawnIndexes st))%nat with true; [reflexivity|].
  symmetry. apply Nat.ltb_lt. exact H.
Qed.

(** ** Spectral Analyzer *)

Lemma segmentValues_length feature default length numberOfSegments :
  List.length (segmentValues feature default length numberOfSegments)
  = numberOfSegments.
Proof. unfold segmentValues. rewrite length_map, length_seq. reflexivity. Qed.

Lemma min_list_le (x : R) (xs : list R) :
  Math.min_list x xs <= x /\ Forall (fun y => Math.min_list x xs <= y) xs.
Proof.
  unfold Math.min_list. revert x. induction xs as [|y ys IH]; intros x.
  - split; [apply Rle_refl | constructor].
  - cbn [fold_left]. destruct (IH (Rmin x y)) as [H1 H2].
    pose proof (Rmin_l x y). pose proof (Rmin_r x y).
    split; [lra|]. constructor; [lra | exact H2].
Qed.

Lemma max_list_ge (x : R) (xs : list R) :
  x <= Math.max_list x xs /\ Forall (fun y => y <= Math.max_list x xs) xs.
Proof.
  unfold Math.max_list. revert x. induction xs as [|y ys IH]; intros x.
  - split; [apply Rle_refl | constructor].
  - cbn [fold_left]. destruct (IH (Rmax x y)) as [H1 H2].
    pose proof (Rmax_l x y). pose proof (Rmax_r x y).
    split; [lra|]. constructor; [lra | exact H2].
Qed.

Lemma normalized_in_range (lo hi x : R) :
  lo <= x <= hi -> 0 <= (x - lo) / normalizationRange lo hi <= 1.
Proof.
  intros [H1 H2]. unfold normalizationRange, ltb.
  destruct (Rlt_dec (1 / 1000) (hi - lo)) as [Hr|Hr].
  - split.
    + apply Rmult_le_pos; [lra|]. left. apply Rinv_0_lt_compat. lra.
    + apply (Rmult_le_reg_r (hi - lo)); [lra|].
      unfold Rdiv. rewrite Rmult_assoc, Rinv_l by lra. lra.
  - unfold Rdiv. rewrite Rinv_1, Rmult_1_r. lra.
Qed.

Lemma pow_in01 (x p : R) : 0 <= x <= 1 -> 0 <= p -> in01 (Math.pow x p).
Proof.
  intros [H0 H1] Hp. unfold Math.pow.
  destruct (Req_dec_T p 0) as [E|Hne]; [cbn; lra|].
  destruct (Rlt_dec 0 x) as [Hx|Hx].
  - cbn. unfold Rpower. split; [left; apply exp_pos|].
    rewrite <- exp_0. destruct (Rle_lt_or_eq_dec _ _ H1) as [Hlt|Heq].
    + left. apply exp_increasing.
      assert (ln x < 0) by (rewrite <- ln_1; apply ln_increasing; lra).
      nra.
    + subst x. rewrite ln_1, Rmult_0_r. lra.
  - destruct (Req_dec_T x 0) as [E0|Hn0]; [|lra].
    destruct (Rlt_dec 0 p); [cbn; lra | lra].
Qed.

Section AnalyzerProperties.

Variable transform : list R -> list R.

Lemma analyzeProminentFrequency_spec audioBuffer n :
(1 <= n)%nat ->
List.length (analyzeProminentFrequency transform audioBuffer n) = n
/\ Forall in01 (analyzeProminentFrequency transform audioBuffer n).
Proof.
intros Hn. unfold analyzeProminentFrequency.
pose proof (segmentValues_length
              (prominentFrequency transform (channel0 audioBuffer)
                                  (sampleRate audioBuffer))
              (sampleRate audioBuffer / 4)
              (List.length (channel0 audioBuffer)) n) as Hlen.
fold (rawProminentFrequencyValues transform audioBuffer n) in Hlen.
destruct (rawProminentFrequencyValues transform audioBuffer n) as [|v vs];
  [cbn in Hlen; lia|].
rewrite length_map. split; [exact Hlen|].
destruct (min_list_le v vs) as [Hm1 Hm2].
destruct (max_list_ge v vs) as [HM1 HM2].
apply List.Forall_map. constructor.
- cbn. apply normalized_in_range. lra.
- rewrite List.Forall_forall in *. intros x Hx. cbn.
  apply normalized_in_range. split; [apply Hm2 | apply HM2]; exact Hx.
Qed.

Lemma analyzeBrightness_length options audioBuffer n :
colorizeByBrightness options = true -> (1 <= n)%nat ->
List.length (analyzeBrightness transform options audioBuffer n) = n.
Proof.
intros Hc Hn. unfold analyzeBrightness. rewrite Hc. cbn [negb].
pose proof (segmentValues_length
              (normalizedFrameCentroid transform (channel0 audioBuffer)
                                       (sampleRate audioBuffer))
              (5 / 10) (List.length (channel0 audioBuffer)) n) as Hlen.
fold (rawBrightnessValues transform audioBuffer n) in Hlen.
destruct (rawBrightnessValues transform audioBuffer n) as [|v vs];
  [cbn in Hlen; lia|].
rewrite length_map. exact Hlen.
Qed.

Lemma analyzeBrightness_in01 options audioBuffer n :
colorizeByBrightness options = true -> (1 <= n)%nat ->
match normalizationPower options with Some p => 0 <= p | None => True end ->
Forall in01 (analyzeBrightness transform options audioBuffer n).
Proof.
intros Hc Hn Hp. unfold analyzeBrightness. rewrite Hc. cbn [negb].
destruct (rawBrightnessValues transform audioBuffer n) as [|v vs];
  [constructor; [cbn; lra | constructor]|].
destruct (min_list_le v vs) as [Hm1 Hm2].
destruct (max_list_ge v vs) as [HM1 HM2].
assert (Hall : Forall (fun x => Math.min_list v vs <= x <= Math.max_list v vs)
                      (v :: vs)).
{ constructor; [lra|]. rewrite List.Forall_forall in *.
  intros x Hx. split; [apply Hm2 | apply HM2]; exact Hx. }
apply List.Forall_map. rewrite List.Forall_forall in *. intros x Hx.
pose proof (normalized_in_range _ _ x (Hall x Hx)) as Hr.
destruct (normalizationPower options) as [p|].
- apply pow_in01; assumption.
- exact Hr.
Qed.

End AnalyzerProperties.

Lemma pow_0_negative (x p : R) : x = 0 -> p < 0 -> Math.pow x p = Infinity.
Proof.
  intros Hx Hp. unfold Math.pow.
  destruct (Req_dec_T p 0); [lra|].
  destruct (Rlt_dec 0 x); [lra|].
  destruct (Req_dec_T x 0); [|lra].
  destruct (Rlt_dec 0 p); [lra | reflexivity].
Qed.

Lemma pow_0_positive (x p : R) : x = 0 -> 0 < p -> Math.pow x p = Num 0.
Proof.
  intros Hx Hp. unfold Math.pow.
  destruct (Req_dec_T p 0); [lra|].
  destruct (Rlt_dec 0 x); [lra|].
  destruct (Req_dec_T x 0); [|lra].
  destruct (Rlt_dec 0 p); [reflexivity | lra].
Qed.

Lemma spread_within (maxArguments : nat) (v : R) (vs : list R) :
  (S (List.length vs) <= maxArguments)%nat ->
  Math.min_spread maxArguments v vs = Some (Math.min_list v vs)
  /\ Math.max_spread maxArguments v vs = Some (Math.max_list v vs).
Proof.
  intros H. unfold Math.min_spread, Math.max_spread.
  replace (S (List.length vs) <=? maxArguments)%nat with true
    by (symmetry; apply Nat.leb_le; exact H).
  split; reflexivity.
Qed.

Lemma spread_beyond (maxArguments : nat) (v : R) (vs : list R) :
  (maxArguments < S (List.length vs))%nat ->
  Math.min_spread maxArguments v vs = None.
Proof.
  intros H. unfold Math.min_spread.
  replace (S (List.length vs) <=? maxArguments)%nat with false
    by (symmetry; apply Nat.leb_gt; exact H).
  reflexivity.
Qed.

(** A call that stays within the argument limit returns, and leaves the
    array of the total reading. *)
Lemma analysis_returns maxArguments transform options audioBuffer n :
  (n <= maxArguments)%nat ->
  analyzeBrightnessOutcome transform maxArguments options audioBuffer n
  = Some (analyzeBrightness transform options audioBuffer n)
  /\ analyzeProminentFrequencyOutcome transform maxArguments audioBuffer n
     = Some (analyzeProminentFrequency transform audioBuffer n).
Proof.
  intros Hn. split.
  - unfold analyzeBrightnessOutcome, analyzeBrightness.
    destruct (negb (colorizeByBrightness options)); [reflexivity|].
    pose proof (segmentValues_length
                  (normalizedFrameCentroid transform (channel0 audioBuffer)
                                           (sampleRate audioBuffer))
                  (5 / 10) (List.length (channel0 audioBuffer)) n) as Hlen.
    fold (rawBrightnessValues transform audioBuffer n) in Hlen.
    destruct (rawBrightnessValues transform audioBuffer n) as [|v vs];
      [reflexivity|].
    cbn [List.length] in Hlen.
    destruct (spread_within maxArguments v vs) as [E1 E2]; [lia|].
    rewrite E1, E2. reflexivity.
  - unfold analyzeProminentFrequencyOutcome, analyzeProminentFrequency.
    pose proof (segmentValues_length
                  (prominentFrequency transform (channel0 audioBuffer)
                                      (sampleRate audioBuffer))
                  (sampleRate audioBuffer / 4)
                  (List.length (channel0 audioBuffer)) n) as Hlen.
    fold (rawProminentFrequencyValues transform audioBuffer n) in Hlen.
    destruct (rawProminentFrequencyValues transform audioBuffer n) as [|v vs];
      [reflexivity|].
    cbn [List.length] in Hlen.
    destruct (spread_within maxArguments v vs) as [E1 E2]; [lia|].
    rewrite E1, E2. reflexivity.
Qed.

(** Beyond the argument limit both analyses throw. *)
Lemma analysis_throws maxArguments transform options audioBuffer n :
  colorizeByBrightness options = true ->
  (maxArguments < n)%nat ->
  analyzeBrightnessOutcome transform maxArguments options audioBuffer n = None
  /\ analyzeProminentFrequencyOutcome transform maxArguments audioBuffer n = None.
Proof.
  intros Hc Hn. split.
  - unfold analyzeBrightnessOutcome. rewrite Hc. cbn [negb].
    pose proof (segmentValues_length
                  (normalizedFrameCentroid transform (channel0 audioBuffer)
                                           (sampleRate audioBuffer))
                  (5 / 10) (List.length (channel0 audioBuffer)) n) as Hlen.
    fold (rawBrightnessValues transform audioBuffer n) in Hlen.
    destruct (rawBrightnessValues transform audioBuffer n) as [|v vs];
      [cbn in Hlen; lia|].
    cbn [List.length] in Hlen. rewrite spread_beyond by lia. reflexivity.
  - unfold analyzeProminentFrequencyOutcome.
    pose proof (segmentValues_length
                  (prominentFrequency transform (channel0 audioBuffer)
                                      (sampleRate audioBuffer))
                  (sampleRate audioBuffer / 4)
                  (List.length (channel0 audioBuffer)) n) as Hlen.
    fold (rawProminentFrequencyValues transform audioBuffer n) in Hlen.
    destruct (rawProminentFrequencyValues transform audioBuffer n) as [|v vs];
      [cbn in Hlen; lia|].
    cbn [List.length] in Hlen. rewrite spread_beyond by lia. reflexivity.
Qed.

(** C1, as the code has it.  In an engine that accepts [maxArguments]
    arguments in a call, for every audio buffer (of a positive sample
    rate) and every segment count [n] with [1 <= n <= maxArguments], with
    colorization enabled, both analyses return, each an array of length
    [n]; every element of the result of [analyzeProminentFrequency] lies
    in [0,1], and so does every element of the result of
    [analyzeBrightness] when [normalizationPower] is absent or not
    negative. *)
Theorem analysis_length_and_range maxArguments transform options audioBuffer n :
  0 < sampleRate audioBuffer ->
  (1 <= n <= maxArguments)%nat ->
  colorizeByBrightness options = true ->
  exists brightness frequency,
    analyzeBrightnessOutcome transform maxArguments options audioBuffer n
    = Some brightness
    /\ analyzeProminentFrequencyOutcome transform maxArguments audioBuffer n
       = Some frequency
    /\ List.length brightness = n
    /\ List.length frequency = n
    /\ Forall in01 frequency
    /\ (match normalizationPower options with Some p => 0 <= p | None => True end ->
        Forall in01 brightness).
Proof.
  intros _ [Hn Hmax] Hc.
  destruct (analysis_returns maxArguments transform options audioBuffer n Hmax)
    as [E1 E2].
  destruct (analyzeProminentFrequency_spec transform audioBuffer n Hn) as [L R].
  exists (analyzeBrightness transform options audioBuffer n),
         (analyzeProminentFrequency transform audioBuffer n).
  split; [exact E1|]. split; [exact E2|].
  split; [apply analyzeBrightness_length; assumption|].
  split; [exact L|]. split; [exact R|].
  intros Hp. apply analyzeBrightness_in01; assumption.
Qed.

Lemma analysis_length_and_range_witness :
  let options := mkOptions true None None (Some 2) None None None None in
  let audioBuffer := mkAudioBuffer [0; 1; 0; -1] [] 44100 in
  exists brightness,
    analyzeBrightnessOutcome dft 1000 options audioBuffer 2 = Some brightness
    /\ List.length brightness = 2%nat
    /\ Forall in01 brightness.
Proof.
  intros options audioBuffer.
  destruct (analysis_length_and_range 1000 dft options audioBuffer 2)
    as (brightness & frequency & E & _ & L & _ & _ & R);
    [cbn; lra | lia | reflexivity |].
  exists brightness. split; [exact E|]. split; [exact L|]. apply R. cbn. lra.
Defined.

(** C1 as stated fails: with [normalizationPower = -1] and a buffer of
    one sample, analysed as one segment, the segment is shorter than the
    window, its raw value is 0.5, the normalized value is 0, and
    [Math.pow(0, -1)] is [Infinity]. *)
Lemma negative_power_leaves_range :
  let options := mkOptions true None None (Some (-1)) None None None None in
  let audioBuffer := mkAudioBuffer [0] [] 44100 in
  rawBrightnessValues dft audioBuffer 1 = [5 / 10]
  /\ analyzeBrightness dft options audioBuffer 1 = [Infinity]
  /\ ~ Forall in01 (analyzeBrightness dft options audioBuffer 1).
Proof.
  intros options audioBuffer.
  assert (Raw : rawBrightnessValues dft audioBuffer 1 = [5 / 10]) by reflexivity.
  assert (Res : analyzeBrightness dft options audioBuffer 1 = [Infinity]).
  { unfold analyzeBrightness. rewrite Raw. cbn [colorizeByBrightness options negb].
    cbn [map normalizationPower options]. f_equal.
    apply pow_0_negative; [|lra].
    unfold Math.min_list, Math.max_list, normalizationRange. cbn [fold_left].
    rewrite ltb_false by lra. lra. }
  split; [exact Raw|]. split; [exact Res|].
  rewrite Res. intros H. inversion H as [|? ? Hin _]. exact Hin.
Qed.

(** ** The analysis step of [render] *)

Lemma floor_div_fftSize (length : nat) :
  Math.floor (INR length / INR fftSize) = Z.of_nat (length / fftSize).
Proof.
  unfold Math.floor. apply Zfloor_eq.
  pose proof (Nat.div_mod_eq length fftSize) as E.
  pose proof (Nat.mod_upper_bound length fftSize) as U.
  assert (Hf : (fftSize <> 0)%nat) by (unfold fftSize; lia).
  specialize (U Hf).
  set (q := (length / fftSize)%nat) in *. set (m := (length mod fftSize)%nat) in *.
  assert (EL : INR length = INR fftSize * INR q + INR m).
  { rewrite E at 1. rewrite plus_INR, mult_INR. reflexivity. }
  assert (Hpos : 0 < INR fftSize) by (apply lt_0_INR; unfold fftSize; lia).
  assert (Hm0 : 0 <= INR m) by apply pos_INR.
  assert (Hm1 : INR m < INR fftSize) by (apply lt_INR; exact U).
  rewrite <- INR_IZR_INZ.
  assert (Eq : INR length / INR fftSize = INR q + INR m / INR fftSize).
  { rewrite EL. field. lra. }
  rewrite Eq.
  assert (0 <= INR m / INR fftSize < 1).
  { split.
    - apply Rmult_le_pos; [lra|]. left. apply Rinv_0_lt_compat. lra.
    - apply (Rmult_lt_reg_r (INR fftSize)); [lra|].
      unfold Rdiv. rewrite Rmult_assoc, Rinv_l by lra. lra. }
  lra.
Qed.

Lemma INR_fftSize : INR fftSize = 128.
Proof. rewrite INR_IZR_INZ. reflexivity. Qed.




(** C9.  After the analysis step of [render] at most one of the two
    arrays is not empty: with colorization on and the analysis type
    ['prominentFrequency'], [prominentFrequencyData] holds one value per
    segment and [brightnessData] is empty; with colorization on and any
    other analysis type, [brightnessData] holds one value per segment and
    [prominentFrequencyData] is empty; with colorization off both are
    empty. *)
Theorem analysis_arrays_exclusive transform options audioData width pixelRatio :
  let d := renderAnalysis transform options audioData width pixelRatio in
  let n := Z.to_nat (finalNumberOfSegments (bufferLength audioData) width pixelRatio) in
  (brightnessData d = [] \/ prominentFrequencyData d = [])
  /\ (colorizeByBrightness options = true ->
      colorAnalysisType options = Some "prominentFrequency"%string ->
      prominentFrequencyData d = analyzeProminentFrequency transform audioData n
      /\ List.length (prominentFrequencyData d) = n /\ (1 <= n)%nat
      /\ brightnessData d = [])
  /\ (colorizeByBrightness options = true ->
      colorAnalysisType options <> Some "prominentFrequency"%string ->
      brightnessData d = analyzeBrightness transform options audioData n
      /\ List.length (brightnessData d) = n /\ (1 <= n)%nat
      /\ prominentFrequencyData d = [])
  /\ (colorizeByBrightness options = false ->
      brightnessData d = [] /\ prominentFrequencyData d = []).
Proof.
  intros d n.
  assert (Hn : (1 <= n)%nat).
  { unfold n, finalNumberOfSegments. lia. }
  split.
  { unfold d, renderAnalysis.
    destruct (colorizeByBrightness options); [|left; reflexivity].
    destruct (isProminentFrequency options); [left | right]; reflexivity. }
  split.
  { intros Hc Ht. unfold d, renderAnalysis, isProminentFrequency.
    rewrite Hc, Ht, String.eqb_refl. cbn [prominentFrequencyData brightnessData].
    fold n. split; [reflexivity|]. split; [|split; [exact Hn | reflexivity]].
    apply analyzeProminentFrequency_spec. exact Hn. }
  split.
  { intros Hc Ht. unfold d, renderAnalysis, isProminentFrequency. rewrite Hc.
    assert (E : match colorAnalysisType options with
                | Some t => String.eqb t "prominentFrequency"
                | None => false
                end = false).
    { destruct (colorAnalysisType options) as [t|]; [|reflexivity].
      apply String.eqb_neq. intros ->. apply Ht. reflexivity. }
    rewrite E. cbn [prominentFrequencyData brightnessData]. fold n.
    split; [reflexivity|]. split; [|split; [exact Hn | reflexivity]].
    apply analyzeBrightness_length; assumption. }
  intros Hc. unfold d, renderAnalysis. rewrite Hc. split; reflexivity.
Qed.

Lemma analysis_arrays_exclusive_witness :
  let options := mkOptions true (Some "prominentFrequency"%string) None None
                           None None None None in
  let audioData := mkAudioBuffer [0; 1; 0; -1] [] 44100 in
  brightnessData (renderAnalysis dft options audioData 800 1) = [].
Proof.
  intros options audioData.
  apply (proj1 (proj2 (analysis_arrays_exclusive dft options audioData 800 1)));
    reflexivity.
Defined.

(** ** A silent buffer *)

Lemma frames_total_zero (feature : nat -> R) frameStart segmentEnd total framesCount :
  (forall k, feature k = 0) ->
  fst (frames feature frameStart segmentEnd total framesCount) = total.
Proof.
  intros Hz.
  funelim (frames feature frameStart segmentEnd total framesCount);
    [|reflexivity].
  rewrite H by exact Hz. rewrite Hz. lra.
Qed.

Lemma frames_count_ge (feature : nat -> R) frameStart segmentEnd total framesCount :
  (framesCount <= snd (frames feature frameStart segmentEnd total framesCount))%nat.
Proof.
  funelim (frames feature frameStart segmentEnd total framesCount);
    [|cbn; lia].
  lia.
Qed.

Lemma frames_count_pos (feature : nat -> R) frameStart segmentEnd total :
  (frameStart + fftSize <= segmentEnd)%nat ->
  (0 < snd (frames feature frameStart segmentEnd total 0))%nat.
Proof.
  intros H. simp frames.
  destruct (Compare_dec.le_dec (frameStart + fftSize) segmentEnd) as [L|L];
    [|contradiction].
  cbn.
  pose proof (frames_count_ge feature (frameStart + 32) segmentEnd
                              (total + feature frameStart) 1).
  lia.
Qed.

Lemma segmentValue_zero (feature : nat -> R) default length segmentSize segmentIndex :
  (forall k, feature k = 0) ->
  (fftSize <= segmentSize)%nat ->
  (segmentIndex * segmentSize + segmentSize <= length)%nat ->
  segmentValue feature default length segmentSize segmentIndex = 0.
Proof.
  intros Hz Hsize Hlen. unfold segmentValue.
  rewrite Nat.min_l by exact Hlen.
  replace (segmentIndex * segmentSize + segmentSize - segmentIndex * segmentSize)%nat
    with segmentSize by lia.
  replace (segmentSize <? fftSize)%nat with false
    by (symmetry; apply Nat.ltb_ge; exact Hsize).
  pose proof (frames_total_zero feature (segmentIndex * segmentSize)
                (segmentIndex * segmentSize + segmentSize) 0 0 Hz) as Ht.
  pose proof (frames_count_pos feature (segmentIndex * segmentSize)
                (segmentIndex * segmentSize + segmentSize) 0) as Hc.
  destruct (frames feature (segmentIndex * segmentSize)
                   (segmentIndex * segmentSize + segmentSize) 0 0) as [total count].
  cbn [fst snd] in Ht, Hc. subst total.
  replace (0 <? count)%nat with true by (symmetry; apply Nat.ltb_lt; apply Hc; lia).
  unfold Rdiv. apply Rmult_0_l.
Qed.

Lemma nth_silence (k m : nat) : nth k (repeat 0 m) 0 = 0.
Proof.
  revert k. induction m as [|m IH]; intros [|k]; cbn; auto.
Qed.

Section Silence.

Variable transform : list R -> list R.
Hypothesis transform_zero :
transform (repeat 0 (2 * fftSize)) = repeat 0 (2 * fftSize).

Lemma fftInput_silence (m frameStart : nat) :
fftInput (repeat 0 m) frameStart = repeat 0 (2 * fftSize).
Proof.
unfold fftInput.
rewrite (flat_map_ext _ (fun _ => [0; 0])).
- reflexivity.
- intros i. rewrite nth_silence, Rmult_0_l. reflexivity.
Qed.

Lemma magnitude_silence (m frameStart i : nat) :
magnitude (transform (fftInput (repeat 0 m) frameStart)) i = 0.
Proof.
rewrite fftInput_silence, transform_zero. unfold magnitude.
rewrite !nth_silence, Rmult_0_l, Rplus_0_l. apply sqrt_0.
Qed.

Lemma centroid_no_energy (sampleRate : R) (fftOutput : list R) :
(forall i, magnitude fftOutput i = 0) -> centroid sampleRate fftOutput = 0.
Proof.
intros Hm. unfold centroid.
assert (E : forall l a d,
           fold_left (fun '(numerator, denominator) i =>
                        let frequency := INR i * sampleRate / INR fftSize in
                        let m := magnitude fftOutput i in
                        (numerator + frequency * m, denominator + m))
                     l (a, d) = (a, d)).
{ induction l as [|i l IH]; intros a d; [reflexivity|].
  cbn [fold_left]. cbv zeta. rewrite Hm, Rmult_0_r, !Rplus_0_r. apply IH. }
rewrite E. rewrite neqb_false. reflexivity.
Qed.

Lemma normalizedFrameCentroid_silence (m : nat) (sampleRate : R) (frameStart : nat) :
normalizedFrameCentroid transform (repeat 0 m) sampleRate frameStart = 0.
Proof.
unfold normalizedFrameCentroid.
rewrite centroid_no_energy by (intros i; apply magnitude_silence).
rewrite Rplus_0_r, ln_1. unfold Rdiv. apply Rmult_0_l.
Qed.

End Silence.

Lemma pairs_of_zero {A : Type} (l : list A) :
  flat_map (fun _ => [0; 0]) l = repeat 0 (2 * List.length l).
Proof.
  induction l as [|x l IH]; [reflexivity|].
  cbn [flat_map List.length app]. rewrite IH.
  replace (2 * S (List.length l))%nat with (S (S (2 * List.length l))) by lia.
  reflexivity.
Qed.

Lemma dft_silence (m : nat) : dft (repeat 0 m) = repeat 0 (2 * (m / 2)).
Proof.
  unfold dft. rewrite repeat_length.
  assert (Z0 : forall (f : nat -> R) l,
             (forall j, f j = 0) -> fold_right Rplus 0 (map f l) = 0).
  { intros f l Hf. induction l as [|j l IH]; [reflexivity|].
    cbn [map fold_right]. rewrite Hf, IH. lra. }
  rewrite (flat_map_ext _ (fun _ => [0; 0])).
  - rewrite pairs_of_zero, length_seq. reflexivity.
  - intros k. rewrite !Z0; [reflexivity | |];
      intros j; rewrite !nth_silence; lra.
Qed.

(** C6.  For the mono buffer of 16,000 zero samples at 16 kHz, analysed
    in ten segments in centroid mode by a transform that maps the zero
    frame to the zero spectrum, with [normalizationPower] positive or
    absent: every magnitude of every window is 0, so that every window
    has centroid 0 through the guard on the denominator; the ten raw
    values are 0; the range of the normalization is forced to 1; and the
    array returned is ten times 0. *)
Theorem silent_buffer_brightness transform options :
  transform (repeat 0 (2 * fftSize)) = repeat 0 (2 * fftSize) ->
  colorizeByBrightness options = true ->
  match normalizationPower options with Some p => 0 < p | None => True end ->
  (forall frameStart i,
      magnitude (transform (fftInput (channel0 silence) frameStart)) i = 0)
  /\ (forall frameStart,
         centroid (sampleRate silence)
                  (transform (fftInput (channel0 silence) frameStart)) = 0)
  /\ rawBrightnessValues transform silence 10 = repeat 0 10
  /\ normalizationRange (Math.min_list 0 (repeat 0 9)) (Math.max_list 0 (repeat 0 9))
     = 1
  /\ analyzeBrightness transform options silence 10 = repeat (Num 0) 10.
Proof.
  intros Ht Hc Hp.
  assert (Mag : forall frameStart i,
             magnitude (transform (fftInput (channel0 silence) frameStart)) i = 0).
  { intros frameStart i. apply (magnitude_silence transform Ht). }
  assert (Raw : rawBrightnessValues transform silence 10 = repeat 0 10).
  { unfold rawBrightnessValues, segmentValues, silence.
    cbn [channel0 sampleRate]. rewrite repeat_length.
    replace (16 * 1000 / 10)%nat with 1600%nat by reflexivity.
    rewrite (List.map_ext_in _ (fun _ => 0)); [reflexivity|].
    intros idx Hin. apply in_seq in Hin.
    apply segmentValue_zero.
    - intros k. apply (normalizedFrameCentroid_silence transform Ht).
    - unfold fftSize. lia.
    - lia. }
  assert (Emin : Math.min_list 0 (repeat 0 9) = 0).
  { unfold Math.min_list. cbn [repeat fold_left].
    rewrite !(Rmin_left 0 0) by lra. reflexivity. }
  assert (Emax : Math.max_list 0 (repeat 0 9) = 0).
  { unfold Math.max_list. cbn [repeat fold_left].
    rewrite !(Rmax_left 0 0) by lra. reflexivity. }
  assert (Range : normalizationRange (Math.min_list 0 (repeat 0 9))
                                     (Math.max_list 0 (repeat 0 9)) = 1).
  { rewrite Emin, Emax. unfold normalizationRange.
    rewrite ltb_false by lra. reflexivity. }
  split; [exact Mag|].
  split; [intros frameStart; apply centroid_no_energy; apply Mag|].
  split; [exact Raw|]. split; [exact Range|].
  unfold analyzeBrightness. rewrite Hc, Raw. cbn [negb].
  change (repeat 0 10) with (0 :: repeat 0 9). cbv iota beta zeta.
  rewrite Range, Emin.
  assert (Each : forall raw,
             raw = 0 ->
             match normalizationPower options with
             | Some p => Math.pow ((raw - 0) / 1) p
             | None => Num ((raw - 0) / 1)
             end = Num 0).
  { intros raw ->. destruct (normalizationPower options) as [p|].
    - apply pow_0_positive; lra.
    - f_equal. lra. }
  cbn [repeat map]. rewrite !Each by reflexivity. reflexivity.
Qed.

Lemma silent_buffer_brightness_witness :
  analyzeBrightness dft (mkOptions true None None (Some 2) None None None None)
                    silence 10
  = repeat (Num 0) 10.
Proof.
  apply (silent_buffer_brightness dft).
  - apply (dft_silence (2 * fftSize)).
  - reflexivity.
  - cbn. lra.
Defined.

(** ** Waveform Rasterizer *)

(** C10.  When per-segment colorization is active, the context that
    [renderBarWaveform] and [renderLineWaveform] leave behind has the
    fill style it had at entry, whatever colours were assigned to
    [fillStyle] for the bars and segments painted in between. *)
Theorem colorization_restores_fillStyle thisOptions data pixelRatio channelData
    options vScale ctx :
  useColorization data options = true ->
  fillStyle (renderBarWaveform thisOptions data pixelRatio channelData options
                               vScale ctx)
  = fillStyle ctx
  /\ fillStyle (renderLineWaveform thisOptions data channelData options vScale ctx)
     = fillStyle ctx.
Proof.
  intros Hc. unfold renderBarWaveform, renderLineWaveform.
  rewrite Hc. cbn [negb]. split; reflexivity.
Qed.

Lemma colorization_restores_fillStyle_witness :
  let options := mkOptions true None
                           (Some [mkStop 0 "#000000"; mkStop 1 "#ffffff"])
                           None (Some 2) None None None in
  let data := mkAnalysisData [Num (1 / 4); Num (3 / 4)] [] in
  let ctx := mkContext (CssColor "#999999") 4 2 true [] in
  fillStyle (renderBarWaveform options data 1 [[0; 1; 0; -1]] options 1 ctx)
  = CssColor "#999999".
Proof.
  intros options data ctx.
  apply (colorization_restores_fillStyle options data 1 [[0; 1; 0; -1]] options 1 ctx).
  reflexivity.
Defined.

(** * Further properties *)

(** ** Printing and parsing a colour *)

Lemma pretty_N_char_digit (m : N) :
  (m < 10)%N ->
  is_digit (pretty_N_char m) = true /\ digit_value (pretty_N_char m) = Z.of_N m.
Proof.
  intros H.
  assert (m = 0 \/ m = 1 \/ m = 2 \/ m = 3 \/ m = 4 \/ m = 5 \/ m = 6 \/ m = 7
          \/ m = 8 \/ m = 9)%N as Hm by lia.
  repeat (destruct Hm as [-> | Hm]; [split; reflexivity|]).
  subst m. split; reflexivity.
Qed.

(** The digits [pretty_N_go] puts in front of [s], read back by
    [parseInt]. *)
Lemma pretty_N_go_digits (x : N) :
  forall s, exists ds,
    pretty_N_go x s = fold_right String s ds
    /\ Forall (fun c => is_digit c = true) ds
    /\ (forall acc, fold_left (fun acc c => acc * 10 + digit_value c)%Z ds acc
                    = (acc * 10 ^ Z.of_nat (List.length ds) + Z.of_N x)%Z)
    /\ ((0 < x)%N -> ds <> []).
Proof.
  induction (N.lt_wf_0 x) as [x _ IH]. intros s.
  destruct (N.eq_dec x 0%N) as [->|Hx].
  - exists []. rewrite pretty_N_go_0. repeat split; [constructor | | lia].
    intros acc. cbn. lia.
  - assert (Hpos : (0 < x)%N) by lia.
    rewrite pretty_N_go_step by exact Hpos.
    destruct (IH (x `div` 10)%N (N.div_lt x 10%N Hpos eq_refl)
                 (String (pretty_N_char (x `mod` 10)) s))
      as (ds & E & Hd & Hp & _).
    destruct (pretty_N_char_digit (x `mod` 10)%N) as [D1 D2];
      [apply N.mod_lt; lia|].
    exists (ds ++ [pretty_N_char (x `mod` 10)]).
    split; [rewrite E, fold_right_app; reflexivity|].
    split; [apply Forall_app; split; [exact Hd | constructor; [exact D1 | constructor]]|].
    split.
    + intros acc. rewrite fold_left_app, Hp. cbn [fold_left].
      rewrite D2, length_app. cbn [List.length].
      rewrite Nat2Z.inj_add, Z.pow_add_r by lia.
      pose proof (N.div_mod x 10%N) as Hdm.
      assert (Z.of_N x = (10 * Z.of_N (x `div` 10) + Z.of_N (x `mod` 10))%Z) by lia.
      change (Z.of_nat 1) with 1%Z. rewrite Z.pow_1_r. lia.
    + intros _. destruct ds; discriminate.
Qed.

Lemma pretty_Z_digits (z : Z) :
  (0 <= z)%Z ->
  exists ds,
    pretty z = fold_right String EmptyString ds
    /\ Forall (fun c => is_digit c = true) ds
    /\ parseInt ds 10 = z /\ ds <> [].
Proof.
  intros Hz. destruct z as [|p|p]; [| |lia].
  - exists ["0"%char]. repeat split; [repeat constructor | discriminate].
  - destruct (pretty_N_go_digits (Npos p) EmptyString) as (ds & E & Hd & Hp & Hne).
    exists ds. split; [exact E|]. split; [exact Hd|].
    split; [|apply Hne; lia].
    unfold parseInt. rewrite Hp. lia.
Qed.

Lemma append_String (c : ascii) (a t : string) :
  (String c a ++ t)%string = String c (a ++ t)%string.
Proof. reflexivity. Qed.

Lemma append_empty (t : string) : (EmptyString ++ t)%string = t.
Proof. reflexivity. Qed.

Lemma append_digits (ds : list ascii) (t : string) :
  (fold_right String EmptyString ds ++ t)%string = fold_right String t ds.
Proof.
  induction ds as [|c ds IH]; [reflexivity|].
  cbn [fold_right]. rewrite append_String, IH. reflexivity.
Qed.

Lemma span_digits (ds : list ascii) (c : ascii) (t : string) :
  Forall (fun c => is_digit c = true) ds -> is_digit c = false ->
  span is_digit (fold_right String (String c t) ds) = (ds, String c t).
Proof.
  intros Hd Hc. induction Hd as [|d ds Hdig _ IH].
  - cbn. rewrite Hc. reflexivity.
  - cbn [fold_right span]. rewrite Hdig, IH. reflexivity.
Qed.

Lemma digits1_digits (ds : list ascii) (c : ascii) (t : string) :
  Forall (fun c => is_digit c = true) ds -> ds <> [] -> is_digit c = false ->
  digits1 (fold_right String (String c t) ds) = Some (ds, String c t).
Proof.
  intros Hd Hne Hc. unfold digits1. rewrite span_digits by assumption.
  destruct ds; [contradiction | reflexivity].
Qed.

Lemma digit_not_space (c : ascii) : is_digit c = true -> is_space c = false.
Proof.
  unfold is_digit, is_space. intros H.
  apply andb_true_iff in H as [H1 H2].
  apply Nat.leb_le in H1. apply Nat.leb_le in H2.
  repeat (apply orb_false_iff; split).
  - apply andb_false_iff. right. apply Nat.leb_gt. lia.
  - apply Nat.eqb_neq. lia.
  - apply Nat.eqb_neq. lia.
Qed.

Lemma comma_space_digits (ds : list ascii) (t : string) :
  Forall (fun c => is_digit c = true) ds -> ds <> [] ->
  comma_spaces (String "," (String " " (fold_right String t ds)))
  = Some (fold_right String t ds).
Proof.
  intros Hd Hne. destruct ds as [|d ds]; [contradiction|].
  inversion Hd as [|? ? Hdig _]; subst.
  unfold comma_spaces.
  cbn [expect Ascii.eqb Bool.eqb fold_right span].
  cbn. rewrite (digit_not_space d Hdig). reflexivity.
Qed.

Lemma parseColor_template (cr cg cb : Z) :
  (0 <= cr)%Z -> (0 <= cg)%Z -> (0 <= cb)%Z ->
  parseColor (template (pretty cr) (pretty cg) (pretty cb)) = Some (mkRGB cr cg cb).
Proof.
  intros Hr Hg Hb.
  destruct (pretty_Z_digits cr Hr) as (d1 & E1 & D1 & P1 & N1).
  destruct (pretty_Z_digits cg Hg) as (d2 & E2 & D2 & P2 & N2).
  destruct (pretty_Z_digits cb Hb) as (d3 & E3 & D3 & P3 & N3).
  unfold template. rewrite E1, E2, E3.
  assert (Hat : rgb_at ("rgb(" ++ fold_right String EmptyString d1 ++ ", "
                          ++ fold_right String EmptyString d2 ++ ", "
                          ++ fold_right String EmptyString d3 ++ ")")%string
                = Some (mkRGB cr cg cb)).
  { rewrite !append_digits. unfold rgb_at.
    rewrite !append_String, !append_empty.
    cbn [expect Ascii.eqb Bool.eqb].
    pose proof (fun t => digits1_digits d1 "," t D1 N1 eq_refl) as S1.
    pose proof (fun t => digits1_digits d2 "," t D2 N2 eq_refl) as S2.
    pose proof (fun t => digits1_digits d3 ")" t D3 N3 eq_refl) as S3.
    pose proof (fun t => comma_space_digits d2 t D2 N2) as C2.
    pose proof (fun t => comma_space_digits d3 t D3 N3) as C3.
    rewrite S1, C2, S2, C3, S3.
    cbn. rewrite P1, P2, P3. reflexivity. }
  unfold parseColor.
  destruct ("rgb(" ++ fold_right String EmptyString d1 ++ ", "
              ++ fold_right String EmptyString d2 ++ ", "
              ++ fold_right String EmptyString d3 ++ ")")%string eqn:Es;
    cbn [search]; rewrite Hat; reflexivity.
Qed.

Lemma span_Forall (p : ascii -> bool) (s : string) :
  Forall (fun c => p c = true) (fst (span p s)).
Proof.
  induction s as [|c s IH]; cbn [span]; [constructor|].
  destruct (p c) eqn:E; [|constructor].
  destruct (span p s) as [xs rest]. cbn [fst] in *. constructor; assumption.
Qed.

Lemma digits1_Forall (s : string) ds rest :
  digits1 s = Some (ds, rest) -> Forall (fun c => is_digit c = true) ds.
Proof.
  unfold digits1. pose proof (span_Forall is_digit s) as H.
  destruct (span is_digit s) as [[|d ds'] rest']; [discriminate|].
  intros E. inversion E; subst. exact H.
Qed.

Lemma hex_value_nonneg (c : ascii) : is_hex c = true -> (0 <= digit_value c)%Z.
Proof.
  unfold is_hex, digit_value. intros H.
  destruct (is_digit c) eqn:D.
  - unfold is_digit in D. apply andb_true_iff in D as [D1 _].
    apply Nat.leb_le in D1. lia.
  - cbn [orb] in H. destruct (97 <=? Z.of_nat (nat_of_ascii c))%Z eqn:A.
    + apply Z.leb_le in A. lia.
    + apply Z.leb_gt in A. apply orb_true_iff in H as [H|H];
        apply andb_true_iff in H as [H1 H2];
        apply Nat.leb_le in H1; apply Nat.leb_le in H2; lia.
Qed.

Lemma digit_is_hex (c : ascii) : is_digit c = true -> is_hex c = true.
Proof. intros H. unfold is_hex. rewrite H. reflexivity. Qed.

Lemma parseInt_nonneg (ds : list ascii) (radix : Z) :
  (0 <= radix)%Z -> Forall (fun c => is_hex c = true) ds ->
  (0 <= parseInt ds radix)%Z.
Proof.
  intros Hr Hd. unfold parseInt.
  assert (G : forall acc, (0 <= acc)%Z ->
                (0 <= fold_left (fun acc c => acc * radix + digit_value c) ds acc)%Z).
  { induction Hd as [|c ds Hc _ IH]; intros acc Hacc; [exact Hacc|].
    cbn [fold_left]. apply IH. pose proof (hex_value_nonneg c Hc). nia. }
  apply G. lia.
Qed.

Lemma search_found {A : Type} (at_head : string -> option A) (s : string) (x : A) :
  search at_head s = Some x -> exists s', at_head s' = Some x.
Proof.
  induction s as [|c s IH]; cbn [search].
  - destruct (at_head EmptyString) eqn:E; [|discriminate].
    intros H; inversion H; subst. eauto.
  - destruct (at_head (String c s)) eqn:E.
    + intros H; inversion H; subst. eauto.
    + exact IH.
Qed.

Lemma rgb_at_nonneg (s : string) (c : RGB) : rgb_at s = Some c -> nonneg_rgb c.
Proof.
  unfold rgb_at. intros H.
  destruct (expect "rgb" s) as [s1|]; [|discriminate].
  destruct (match expect "a(" s1 with Some t => Some t | None => expect "(" s1 end)
    as [s3|]; [|discriminate].
  destruct (digits1 s3) as [[d1 s4]|] eqn:E1; [|discriminate].
  destruct (comma_spaces s4) as [s5|]; [|discriminate].
  destruct (digits1 s5) as [[d2 s6]|] eqn:E2; [|discriminate].
  destruct (comma_spaces s6) as [s7|]; [|discriminate].
  destruct (digits1 s7) as [[d3 s8]|] eqn:E3; [|discriminate].
  destruct (match comma_spaces s8 with
            | Some s9 =>
                match span (fun c => is_digit c || Ascii.eqb c ".") s9 with
                | ([], _) => None
                | (_, s10) => expect ")" s10
                end
            | None => expect ")" s8
            end); [|discriminate].
  inversion H; subst. unfold nonneg_rgb. cbn [r g b].
  repeat split; apply parseInt_nonneg; try lia;
    (eapply Forall_impl; [eapply digits1_Forall; eassumption|];
     intros x Hx; apply digit_is_hex; exact Hx).
Qed.

Lemma hex6_at_nonneg (s : string) (c : RGB) : hex6_at s = Some c -> nonneg_rgb c.
Proof.
  unfold hex6_at. intros H.
  destruct s as [|h [|c1 [|c2 [|c3 [|c4 [|c5 [|c6 rest]]]]]]]; try discriminate;
    try (destruct h as [[] [] [] [] [] [] [] []]; discriminate).
  destruct h as [[] [] [] [] [] [] [] []]; try discriminate.
  destruct (is_hex c1) eqn:H1; [|discriminate].
  destruct (is_hex c2) eqn:H2; [|discriminate].
  destruct (is_hex c3) eqn:H3; [|discriminate].
  destruct (is_hex c4) eqn:H4; [|discriminate].
  destruct (is_hex c5) eqn:H5; [|discriminate].
  destruct (is_hex c6) eqn:H6; [|discriminate].
  cbn [andb] in H. inversion H; subst. unfold nonneg_rgb. cbn [r g b].
  repeat split; apply parseInt_nonneg; try lia; repeat constructor; assumption.
Qed.

Lemma hex3_at_nonneg (s : string) (c : RGB) : hex3_at s = Some c -> nonneg_rgb c.
Proof.
  unfold hex3_at. intros H.
  destruct s as [|h [|c1 [|c2 [|c3 rest]]]]; try discriminate;
    try (destruct h as [[] [] [] [] [] [] [] []]; discriminate).
  destruct h as [[] [] [] [] [] [] [] []]; try discriminate.
  destruct (is_hex c1) eqn:H1; [|discriminate].
  destruct (is_hex c2) eqn:H2; [|discriminate].
  destruct (is_hex c3) eqn:H3; [|discriminate].
  cbn [andb] in H. inversion H; subst. unfold nonneg_rgb. cbn [r g b].
  repeat split; apply parseInt_nonneg; try lia; repeat constructor; assumption.
Qed.

Lemma parseColor_nonneg_rgb (s : string) (c : RGB) :
  parseColor s = Some c -> nonneg_rgb c.
Proof.
  unfold parseColor. intros H.
  destruct (search rgb_at s) as [c1|] eqn:E1.
  { inversion H; subst. apply search_found in E1 as [s' E1].
    exact (rgb_at_nonneg s' c E1). }
  destruct (search hex6_at s) as [c2|] eqn:E2.
  { inversion H; subst. apply search_found in E2 as [s' E2].
    exact (hex6_at_nonneg s' c E2). }
  apply search_found in H as [s' E3]. exact (hex3_at_nonneg s' c E3).
Qed.

(** X1: [parseColor] never yields a negative channel. *)
Theorem parseColor_channels_nonnegative (s : string) (c : RGB) :
  parseColor s = Some c -> (0 <= r c)%Z /\ (0 <= g c)%Z /\ (0 <= b c)%Z.
Proof. apply parseColor_nonneg_rgb. Qed.

Lemma parseColor_channels_nonnegative_witness :
  (0 <= 255)%Z /\ (0 <= 99)%Z /\ (0 <= 71)%Z.
Proof.
  apply (parseColor_channels_nonnegative "rgb(255, 99, 71)" (mkRGB 255 99 71)).
  reflexivity.
Defined.

(** X2: a colour printed by the template of [getColorValue] is read back
    by [parseColor] channel for channel, for channels below 2^53 (above,
    JavaScript does not print all the digits, and from 1e21 on it prints
    an exponent, which [parseColor] refuses). *)
Theorem template_round_trip (cr cg cb : Z) :
  (0 <= cr < 2 ^ 53)%Z -> (0 <= cg < 2 ^ 53)%Z -> (0 <= cb < 2 ^ 53)%Z ->
  parseColor (template (pretty cr) (pretty cg) (pretty cb)) = Some (mkRGB cr cg cb).
Proof. intros Hr Hg Hb. apply parseColor_template; lia. Qed.

Lemma template_round_trip_witness :
  parseColor (template (pretty 12%Z) (pretty 0%Z) (pretty 255%Z))
  = Some (mkRGB 12 0 255).
Proof. apply (template_round_trip 12 0 255); lia. Defined.

(** ** More on the Color Mapper *)

Lemma insertStop_perm x l : Permutation (x :: l) (insertStop x l).
Proof.
  induction l as [|y l IH]; cbn [insertStop]; [reflexivity|].
  destruct (ltb (stop y) (stop x)); [|reflexivity].
  rewrite perm_swap. apply perm_skip. exact IH.
Qed.

(** X3: the defensive sort keeps every stop, as often as it occurs, and
    leaves the positions in ascending order. *)
Theorem sortStops_sorted_permutation (colorStops : list ColorStop) :
  Permutation colorStops (sortStops colorStops)
  /\ StronglySorted (fun s t => stop s <= stop t) (sortStops colorStops)
  /\ List.length (sortStops colorStops) = List.length colorStops.
Proof.
  assert (P : Permutation colorStops (sortStops colorStops)).
  { induction colorStops as [|x l IH]; [reflexivity|].
    cbn [sortStops fold_right]. fold (sortStops l).
    rewrite <- insertStop_perm. apply perm_skip. exact IH. }
  split; [exact P|]. split; [apply sortStops_sorted|].
  symmetry. apply Permutation_length. exact P.
Qed.

Lemma double_idempotent (x : R) : Double.representable (Double.round x).
Proof.
  assert (P : forall y, 0 < y -> Double.representable (Double.round_pos y)).
  { intros y Hy. destruct (scaled_range y Hy) as [S1 S2].
    unfold Double.round_pos. cbv zeta.
    set (e := Double.exponent y) in *.
    set (m := y * powerRZ 2 (52 - e)) in *.
    pose proof (nearest_even_ge m _ S1) as G.
    pose proof (nearest_even_le m (2 ^ 53)%Z (Rlt_le _ _ S2)) as L.
    destruct (Z.eq_dec (Double.nearest_even m) (2 ^ 53)%Z) as [E|N].
    - rewrite E. apply (representable_dyadic _ 1 (e + 1)); [reflexivity|].
      rewrite <- pow2_IZR by lia. rewrite <- pow2_add, Rmult_1_l. f_equal. lia.
    - apply (representable_dyadic _ (Double.nearest_even m) (e - 52)); [lia | reflexivity]. }
  unfold Double.representable.
  destruct (Rlt_dec 0 x) as [Hp|Hn].
  - assert (E : Double.round x = Double.round_pos x)
      by (unfold Double.round; destruct (Rlt_dec 0 x); [reflexivity | lra]).
    rewrite E. apply P. exact Hp.
  - destruct (Rlt_dec x 0) as [Hl|Hz].
    + assert (E : Double.round x = - Double.round_pos (- x)).
      { unfold Double.round. destruct (Rlt_dec 0 x); [lra|].
        destruct (Rlt_dec x 0); [reflexivity | lra]. }
      rewrite E, double_opp. f_equal. apply P. lra.
    + assert (x = 0) by lra. subst x. rewrite double_0. apply double_0.
Qed.

(** [normalizedPosition] lies in [[0,1]] and does not fall when the value
    rises. *)
Lemma position_bounds (lo hi value : R) :
  lo < value <= hi ->
  0 <= Double.div (Double.sub value lo) (Double.sub hi lo) <= 1.
Proof.
  intros [H1 H2]. unfold Double.div, Double.sub.
  assert (N : 0 < Double.round (value - lo)) by (apply double_pos; lra).
  assert (D : Double.round (value - lo) <= Double.round (hi - lo))
    by (apply double_mono; lra).
  apply double_between; [apply double_0 | apply (double_IZR 1); reflexivity |].
  split.
  - apply Rmult_le_pos; [lra|]. left. apply Rinv_0_lt_compat. lra.
  - apply (Rmult_le_reg_r (Double.round (hi - lo))); [lra|].
    unfold Rdiv. rewrite Rmult_assoc, Rinv_l by lra. lra.
Qed.

Lemma position_monotone (lo hi v1 v2 : R) :
  lo < hi -> v1 <= v2 ->
  Double.div (Double.sub v1 lo) (Double.sub hi lo)
  <= Double.div (Double.sub v2 lo) (Double.sub hi lo).
Proof.
  intros H H12. unfold Double.div, Double.sub.
  assert (D : 0 < Double.round (hi - lo)) by (apply double_pos; lra).
  apply double_mono. apply Rmult_le_compat_r.
  - left. apply Rinv_0_lt_compat. exact D.
  - apply double_mono. lra.
Qed.

Lemma sub_channels (lo up : Z) :
  (0 <= lo < 2 ^ 53)%Z -> (0 <= up < 2 ^ 53)%Z ->
  Double.sub (IZR up) (IZR lo) = IZR (up - lo).
Proof.
  intros Hlo Hup. unfold Double.sub. rewrite <- minus_IZR.
  apply double_IZR. lia.
Qed.

(** A channel of the interpolated colour lies between the channels of the
    two stops. *)
Lemma mix_between (lo up : Z) (t : R) :
  (0 <= lo < 2 ^ 53)%Z -> (0 <= up < 2 ^ 53)%Z ->
  0 <= t <= 1 ->
  between lo up
    (Math.round (Double.add (IZR lo) (Double.mul t (Double.sub (IZR up) (IZR lo))))).
Proof.
  intros Hlo Hup Ht. rewrite (sub_channels lo up Hlo Hup).
  unfold between, Math.round, Double.add, Double.mul.
  assert (Rd : Double.representable (IZR (up - lo))) by (apply double_IZR; lia).
  assert (Rl : Double.representable (IZR lo)) by (apply double_IZR; lia).
  assert (Ru : Double.representable (IZR up)) by (apply double_IZR; lia).
  set (d := IZR (up - lo)) in *.
  assert (Ed : d = IZR up - IZR lo) by (unfold d; apply minus_IZR).
  assert (Hx : IZR (Z.min lo up)
               <= Double.round (IZR lo + Double.round (t * d))
               <= IZR (Z.max lo up)).
  { destruct (Z.le_ge_cases lo up) as [L|L].
    - rewrite Z.min_l, Z.max_r by exact L. apply IZR_le in L.
      assert (P : 0 <= Double.round (t * d) <= d).
      { apply double_between; [apply double_0 | exact Rd | nra]. }
      apply double_between; [exact Rl | exact Ru | lra].
    - rewrite Z.min_r, Z.max_l by exact L. apply IZR_le in L.
      assert (P : d <= Double.round (t * d) <= 0).
      { apply double_between; [exact Rd | apply double_0 | nra]. }
      apply double_between; [exact Ru | exact Rl | lra]. }
  set (x := Double.round (IZR lo + Double.round (t * d))) in *.
  pose proof (Zfloor_bound (x + / 2)) as [F1 F2].
  split.
  - apply Zfloor_lub. lra.
  - assert (Zfloor (x + / 2) < Z.max lo up + 1)%Z; [|lia].
    apply lt_IZR. rewrite plus_IZR. lra.
Qed.

(** A channel of the interpolated colour moves towards the channel of the
    upper stop as the position rises. *)
Lemma mix_monotone (lo up : Z) (t1 t2 : R) :
  t1 <= t2 ->
  ((lo <= up)%Z ->
   (Math.round (Double.add (IZR lo) (Double.mul t1 (Double.sub (IZR up) (IZR lo))))
    <= Math.round (Double.add (IZR lo) (Double.mul t2 (Double.sub (IZR up) (IZR lo)))))%Z)
  /\ ((up <= lo)%Z ->
      (Math.round (Double.add (IZR lo) (Double.mul t2 (Double.sub (IZR up) (IZR lo))))
       <= Math.round (Double.add (IZR lo)
                                 (Double.mul t1 (Double.sub (IZR up) (IZR lo)))))%Z).
Proof.
  intros Ht. unfold Math.round, Double.add, Double.mul, Double.sub.
  split; intros L; apply IZR_le in L; apply Zfloor_le;
    apply Rplus_le_compat_r; apply double_mono; apply Rplus_le_compat_l;
    apply double_mono.
  - assert (0 <= Double.round (IZR up - IZR lo)) by (apply double_nonneg; lra). nra.
  - assert (Double.round (IZR up - IZR lo) <= 0) by (apply double_nonpos; lra). nra.
Qed.

(** At the position 1 the channel is that of the upper stop. *)
Lemma mix_at_one (lo up : Z) :
  (0 <= lo < 2 ^ 53)%Z -> (0 <= up < 2 ^ 53)%Z ->
  Math.round (Double.add (IZR lo) (Double.mul 1 (Double.sub (IZR up) (IZR lo)))) = up.
Proof.
  intros Hlo Hup. rewrite (sub_channels lo up Hlo Hup).
  unfold Double.add, Double.mul. rewrite Rmult_1_l.
  rewrite (double_IZR (up - lo)) by lia.
  rewrite <- plus_IZR. replace (lo + (up - lo))%Z with up by lia.
  rewrite (double_IZR up) by lia. apply round_IZR.
Qed.

Lemma pow2_neg (p : positive) : powerRZ 2 (Z.neg p) = / IZR (2 ^ Z.pos p).
Proof.
  change (Z.neg p) with (- Z.pos p)%Z. rewrite powerRZ_neg', pow2_IZR by lia.
  reflexivity.
Qed.

Lemma representable_quarters (k : Z) :
  (Z.abs k < 2 ^ 53)%Z -> Double.representable (IZR k / 64).
Proof.
  intros H. apply (representable_dyadic _ k (-6)); [exact H|].
  rewrite (pow2_neg 6). change (2 ^ 6)%Z with 64%Z. reflexivity.
Qed.

(** C7.  For stops whose sorted sequence holds the neighbours [sa], [sb]
    with colours that parse (to channels below 2^53), and a value of the
    documented range [0,1] strictly between their positions, value and
    positions being doubles, [getColorValue] returns the colour whose
    channels are [round(a.channel + t * (b.channel - a.channel))] with
    [t = (value - a.position) / (b.position - a.position)], each
    operation being that of the code, in double precision; [t] lies in
    [0,1].  For the stops [{0, "rgb(0,0,0)"}], [{1, "rgb(255,255,255)"}]
    and the value 0.5 it returns the colour (128, 128, 128), each channel
    rounded from 127.5.  Rounding matters: for the stops
    [{0, "rgb(0,0,0)"}], [{10/64, "rgb(45,0,0)"}] and the value 7/64 the
    quotient is the double next to 0.7, its product with 45 is a double
    below 31.5, and the red channel is 31. *)
Theorem getColorValue_interpolates :
  (forall colorStops l1 sa sb l2 lowerColor upperColor value,
      sortStops colorStops = l1 ++ sa :: sb :: l2 ->
      0 <= value <= 1 ->
      stop sa < value < stop sb ->
      Double.representable value ->
      Double.representable (stop sa) ->
      Double.representable (stop sb) ->
      parseColor (color sa) = Some lowerColor ->
      parseColor (color sb) = Some upperColor ->
      safe_rgb lowerColor -> safe_rgb upperColor ->
      let t := Double.div (Double.sub value (stop sa))
                          (Double.sub (stop sb) (stop sa)) in
      let mix lower upper :=
        Math.round (Double.add (IZR lower)
                               (Double.mul t (Double.sub (IZR upper) (IZR lower)))) in
      0 <= t <= 1
      /\ getColorValue (Num value) colorStops =
         template (pretty (mix (r lowerColor) (r upperColor)))
                  (pretty (mix (g lowerColor) (g upperColor)))
                  (pretty (mix (b lowerColor) (b upperColor)))
      /\ parseColor (getColorValue (Num value) colorStops)
         = Some (mkRGB (mix (r lowerColor) (r upperColor))
                       (mix (g lowerColor) (g upperColor))
                       (mix (b lowerColor) (b upperColor))))
  /\ (let colorStops := [mkStop 0 "rgb(0,0,0)"; mkStop 1 "rgb(255,255,255)"] in
      getColorValue (Num (1 / 2)) colorStops = "rgb(128, 128, 128)"%string
      /\ parseColor (getColorValue (Num (1 / 2)) colorStops)
         = Some (mkRGB 128 128 128)
      /\ Double.add 0 (Double.mul (Double.div (Double.sub (1 / 2) 0) (Double.sub 1 0))
                                  (Double.sub 255 0))
         = 127 + 1 / 2)
  /\ (let colorStops := [mkStop 0 "rgb(0,0,0)"; mkStop (10 / 64) "rgb(45,0,0)"] in
      Double.div (Double.sub (7 / 64) 0) (Double.sub (10 / 64) 0) < 7 / 10
      /\ Math.round (0 + 7 / 10 * (45 - 0)) = 32%Z
      /\ getColorValue (Num (7 / 64)) colorStops = "rgb(31, 0, 0)"%string).
Proof.
  assert (General : forall colorStops l1 sa sb l2 lowerColor upperColor value,
      sortStops colorStops = l1 ++ sa :: sb :: l2 ->
      0 <= value <= 1 ->
      stop sa < value < stop sb ->
      parseColor (color sa) = Some lowerColor ->
      parseColor (color sb) = Some upperColor ->
      safe_rgb lowerColor -> safe_rgb upperColor ->
      let t := Double.div (Double.sub value (stop sa))
                          (Double.sub (stop sb) (stop sa)) in
      let mix lower upper :=
        Math.round (Double.add (IZR lower)
                               (Double.mul t (Double.sub (IZR upper) (IZR lower)))) in
      0 <= t <= 1
      /\ getColorValue (Num value) colorStops =
         template (pretty (mix (r lowerColor) (r upperColor)))
                  (pretty (mix (g lowerColor) (g upperColor)))
                  (pretty (mix (b lowerColor) (b upperColor)))
      /\ parseColor (getColorValue (Num value) colorStops)
         = Some (mkRGB (mix (r lowerColor) (r upperColor))
                       (mix (g lowerColor) (g upperColor))
                       (mix (b lowerColor) (b upperColor)))).
  { intros colorStops l1 sa sb l2 lowerColor upperColor value Hsort H01 Hv Ha Hb
           (Sa1 & Sa2 & Sa3) (Sb1 & Sb2 & Sb3) t mix.
    pose proof (sortStops_sorted colorStops) as Hs. rewrite Hsort in Hs.
    destruct (sorted_split _ _ _ _ Hs) as [_ Hl2].
    pose proof (last_ge sb l2 Hl2) as Hlast.
    assert (Ht : 0 <= t <= 1) by (apply position_bounds; lra).
    assert (E : getColorValue (Num value) colorStops =
                template (pretty (mix (r lowerColor) (r upperColor)))
                         (pretty (mix (g lowerColor) (g upperColor)))
                         (pretty (mix (b lowerColor) (b upperColor)))).
    { rewrite (getColorValue_bracket colorStops l1 sa sb l2 value Hsort H01)
        by lra.
      rewrite Ha, Hb. reflexivity. }
    split; [exact Ht|]. split; [exact E|]. rewrite E.
    pose proof (parseColor_nonneg_rgb _ _ Ha) as (A1 & A2 & A3).
    pose proof (parseColor_nonneg_rgb _ _ Hb) as (B1 & B2 & B3).
    pose proof (mix_between (r lowerColor) (r upperColor) t
                  (conj A1 Sa1) (conj B1 Sb1) Ht) as M1.
    pose proof (mix_between (g lowerColor) (g upperColor) t
                  (conj A2 Sa2) (conj B2 Sb2) Ht) as M2.
    pose proof (mix_between (b lowerColor) (b upperColor) t
                  (conj A3 Sa3) (conj B3 Sb3) Ht) as M3.
    fold (mix (r lowerColor) (r upperColor)) in M1.
    fold (mix (g lowerColor) (g upperColor)) in M2.
    fold (mix (b lowerColor) (b upperColor)) in M3.
    unfold between in M1, M2, M3.
    apply parseColor_template; lia. }
  split.
  { intros colorStops l1 sa sb l2 lowerColor upperColor value Hsort H01 Hv _ _ _.
    apply (General colorStops l1 sa sb l2). exact Hsort. exact H01. exact Hv. }
  assert (Half : Double.round (1 / 2) = 1 / 2).
  { apply (representable_dyadic _ 1 (-1)); [reflexivity|].
    rewrite (pow2_neg 1). change (2 ^ 1)%Z with 2%Z. lra. }
  assert (One : Double.round 1 = 1) by (apply (double_IZR 1); reflexivity).
  assert (T12 : Double.div (Double.sub (1 / 2) 0) (Double.sub 1 0) = 1 / 2).
  { unfold Double.div, Double.sub. rewrite !Rminus_0_r, Half, One.
    replace (1 / 2 / 1) with (1 / 2) by lra. exact Half. }
  assert (Mix255 : Double.add 0 (Double.mul (1 / 2) (Double.sub 255 0)) = 127 + 1 / 2).
  { unfold Double.add, Double.mul, Double.sub. rewrite Rminus_0_r.
    rewrite (double_IZR 255) by reflexivity.
    assert (E : Double.round (1 / 2 * 255) = 1 / 2 * 255).
    { apply (representable_dyadic _ 255 (-1)); [reflexivity|].
      rewrite (pow2_neg 1). change (2 ^ 1)%Z with 2%Z. lra. }
    rewrite E, Rplus_0_l, E. lra. }
  split.
  { assert (Scenario :
      getColorValue (Num (1 / 2)) [mkStop 0 "rgb(0,0,0)"; mkStop 1 "rgb(255,255,255)"]
      = "rgb(128, 128, 128)"%string).
    { destruct (General [mkStop 0 "rgb(0,0,0)"; mkStop 1 "rgb(255,255,255)"]
                        [] (mkStop 0 "rgb(0,0,0)") (mkStop 1 "rgb(255,255,255)") []
                 (mkRGB 0 0 0) (mkRGB 255 255 255) (1 / 2)) as (_ & E & _);
        [ apply sortStops_pair; lra | lra | cbn [stop]; lra
          | reflexivity | reflexivity | repeat split | repeat split | ].
      rewrite E. cbn [stop r g b]. rewrite T12, Mix255.
      rewrite (round_eq _ 128) by lra. reflexivity. }
    cbv zeta. rewrite Scenario.
    split; [reflexivity|]. split; [reflexivity|]. rewrite T12. exact Mix255. }
  assert (P53 : powerRZ 2 (-53) = / 9007199254740992).
  { rewrite (pow2_neg 53). reflexivity. }
  assert (P48 : powerRZ 2 (-48) = / 281474976710656).
  { rewrite (pow2_neg 48). reflexivity. }
  assert (T7 : Double.div (Double.sub (7 / 64) 0) (Double.sub (10 / 64) 0)
               = 6305039478318694 * powerRZ 2 (-53)).
  { unfold Double.div, Double.sub. rewrite !Rminus_0_r.
    rewrite (representable_quarters 7) by reflexivity.
    rewrite (representable_quarters 10) by reflexivity.
    replace (7 / 64 / (10 / 64)) with (7 / 10) by lra.
    apply (double_eval (7 / 10) (-1) 6305039478318694).
    - change (-1 + 1)%Z with 0%Z. rewrite powerRZ_O, (pow2_neg 1).
      change (2 ^ 1)%Z with 2%Z. lra.
    - change (52 - -1)%Z with 53%Z. rewrite (pow2_IZR 53) by lia.
      change (2 ^ 53)%Z with 9007199254740992%Z.
      apply Rabs_def1; lra. }
  assert (Red : Double.add 0 (Double.mul (6305039478318694 * powerRZ 2 (-53))
                                         (Double.sub 45 0))
                = 8866461766385663 * powerRZ 2 (-48)).
  { unfold Double.add, Double.mul, Double.sub. rewrite Rminus_0_r.
    rewrite (double_IZR 45) by reflexivity.
    assert (E : Double.round (6305039478318694 * powerRZ 2 (-53) * 45)
                = 8866461766385663 * powerRZ 2 (-48)).
    { apply (double_eval _ 4 8866461766385663).
      - change (4 + 1)%Z with 5%Z. rewrite (pow2_IZR 4), (pow2_IZR 5), P53 by lia.
        change (2 ^ 4)%Z with 16%Z. change (2 ^ 5)%Z with 32%Z. lra.
      - change (52 - 4)%Z with 48%Z. rewrite (pow2_IZR 48), P53 by lia.
        change (2 ^ 48)%Z with 281474976710656%Z.
        apply Rabs_def1; lra. }
    rewrite E, Rplus_0_l.
    apply (representable_dyadic _ 8866461766385663 (-48)); reflexivity. }
  assert (Zero : Double.add 0 (Double.mul (6305039478318694 * powerRZ 2 (-53))
                                          (Double.sub 0 0)) = 0).
  { unfold Double.add, Double.mul, Double.sub.
    rewrite Rminus_0_r, double_0, Rmult_0_r, double_0, Rplus_0_l. apply double_0. }
  cbv zeta. split; [rewrite T7, P53; lra|].
  split; [apply round_eq; lra|].
  destruct (General [mkStop 0 "rgb(0,0,0)"; mkStop (10 / 64) "rgb(45,0,0)"]
                    [] (mkStop 0 "rgb(0,0,0)") (mkStop (10 / 64) "rgb(45,0,0)") []
              (mkRGB 0 0 0) (mkRGB 45 0 0) (7 / 64)) as (_ & E & _);
    [ apply sortStops_pair; lra | lra | cbn [stop]; lra
      | reflexivity | reflexivity | repeat split | repeat split | ].
  rewrite E. cbn [stop r g b]. rewrite T7, Red, Zero.
  rewrite (round_eq _ 31) by (rewrite P48; lra).
  rewrite (round_eq 0 0) by lra. reflexivity.
Qed.

(** The interpolation at the stops [{0.25, "#000000"}],
    [{0.75, "#ff0000"}] and the value 0.5. *)
Lemma getColorValue_interpolates_witness :
  let t := Double.div (Double.sub (1 / 2) (1 / 4)) (Double.sub (3 / 4) (1 / 4)) in
  let mix lower upper :=
    Math.round (Double.add (IZR lower)
                           (Double.mul t (Double.sub (IZR upper) (IZR lower)))) in
  0 <= t <= 1
  /\ getColorValue (Num (1 / 2)) [mkStop (1 / 4) "#000000"; mkStop (3 / 4) "#ff0000"]
     = template (pretty (mix 0%Z 255%Z)) (pretty (mix 0%Z 0%Z)) (pretty (mix 0%Z 0%Z))
  /\ parseColor (getColorValue (Num (1 / 2))
                   [mkStop (1 / 4) "#000000"; mkStop (3 / 4) "#ff0000"])
     = Some (mkRGB (mix 0%Z 255%Z) (mix 0%Z 0%Z) (mix 0%Z 0%Z)).
Proof.
  assert (Q : forall k : Z, (Z.abs k < 2 ^ 53)%Z -> Double.representable (IZR k / 4)).
  { intros k H. apply (representable_dyadic _ k (-2)); [exact H|].
    rewrite (pow2_neg 2). change (2 ^ 2)%Z with 4%Z. reflexivity. }
  apply (proj1 getColorValue_interpolates
           [mkStop (1 / 4) "#000000"; mkStop (3 / 4) "#ff0000"]
           [] (mkStop (1 / 4) "#000000") (mkStop (3 / 4) "#ff0000") []
           (mkRGB 0 0 0) (mkRGB 255 0 0) (1 / 2)).
  - apply sortStops_pair. lra.
  - lra.
  - cbn [stop]. lra.
  - replace (1 / 2) with (2 / 4) by lra. apply (Q 2%Z). reflexivity.
  - cbn [stop]. apply (Q 1%Z). reflexivity.
  - cbn [stop]. apply (Q 3%Z). reflexivity.
  - reflexivity.
  - reflexivity.
  - repeat split.
  - repeat split.
Defined.

(** X4: between two neighbouring stops whose colours parse (to channels
    below 2^53), the colour returned parses again, and each of its
    channels lies between the channels of the two stops. *)
Theorem interpolated_colour_within_stops colorStops l1 sa sb l2 lowerColor upperColor
    value :
  sortStops colorStops = l1 ++ sa :: sb :: l2 ->
  0 <= value <= 1 ->
  stop sa < value <= stop sb ->
  value < stop (List.last (sb :: l2) sb) ->
  parseColor (color sa) = Some lowerColor ->
  parseColor (color sb) = Some upperColor ->
  safe_rgb lowerColor -> safe_rgb upperColor ->
  exists c,
    parseColor (getColorValue (Num value) colorStops) = Some c
    /\ between (r lowerColor) (r upperColor) (r c)
    /\ between (g lowerColor) (g upperColor) (g c)
    /\ between (b lowerColor) (b upperColor) (b c).
Proof.
  intros Hsort H01 Hv Hlast Ha Hb (Sa1 & Sa2 & Sa3) (Sb1 & Sb2 & Sb3).
  rewrite (getColorValue_bracket colorStops l1 sa sb l2 value Hsort H01 Hv Hlast).
  rewrite Ha, Hb. cbv zeta. cbn [channel].
  pose proof (position_bounds _ _ _ Hv) as Ht.
  pose proof (parseColor_nonneg_rgb _ _ Ha) as (A1 & A2 & A3).
  pose proof (parseColor_nonneg_rgb _ _ Hb) as (B1 & B2 & B3).
  pose proof (mix_between (r lowerColor) (r upperColor) _
                (conj A1 Sa1) (conj B1 Sb1) Ht) as M1.
  pose proof (mix_between (g lowerColor) (g upperColor) _
                (conj A2 Sa2) (conj B2 Sb2) Ht) as M2.
  pose proof (mix_between (b lowerColor) (b upperColor) _
                (conj A3 Sa3) (conj B3 Sb3) Ht) as M3.
  eexists. split; [apply parseColor_template; unfold between in *; lia|].
  cbn [r g b]. split; [exact M1 | split; [exact M2 | exact M3]].
Qed.

Lemma interpolated_colour_within_stops_witness :
  exists c,
    parseColor (getColorValue (Num (1 / 2))
                  [mkStop (1 / 4) "#000000"; mkStop (3 / 4) "#ff0000"]) = Some c
    /\ between 0 255 (r c) /\ between 0 0 (g c) /\ between 0 0 (b c).
Proof.
  apply (interpolated_colour_within_stops
           [mkStop (1 / 4) "#000000"; mkStop (3 / 4) "#ff0000"]
           [] (mkStop (1 / 4) "#000000") (mkStop (3 / 4) "#ff0000") []
           (mkRGB 0 0 0) (mkRGB 255 0 0) (1 / 2)).
  - apply sortStops_pair. lra.
  - lra.
  - cbn [stop]. lra.
  - cbn [List.last stop]. lra.
  - reflexivity.
  - reflexivity.
  - repeat split.
  - repeat split.
Defined.

(** X5: as the value moves up between two neighbouring stops (of colours
    that parse to channels below 2^53), each channel of the colour
    returned moves from the channel of the lower stop towards that of the
    upper stop and never back. *)
Theorem interpolation_monotone colorStops l1 sa sb l2 lowerColor upperColor v1 v2 :
  sortStops colorStops = l1 ++ sa :: sb :: l2 ->
  0 <= v1 -> v2 <= 1 ->
  stop sa < v1 -> v1 <= v2 -> v2 <= stop sb ->
  v2 < stop (List.last (sb :: l2) sb) ->
  parseColor (color sa) = Some lowerColor ->
  parseColor (color sb) = Some upperColor ->
  safe_rgb lowerColor -> safe_rgb upperColor ->
  exists c1 c2,
    parseColor (getColorValue (Num v1) colorStops) = Some c1
    /\ parseColor (getColorValue (Num v2) colorStops) = Some c2
    /\ ((r lowerColor <= r upperColor)%Z -> (r c1 <= r c2)%Z)
    /\ ((r upperColor <= r lowerColor)%Z -> (r c2 <= r c1)%Z)
    /\ ((g lowerColor <= g upperColor)%Z -> (g c1 <= g c2)%Z)
    /\ ((g upperColor <= g lowerColor)%Z -> (g c2 <= g c1)%Z)
    /\ ((b lowerColor <= b upperColor)%Z -> (b c1 <= b c2)%Z)
    /\ ((b upperColor <= b lowerColor)%Z -> (b c2 <= b c1)%Z).
Proof.
  intros Hsort H0 H1 Ha12 H12 Hb12 Hlast Ha Hb (Sa1 & Sa2 & Sa3) (Sb1 & Sb2 & Sb3).
  rewrite (getColorValue_bracket colorStops l1 sa sb l2 v1 Hsort) by lra.
  rewrite (getColorValue_bracket colorStops l1 sa sb l2 v2 Hsort) by lra.
  rewrite Ha, Hb. cbv zeta. cbn [channel].
  assert (Ht1 : 0 <= Double.div (Double.sub v1 (stop sa))
                                (Double.sub (stop sb) (stop sa)) <= 1)
    by (apply position_bounds; lra).
  assert (Ht2 : 0 <= Double.div (Double.sub v2 (stop sa))
                                (Double.sub (stop sb) (stop sa)) <= 1)
    by (apply position_bounds; lra).
  assert (Ht : Double.div (Double.sub v1 (stop sa)) (Double.sub (stop sb) (stop sa))
               <= Double.div (Double.sub v2 (stop sa))
                             (Double.sub (stop sb) (stop sa)))
    by (apply position_monotone; lra).
  pose proof (parseColor_nonneg_rgb _ _ Ha) as (A1 & A2 & A3).
  pose proof (parseColor_nonneg_rgb _ _ Hb) as (B1 & B2 & B3).
  pose proof (mix_between (r lowerColor) (r upperColor) _
                (conj A1 Sa1) (conj B1 Sb1) Ht1) as M1.
  pose proof (mix_between (g lowerColor) (g upperColor) _
                (conj A2 Sa2) (conj B2 Sb2) Ht1) as M2.
  pose proof (mix_between (b lowerColor) (b upperColor) _
                (conj A3 Sa3) (conj B3 Sb3) Ht1) as M3.
  pose proof (mix_between (r lowerColor) (r upperColor) _
                (conj A1 Sa1) (conj B1 Sb1) Ht2) as N1.
  pose proof (mix_between (g lowerColor) (g upperColor) _
                (conj A2 Sa2) (conj B2 Sb2) Ht2) as N2.
  pose proof (mix_between (b lowerColor) (b upperColor) _
                (conj A3 Sa3) (conj B3 Sb3) Ht2) as N3.
  unfold between in *.
  do 2 eexists.
  split; [apply parseColor_template; lia|].
  split; [apply parseColor_template; lia|].
  cbn [r g b].
  destruct (mix_monotone (r lowerColor) (r upperColor) _ _ Ht) as [R1 R2].
  destruct (mix_monotone (g lowerColor) (g upperColor) _ _ Ht) as [G1 G2].
  destruct (mix_monotone (b lowerColor) (b upperColor) _ _ Ht) as [U1 U2].
  repeat split; assumption.
Qed.

Lemma interpolation_monotone_witness :
  exists c1 c2,
    parseColor (getColorValue (Num (1 / 2))
                  [mkStop (1 / 4) "#000000"; mkStop (3 / 4) "#ff0000"]) = Some c1
    /\ parseColor (getColorValue (Num (5 / 8))
                     [mkStop (1 / 4) "#000000"; mkStop (3 / 4) "#ff0000"]) = Some c2
    /\ ((0 <= 255)%Z -> (r c1 <= r c2)%Z)
    /\ ((255 <= 0)%Z -> (r c2 <= r c1)%Z)
    /\ ((0 <= 0)%Z -> (g c1 <= g c2)%Z)
    /\ ((0 <= 0)%Z -> (g c2 <= g c1)%Z)
    /\ ((0 <= 0)%Z -> (b c1 <= b c2)%Z)
    /\ ((0 <= 0)%Z -> (b c2 <= b c1)%Z).
Proof.
  apply (interpolation_monotone
           [mkStop (1 / 4) "#000000"; mkStop (3 / 4) "#ff0000"]
           [] (mkStop (1 / 4) "#000000") (mkStop (3 / 4) "#ff0000") []
           (mkRGB 0 0 0) (mkRGB 255 0 0) (1 / 2) (5 / 8));
    try (cbn [List.last stop]; lra); try reflexivity; try (repeat split; fail).
  apply sortStops_pair. lra.
Defined.

Lemma clamp_in_range (x : R) : 0 <= Math.max 0 (Math.min 1 x) <= 1.
Proof.
  unfold Math.max, Math.min. split; [apply Rmax_l|].
  apply Rmax_lub; [lra | apply Rmin_l].
Qed.

(** X6: with two stops or more, a value whose clamp to [0,1] is at or
    below the lowest position gets the literal colour of the first sorted
    stop, and one whose clamp is at or above the highest position (and
    above the lowest) gets the literal colour of the last. *)
Theorem getColorValue_outside_stops value colorStops first second rest :
  sortStops colorStops = first :: second :: rest ->
  let clamped := Math.max 0 (Math.min 1 value) in
  let last := List.last (second :: rest) second in
  (clamped <= stop first -> getColorValue (Num value) colorStops = color first)
  /\ (stop first < clamped -> stop last <= clamped ->
      getColorValue (Num value) colorStops = color last).
Proof.
  intros Hsort clamped last.
  assert (E : reclamp01 (clamp01 (Num value)) = Some clamped).
  { cbn [clamp01 reclamp01]. f_equal. apply clamp_id. apply clamp_in_range. }
  split.
  - intros H. unfold getColorValue. rewrite Hsort, E. cbn [le_num].
    rewrite leb_true by exact H. reflexivity.
  - intros H1 H2. unfold getColorValue. rewrite Hsort, E. cbn [le_num ge_num].
    rewrite leb_false by exact H1.
    change (List.last (first :: second :: rest) first)
      with (List.last (second :: rest) first).
    rewrite (last_app_cons [] second first second rest
             : List.last (second :: rest) first = _). fold last.
    rewrite leb_true by exact H2. reflexivity.
Qed.

Lemma getColorValue_outside_stops_witness :
  getColorValue (Num 2) [mkStop (3 / 4) "blue"; mkStop (1 / 4) "red"] = "blue"%string.
Proof.
  assert (Hsort : sortStops [mkStop (3 / 4) "blue"; mkStop (1 / 4) "red"]
                  = [mkStop (1 / 4) "red"; mkStop (3 / 4) "blue"]).
  { unfold sortStops. cbn [fold_right insertStop stop].
    rewrite ltb_true by lra. reflexivity. }
  assert (Hc : Math.max 0 (Math.min 1 2) = 1).
  { unfold Math.max, Math.min. rewrite Rmin_left by lra. apply Rmax_right. lra. }
  apply (proj2 (getColorValue_outside_stops 2 _ _ _ _ Hsort));
    rewrite Hc; cbn [List.last stop]; lra.
Defined.

(** X7: at the position of a stop that has a lower neighbour and lies
    below the last position, the colour returned is the colour of that
    stop, for channels below 2^53 (printed as [rgb(r, g, b)], whatever
    notation the stop used). *)
Theorem getColorValue_at_inner_stop colorStops l1 sa sb l2 lowerColor upperColor :
  sortStops colorStops = l1 ++ sa :: sb :: l2 ->
  0 <= stop sb <= 1 ->
  stop sa < stop sb ->
  stop sb < stop (List.last (sb :: l2) sb) ->
  parseColor (color sa) = Some lowerColor ->
  parseColor (color sb) = Some upperColor ->
  safe_rgb lowerColor -> safe_rgb upperColor ->
  getColorValue (Num (stop sb)) colorStops
  = template (pretty (r upperColor)) (pretty (g upperColor)) (pretty (b upperColor))
  /\ parseColor (getColorValue (Num (stop sb)) colorStops) = Some upperColor.
Proof.
  intros Hsort H01 Hlt Hlast Ha Hb (Sa1 & Sa2 & Sa3) (Sb1 & Sb2 & Sb3).
  pose proof (parseColor_nonneg_rgb _ _ Ha) as (A1 & A2 & A3).
  pose proof (parseColor_nonneg_rgb _ _ Hb) as (B1 & B2 & B3).
  assert (E : getColorValue (Num (stop sb)) colorStops
              = template (pretty (r upperColor)) (pretty (g upperColor))
                         (pretty (b upperColor))).
  { rewrite (getColorValue_bracket colorStops l1 sa sb l2 (stop sb) Hsort H01)
      by lra.
    rewrite Ha, Hb. cbv zeta. cbn [channel].
    assert (T : Double.div (Double.sub (stop sb) (stop sa))
                           (Double.sub (stop sb) (stop sa)) = 1).
    { unfold Double.div, Double.sub.
      assert (0 < Double.round (stop sb - stop sa)) by (apply double_pos; lra).
      replace (Double.round (stop sb - stop sa) / Double.round (stop sb - stop sa))
        with 1 by (field; lra).
      apply (double_IZR 1). reflexivity. }
    rewrite T. rewrite !mix_at_one by lia. reflexivity. }
  split; [exact E|]. rewrite E.
  rewrite parseColor_template by assumption.
  destruct upperColor; reflexivity.
Qed.

Lemma getColorValue_at_inner_stop_witness :
  parseColor (getColorValue (Num (1 / 2))
                [mkStop 0 "#000"; mkStop (1 / 2) "#ff8000"; mkStop 1 "#fff"])
  = Some (mkRGB 255 128 0).
Proof.
  assert (Hsort : sortStops [mkStop 0 "#000"; mkStop (1 / 2) "#ff8000"; mkStop 1 "#fff"]
                  = [] ++ [mkStop 0 "#000"; mkStop (1 / 2) "#ff8000"; mkStop 1 "#fff"]).
  { unfold sortStops. cbn [fold_right insertStop stop app].
    rewrite (ltb_false 1 (1 / 2)) by lra. cbn [insertStop stop].
    rewrite (ltb_false (1 / 2) 0) by lra. reflexivity. }
  apply (getColorValue_at_inner_stop _ [] (mkStop 0 "#000") (mkStop (1 / 2) "#ff8000")
           [mkStop 1 "#fff"] (mkRGB 0 0 0) (mkRGB 255 128 0) Hsort);
    try (cbn [List.last stop]; lra); try reflexivity; repeat split.
Defined.

Lemma findLower_NaN (l : list ColorStop) (i : nat) : findLower None l i = None.
Proof.
  revert i. induction l as [|x l IH]; intros i; [reflexivity|].
  destruct l as [|y l']; [reflexivity|].
  rewrite findLower_cons. cbn [ge_num andb]. apply IH.
Qed.

(** X8: an analysis value read past the end of the array is [undefined];
    with two stops or more, the first two sorted stops at different
    positions and of colours that parse, [getColorValue] then returns
    ["rgb(NaN, NaN, NaN)"], which is no colour [parseColor] accepts. *)
Theorem undefined_value_gives_NaN_colour (data : list jsnum) (i : Z) colorStops
    sa sb rest lowerColor upperColor :
  at_index data i = None ->
  sortStops colorStops = sa :: sb :: rest ->
  stop sa <> stop sb ->
  parseColor (color sa) = Some lowerColor ->
  parseColor (color sb) = Some upperColor ->
  getColorValue (analysisValue data i) colorStops = "rgb(NaN, NaN, NaN)"%string
  /\ parseColor "rgb(NaN, NaN, NaN)" = None.
Proof.
  intros Hi Hsort Hne Ha Hb. split; [|reflexivity].
  unfold analysisValue. rewrite Hi. unfold getColorValue.
  rewrite Hsort. cbn [clamp01 reclamp01]. rewrite findLower_NaN.
  cbn [ge_num le_num nth Nat.add].
  rewrite neqb_true
    by (unfold Double.sub; intros E; apply (proj1 (double_zero_iff _)) in E;
        apply Hne; lra).
  rewrite Ha, Hb. reflexivity.
Qed.

Lemma undefined_value_gives_NaN_colour_witness :
  getColorValue (analysisValue [Num 0] 3)
                [mkStop 0 "rgb(0,0,0)"; mkStop 1 "rgb(255,255,255)"]
  = "rgb(NaN, NaN, NaN)"%string.
Proof.
  apply (undefined_value_gives_NaN_colour [Num 0] 3 _
           (mkStop 0 "rgb(0,0,0)") (mkStop 1 "rgb(255,255,255)") []
           (mkRGB 0 0 0) (mkRGB 255 255 255)).
  - reflexivity.
  - apply sortStops_pair. lra.
  - cbn [stop]. lra.
  - reflexivity.
  - reflexivity.
Defined.

(** ** More on the Tile Manager *)

Section TileInvariants.

Variable channelData : list (list R).
Variable options : WaveSurferOptions.
Variables width height pixelRatio clientWidth : R.

Local Abbreviation n := (numCanvases options width pixelRatio clientWidth).
Local Abbreviation draw' := (draw channelData options width height pixelRatio clientWidth).
Local Abbreviation around := (drawAround channelData options width height pixelRatio clientWidth).
Local Abbreviation scroll := (onScroll channelData options width height pixelRatio clientWidth).

Lemma draw_invalid (i : Z) (st : Tiles) :
  (i < 0 \/ n <= i)%Z -> draw' i st = st.
Proof.
  intros H. unfold draw.
  replace ((i <? 0)%Z || (n <=? i)%Z) with true; [reflexivity|].
  symmetry. apply orb_true_iff.
  destruct H; [left; apply Z.ltb_lt | right; apply Z.leb_le]; assumption.
Qed.

Lemma draw_tracked (i : Z) (st : Tiles) :
  drawnIndexes st !! i = Some true -> draw' i st = st.
Proof.
  intros H. unfold draw. destruct (_ || _); [reflexivity|].
  rewrite H. reflexivity.
Qed.

Lemma draw_tracks (i : Z) (st : Tiles) :
  (0 <= i < n)%Z -> drawnIndexes (draw' i st) !! i = Some true.
Proof.
  intros Hi. unfold draw.
  replace (i <? 0)%Z with false by (symmetry; apply Z.ltb_ge; lia).
  replace (n <=? i)%Z with false by (symmetry; apply Z.leb_gt; lia).
  cbn [orb].
  destruct (drawnIndexes st !! i) as [[|]|] eqn:E; [exact E| |];
    (destruct (leb _ _);
     [|rewrite renderSingleCanvas_drawn]; cbn [drawnIndexes];
     apply lookup_insert_eq).
Qed.

Lemma renderSingleCanvas_progress data w h o st :
  (List.length (progressContainer st) <= List.length (canvasContainer st))%nat ->
  (List.length (progressContainer (renderSingleCanvas data pixelRatio w h o st))
   <= List.length (canvasContainer (renderSingleCanvas data pixelRatio w h o st)))%nat.
Proof.
  intros H. unfold renderSingleCanvas.
  cbn [cv_width cv_height canvasContainer progressContainer drawnIndexes].
  destruct (_ && _); cbn [canvasContainer progressContainer];
    rewrite ?length_app; cbn [List.length]; lia.
Qed.

Lemma draw_consistent (i : Z) (st : Tiles) :
  tilesConsistent st ->
  tilesConsistent (draw' i st)
  /\ (size (drawnIndexes (draw' i st)) <= S (size (drawnIndexes st)))%nat.
Proof.
  intros (Htrue & Hc & Hp). unfold draw.
  destruct (_ || _); [split; [repeat split; assumption | lia]|].
  destruct (drawnIndexes st !! i) as [[|]|] eqn:E;
    [split; [repeat split; assumption | lia] | destruct (Htrue i E) |].
  assert (Hs : size (<[i := true]> (drawnIndexes st)) = S (size (drawnIndexes st)))
    by (apply map_size_insert_None; exact E).
  assert (Ht : forall k, <[i := true]> (drawnIndexes st) !! k <> Some false).
  { intros k. destruct (decide (i = k)) as [->|Hne].
    - rewrite lookup_insert_eq. discriminate.
    - rewrite lookup_insert_ne by exact Hne. apply Htrue. }
  destruct (leb _ _).
  - split; [|cbn [drawnIndexes]; lia].
    repeat split; cbn [drawnIndexes canvasContainer progressContainer];
      [exact Ht | lia | exact Hp].
  - split; [|rewrite renderSingleCanvas_drawn; cbn [drawnIndexes]; lia].
    split; [rewrite renderSingleCanvas_drawn; exact Ht|].
    split.
    + rewrite renderSingleCanvas_canvases, renderSingleCanvas_drawn, length_app.
      cbn [canvasContainer drawnIndexes List.length]. lia.
    + apply renderSingleCanvas_progress. exact Hp.
Qed.

Lemma drawAround_consistent (c : Z) (st : Tiles) :
  tilesConsistent st ->
  tilesConsistent (around c st)
  /\ (size (drawnIndexes (around c st)) <= 3 + size (drawnIndexes st))%nat.
Proof.
  intros H. unfold drawAround.
  destruct (draw_consistent (c - 1) st H) as [H1 S1].
  destruct (draw_consistent c _ H1) as [H2 S2].
  destruct (draw_consistent (c + 1) _ H2) as [H3 S3].
  split; [exact H3 | lia].
Qed.

Lemma noTiles_consistent : tilesConsistent noTiles.
Proof.
  repeat split; cbn [noTiles drawnIndexes canvasContainer progressContainer List.length];
    [|lia|lia].
  intros k. rewrite lookup_empty. discriminate.
Qed.

Lemma onScroll_consistent (s : R) (st : Tiles) :
  tilesConsistent st ->
  tilesConsistent (scroll s st)
  /\ (size (drawnIndexes (scroll s st)) <= 3 + MAX_NODES)%nat.
Proof.
  intros H. unfold onScroll, clearCanvases.
  destruct (MAX_NODES <? size (drawnIndexes st))%nat eqn:E.
  - destruct (drawAround_consistent (canvasIndex options width pixelRatio clientWidth s)
                noTiles noTiles_consistent) as [H1 S1].
    split; [exact H1|]. cbn [noTiles drawnIndexes] in S1.
    rewrite map_size_empty in S1. lia.
  - apply Nat.ltb_ge in E.
    destruct (drawAround_consistent (canvasIndex options width pixelRatio clientWidth s)
                st H) as [H1 S1].
    split; [exact H1 | lia].
Qed.

Lemma afterScrolls_consistent (scrollLeft : R) (offsets : list R) :
  let st := afterScrolls channelData options width height pixelRatio clientWidth
                         scrollLeft offsets in
  tilesConsistent st /\ (size (drawnIndexes st) <= 3 + MAX_NODES)%nat.
Proof.
  unfold afterScrolls.
  assert (H0 : tilesConsistent
                 (fst (renderMultiCanvas channelData options width height pixelRatio
                                         clientWidth true scrollLeft))
               /\ (size (drawnIndexes
                           (fst (renderMultiCanvas channelData options width height
                                   pixelRatio clientWidth true scrollLeft)))
                   <= 3 + MAX_NODES)%nat).
  { unfold renderMultiCanvas. destruct (neqb _ _); cbn [negb fst].
    - destruct (drawAround_consistent
                  (canvasIndex options width pixelRatio clientWidth scrollLeft)
                  noTiles noTiles_consistent) as [H1 S1].
      split; [exact H1|]. cbn [noTiles drawnIndexes] in S1.
      rewrite map_size_empty in S1. lia.
    - split; [apply noTiles_consistent|]. cbn [noTiles drawnIndexes].
      rewrite map_size_empty. lia. }
  revert H0.
  generalize (fst (renderMultiCanvas channelData options width height pixelRatio
                                     clientWidth true scrollLeft)).
  induction offsets as [|s offsets IH]; intros st0 H0; [exact H0|].
  cbn [fold_left]. apply IH. apply onScroll_consistent. apply H0.
Qed.

End TileInvariants.

(** *** The canvases in the container *)

Section TileMaterialization.

Variable channelData : list (list R).
Variable options : WaveSurferOptions.
Variables width height pixelRatio clientWidth : R.

Local Abbreviation W := (singleCanvasWidth options width pixelRatio clientWidth).
Local Abbreviation n := (numCanvases options width pixelRatio clientWidth).
Local Abbreviation draw' := (draw channelData options width height pixelRatio clientWidth).
Local Abbreviation canvas := (tileCanvas channelData options width height pixelRatio clientWidth).
Local Abbreviation holds := (materialized channelData options width height pixelRatio clientWidth).

Hypothesis W_pos : 0 < W.

Lemma noTiles_materialized : holds noTiles [].
Proof.
  split; [constructor|]. split; [reflexivity|]. split; [reflexivity|].
  intros i. cbn [noTiles drawnIndexes]. rewrite lookup_empty.
  destruct (decide (i ∈ [])) as [H|H]; [|reflexivity].
  destruct (not_elem_of_nil i H).
Qed.

Lemma draw_materialized (i : Z) (st : Tiles) (tiles : list Z) :
  holds st tiles -> holds (draw' i st) (tiles ++ freshTile n i tiles).
Proof.
  intros (Hnd & Hc & Hp & Hd). unfold freshTile.
  destruct (decide ((0 <= i < n)%Z /\ i ∉ tiles)) as [[Hi Hnot]|Hno].
  - assert (Hnone : drawnIndexes st !! i = None).
    { rewrite Hd. destruct (decide (i ∈ tiles)); [contradiction | reflexivity]. }
    rewrite (draw_fresh channelData options width height pixelRatio clientWidth
                        W_pos i st Hi Hnone).
    unfold renderSingleCanvas. cbn [drawnIndexes canvasContainer progressContainer].
    change (mkCanvas _ _ _ _ _ _) with (canvas i).
    fold (hasPixels (canvas i)).
    assert (Hnd' : NoDup (tiles ++ [i])).
    { apply NoDup_app. split; [exact Hnd|]. split; [|apply NoDup_singleton].
      intros x Hx Hxi. apply list_elem_of_singleton in Hxi. subst x. contradiction. }
    assert (Hd' : forall k, <[i := true]> (drawnIndexes st) !! k
                            = if decide (k ∈ tiles ++ [i]) then Some true else None).
    { intros k. destruct (decide (i = k)) as [->|Hne].
      - rewrite lookup_insert_eq.
        destruct (decide (k ∈ tiles ++ [k])) as [_|H]; [reflexivity|].
        destruct H. apply elem_of_app. right. apply list_elem_of_singleton. reflexivity.
      - rewrite lookup_insert_ne by exact Hne. rewrite Hd.
        destruct (decide (k ∈ tiles)) as [H1|H1];
          destruct (decide (k ∈ tiles ++ [i])) as [H2|H2]; try reflexivity.
        + destruct H2. apply elem_of_app. left. exact H1.
        + apply elem_of_app in H2 as [H2|H2]; [contradiction|].
          apply list_elem_of_singleton in H2. congruence. }
    destruct (hasPixels (canvas i)) eqn:E;
      cbn [drawnIndexes canvasContainer progressContainer];
      (split; [exact Hnd'|]); (split; [rewrite Hc, map_app; reflexivity|]);
      (split; [|exact Hd']).
    + cbn [canvasContainer progressContainer].
      rewrite List.filter_app, <- Hp. cbn [List.filter]. rewrite E. reflexivity.
    + cbn [canvasContainer progressContainer].
      rewrite List.filter_app, <- Hp. cbn [List.filter]. rewrite E.
      rewrite app_nil_r. reflexivity.
  - rewrite app_nil_r.
    assert (E : draw' i st = st).
    { destruct (decide (0 <= i < n)%Z) as [Hi|Hi].
      - assert (Hin : i ∈ tiles).
        { destruct (decide (i ∈ tiles)) as [H|H]; [exact H|]. destruct Hno. auto. }
        unfold draw.
        replace (i <? 0)%Z with false by (symmetry; apply Z.ltb_ge; lia).
        replace (n <=? i)%Z with false by (symmetry; apply Z.leb_gt; lia).
        cbn [orb]. rewrite Hd. destruct (decide (i ∈ tiles)); [reflexivity | contradiction].
      - apply draw_invalid. lia. }
    rewrite E. repeat split; assumption.
Qed.

Lemma freshTile_other (i j : Z) (tiles : list Z) :
  i <> j -> freshTile n j (tiles ++ freshTile n i tiles) = freshTile n j tiles.
Proof.
  intros Hne. unfold freshTile at 1 3.
  apply decide_ext. split; intros [Hj H]; (split; [exact Hj|]).
  - intros Hin. apply H. apply elem_of_app. left. exact Hin.
  - intros Hin. apply elem_of_app in Hin as [Hin|Hin]; [contradiction|].
    unfold freshTile in Hin. destruct (decide _); [|destruct (not_elem_of_nil _ Hin)].
    apply list_elem_of_singleton in Hin. congruence.
Qed.

Lemma freshTiles_calls (c : Z) (tiles : list Z) :
  freshTiles n c tiles
  = freshTile n (c - 1) tiles ++ freshTile n c tiles ++ freshTile n (c + 1) tiles.
Proof.
  unfold freshTiles, freshTile. rewrite !filter_cons, filter_nil.
  repeat destruct (decide _); reflexivity.
Qed.

Lemma drawAround_materialized (c : Z) (st : Tiles) (tiles : list Z) :
  holds st tiles ->
  holds (drawAround channelData options width height pixelRatio clientWidth c st)
        (tiles ++ freshTiles n c tiles).
Proof.
  intros H. unfold drawAround.
  pose proof (draw_materialized (c - 1) _ _ H) as H1.
  pose proof (draw_materialized c _ _ H1) as H2.
  pose proof (draw_materialized (c + 1) _ _ H2) as H3.
  rewrite (freshTile_other (c - 1) c) in H2, H3 by lia.
  rewrite <- !app_assoc in H3.
  assert (E : freshTile n (c + 1) (tiles ++ freshTile n (c - 1) tiles ++ freshTile n c tiles)
              = freshTile n (c + 1) tiles).
  { rewrite app_assoc.
    rewrite <- (freshTile_other (c - 1) c tiles) at 1 by lia.
    rewrite (freshTile_other c (c + 1)) by lia.
    apply freshTile_other. lia. }
  rewrite E in H3. rewrite freshTiles_calls. exact H3.
Qed.

Lemma materialized_size (st : Tiles) (tiles : list Z) :
  holds st tiles -> size (drawnIndexes st) = List.length tiles.
Proof.
  intros (Hnd & _ & _ & Hd).
  assert (E : dom (drawnIndexes st) = (list_to_set tiles : gset Z)).
  { apply set_eq. intros x. rewrite elem_of_dom, elem_of_list_to_set, Hd.
    destruct (decide (x ∈ tiles)) as [H|H]; split; intros H'.
    - exact H.
    - eexists. reflexivity.
    - destruct H' as [v Hv]. discriminate.
    - contradiction. }
  rewrite <- size_dom, E. apply size_list_to_set. exact Hnd.
Qed.

(** The scroll listener: after a reset nothing is kept. *)
Lemma onScroll_materialized (scrollLeft : R) (st : Tiles) (tiles : list Z) :
  holds st tiles ->
  let kept := if (MAX_NODES <? size (drawnIndexes st))%nat then [] else tiles in
  holds (onScroll channelData options width height pixelRatio clientWidth scrollLeft st)
        (kept ++ freshTiles n (canvasIndex options width pixelRatio clientWidth scrollLeft)
                            kept).
Proof.
  intros H kept. subst kept. unfold onScroll, clearCanvases.
  destruct (MAX_NODES <? size (drawnIndexes st))%nat.
  - apply drawAround_materialized. apply noTiles_materialized.
  - apply drawAround_materialized. exact H.
Qed.

(** The first render of a waveform that scrolls. *)
Lemma renderMultiCanvas_materialized (scrollLeft : R) :
  holds (fst (renderMultiCanvas channelData options width height pixelRatio clientWidth
                                true scrollLeft))
        (freshTiles n (canvasIndex options width pixelRatio clientWidth scrollLeft) []).
Proof.
  unfold renderMultiCanvas.
  rewrite (cappedWidth_nonzero options width pixelRatio clientWidth W_pos).
  cbn [negb fst].
  apply (drawAround_materialized _ noTiles [] noTiles_materialized).
Qed.

End TileMaterialization.

(** The tile index for a scroll offset whose quotient and product are
    doubles. *)
Lemma canvasIndex_exact options width pixelRatio clientWidth (scrollLeft : R) :
  let T := totalWidth width pixelRatio in
  let n := numCanvases options width pixelRatio clientWidth in
  Double.representable (scrollLeft / T) ->
  Double.representable (scrollLeft / T * IZR n) ->
  canvasIndex options width pixelRatio clientWidth scrollLeft
  = Math.floor (scrollLeft / T * IZR n).
Proof.
  intros T n H1 H2. unfold canvasIndex, Double.mul, Double.div. fold T n.
  rewrite H1, H2. reflexivity.
Qed.

(** A timeline of sixteen tiles of 8000 pixels at the pixel ratio 1, and
    the tile index at the scroll offset [250 * k]. *)
Lemma sixteen_tiles options clientWidth :
  truthy (barWidth options) = false ->
  truthy (barGap options) = false ->
  8000 <= clientWidth ->
  totalWidth 128000 1 = 128000
  /\ singleCanvasWidth options 128000 1 clientWidth = 8000
  /\ numCanvases options 128000 1 clientWidth = 16%Z
  /\ (forall k : Z, (0 <= k < 2 ^ 40)%Z ->
        canvasIndex options 128000 1 clientWidth (250 * IZR k) = (k / 32)%Z).
Proof.
  intros Hbw Hbg Hcw.
  assert (ET : totalWidth 128000 1 = 128000) by (apply totalWidth_one; reflexivity).
  assert (EW : singleCanvasWidth options 128000 1 clientWidth = 8000).
  { rewrite singleCanvasWidth_no_bars by assumption.
    unfold cappedWidth. rewrite ET. unfold Math.min, MAX_CANVAS_WIDTH.
    rewrite (Rmin_left 8000 clientWidth) by lra. apply Rmin_left. lra. }
  assert (En : numCanvases options 128000 1 clientWidth = 16%Z).
  { unfold numCanvases. rewrite ET, EW. unfold Math.ceil. apply Zceil_eq. lra. }
  split; [exact ET|]. split; [exact EW|]. split; [exact En|].
  intros k Hk.
  assert (P9 : powerRZ 2 (-9) = / 512)
    by (rewrite (pow2_neg 9); change (2 ^ 9)%Z with 512%Z; reflexivity).
  assert (P5 : powerRZ 2 (-5) = / 32)
    by (rewrite (pow2_neg 5); change (2 ^ 5)%Z with 32%Z; reflexivity).
  rewrite canvasIndex_exact; rewrite ?ET, ?En.
  - unfold Math.floor. apply Zfloor_eq.
    pose proof (Z.div_mod k 32 ltac:(lia)) as Hdm.
    pose proof (Z.mod_pos_bound k 32 ltac:(lia)) as Hm.
    assert (Ek : IZR k = 32 * IZR (k / 32) + IZR (k mod 32)).
    { rewrite <- mult_IZR, <- plus_IZR. f_equal. exact Hdm. }
    destruct Hm as [Hm1 Hm2]. apply IZR_le in Hm1. apply IZR_lt in Hm2.
    lra.
  - apply (representable_dyadic _ k (-9)); [lia | rewrite P9; lra].
  - apply (representable_dyadic _ k (-5)); [lia | rewrite P5; lra].
Qed.

Lemma freshTiles_member (n c i : Z) (tiles : list Z) :
  i ∈ tiles ++ freshTiles n c tiles
  <-> i ∈ tiles \/ ((0 <= i < n)%Z /\ (c - 1 <= i <= c + 1)%Z).
Proof.
  unfold freshTiles. rewrite elem_of_app, list_elem_of_filter.
  rewrite !elem_of_cons, elem_of_nil.
  destruct (decide (i ∈ tiles)) as [H|H]; split; intros H'; try tauto.
  - destruct H' as [H'|[[Hv _] Hw]]; [tauto|]. right. split; [exact Hv | lia].
  - destruct H' as [H'|[Hv Hw]]; [tauto|]. right.
    split; [split; assumption|].
    assert ((i = c - 1 \/ i = c \/ i = c + 1)%Z) by lia. tauto.
Qed.

(** The CSS position of the canvas of a tile: the tile offset, rounded. *)
Lemma tileCanvas_left channelData options width height pixelRatio clientWidth
    (w i : Z) :
  singleCanvasWidth options width pixelRatio clientWidth = IZR w ->
  style_left (tileCanvas channelData options width height pixelRatio clientWidth i)
  = (i * w)%Z.
Proof.
  intros EW. unfold tileCanvas. cbn [style_left]. unfold tileOffset.
  rewrite EW, <- mult_IZR. apply round_IZR.
Qed.

(** Scenario D on a timeline of sixteen tiles of 8000 pixels: the first
    render with the scroll offset in tile 2, then a scroll notification
    with the offset in tile 5. *)
Lemma scroll_2_to_5 channelData options height clientWidth :
  truthy (barWidth options) = false ->
  truthy (barGap options) = false ->
  8000 <= clientWidth ->
  let holds := materialized channelData options 128000 height 1 clientWidth in
  let first := fst (renderMultiCanvas channelData options 128000 height 1
                                      clientWidth true 20000) in
  canvasIndex options 128000 1 clientWidth 20000 = 2%Z
  /\ canvasIndex options 128000 1 clientWidth 44000 = 5%Z
  /\ holds first [1; 2; 3]%Z
  /\ holds (onScroll channelData options 128000 height 1 clientWidth 44000 first)
           [1; 2; 3; 4; 5; 6]%Z.
Proof.
  intros Hbw Hbg Hcw holds first.
  destruct (sixteen_tiles options clientWidth Hbw Hbg Hcw) as (ET & EW & En & Ec).
  assert (HW : 0 < singleCanvasWidth options 128000 1 clientWidth)
    by (rewrite EW; lra).
  assert (E2 : canvasIndex options 128000 1 clientWidth 20000 = 2%Z).
  { replace 20000 with (250 * IZR 80) by lra. rewrite Ec by lia. reflexivity. }
  assert (E5 : canvasIndex options 128000 1 clientWidth 44000 = 5%Z).
  { replace 44000 with (250 * IZR 176) by lra. rewrite Ec by lia. reflexivity. }
  assert (H1 : holds first [1; 2; 3]%Z).
  { pose proof (renderMultiCanvas_materialized channelData options 128000 height 1
                  clientWidth HW 20000) as H.
    rewrite E2, En in H. exact H. }
  split; [exact E2|]. split; [exact E5|]. split; [exact H1|].
  pose proof (onScroll_materialized channelData options 128000 height 1 clientWidth
                HW 44000 first _ H1) as H.
  cbv zeta in H.
  rewrite (materialized_size channelData options 128000 height 1 clientWidth
             first _ H1), E5, En in H.
  exact H.
Qed.






(** X9: [draw] is idempotent, and it leaves the tiles as they are for an
    index below 0 or not below the number of tiles. *)
Theorem draw_idempotent channelData options width height pixelRatio clientWidth
    (i : Z) (st : Tiles) :
  draw channelData options width height pixelRatio clientWidth i
       (draw channelData options width height pixelRatio clientWidth i st)
  = draw channelData options width height pixelRatio clientWidth i st
  /\ ((i < 0 \/ numCanvases options width pixelRatio clientWidth <= i)%Z ->
      draw channelData options width height pixelRatio clientWidth i st = st).
Proof.
  split; [|apply draw_invalid].
  destruct (decide (0 <= i < numCanvases options width pixelRatio clientWidth)%Z)
    as [Hi|Hi].
  - apply draw_tracked. apply draw_tracks. exact Hi.
  - rewrite !draw_invalid by lia. reflexivity.
Qed.

Lemma draw_idempotent_witness :
  draw [] plainOptions 20000 128 1 8000 (-1) noTiles = noTiles.
Proof.
  apply (proj2 (draw_idempotent [] plainOptions 20000 128 1 8000 (-1) noTiles)).
  left. lia.
Defined.

(** X10: on a scrollable timeline of positive width, cut into tiles of
    positive width, whatever the sequence of scroll notifications, at most
    [MAX_NODES + 3] = 13 tiles are tracked, the canvas container holds at
    most 13 canvases, and the progress container no more than the canvas
    container. *)
Theorem scrolling_keeps_canvases_bounded channelData options width height pixelRatio
    clientWidth scrollLeft (offsets : list R) :
  0 < totalWidth width pixelRatio ->
  0 < singleCanvasWidth options width pixelRatio clientWidth ->
  let st := afterScrolls channelData options width height pixelRatio clientWidth
                         scrollLeft offsets in
  (size (drawnIndexes st) <= 13)%nat
  /\ (List.length (canvasContainer st) <= 13)%nat
  /\ (List.length (progressContainer st) <= List.length (canvasContainer st))%nat.
Proof.
  intros _ _ st.
  destruct (afterScrolls_consistent channelData options width height pixelRatio
              clientWidth scrollLeft offsets) as [(_ & Hc & Hp) Hs].
  fold st in Hc, Hp, Hs. unfold MAX_NODES in Hs.
  split; [lia|]. split; [lia | exact Hp].
Qed.

Lemma scrolling_keeps_canvases_bounded_witness :
  let st := afterScrolls [] plainOptions 104000 128 1 8000 12000
                         [36000; 60000; 84000; 20000] in
  (List.length (canvasContainer st) <= 13)%nat.
Proof.
  destruct (plain_widths 104000) as [ET EW]; [lia|].
  apply (scrolling_keeps_canvases_bounded [] plainOptions 104000 128 1 8000 12000
           [36000; 60000; 84000; 20000]).
  - rewrite ET. lra.
  - rewrite EW. lra.
Defined.

Lemma Rabs_bounds (x a : R) : Rabs x <= a -> - a <= x <= a.
Proof. unfold Rabs. destruct (Rcase_abs x); lra. Qed.

(** The index computed in double precision is within one of the tile
    under the scroll offset. *)
Lemma canvasIndex_near_tile options width pixelRatio clientWidth (s : R) :
  0 < totalWidth width pixelRatio ->
  0 < singleCanvasWidth options width pixelRatio clientWidth ->
  0 <= s <= totalWidth width pixelRatio
            - singleCanvasWidth options width pixelRatio clientWidth ->
  (numCanvases options width pixelRatio clientWidth <= 2 ^ 25)%Z ->
  let t := Zfloor (s / singleCanvasWidth options width pixelRatio clientWidth) in
  let c := canvasIndex options width pixelRatio clientWidth s in
  (t - 1 <= c <= t + 1)%Z.
Proof.
  intros HT HW Hs Hn25 t c.
  pose proof (numCanvases_bounds options width pixelRatio clientWidth HW) as [N1 N2].
  pose proof (numCanvases_pos options width pixelRatio clientWidth HT HW) as Hn1.
  set (T := totalWidth width pixelRatio) in *.
  set (W := singleCanvasWidth options width pixelRatio clientWidth) in *.
  set (n := numCanvases options width pixelRatio clientWidth) in *.
  assert (Hn : 1 <= IZR n) by (apply IZR_le in Hn1; exact Hn1).
  assert (Hnn : IZR n * IZR n <= IZR (2 ^ 50)).
  { rewrite <- mult_IZR. apply IZR_le.
    change (2 ^ 50)%Z with (2 ^ 25 * 2 ^ 25)%Z. apply Z.mul_le_mono_nonneg; lia. }
  set (u := / IZR (2 ^ 53)).
  assert (Hu : 0 < u) by (apply Rinv_0_lt_compat, IZR_lt; reflexivity).
  assert (Eu : u * IZR (2 ^ 53) = 1) by (unfold u; apply Rinv_l; apply not_0_IZR; lia).
  assert (Hu8 : 8 * IZR (2 ^ 50) * u = 1).
  { rewrite <- Eu. change (2 ^ 53)%Z with (8 * 2 ^ 50)%Z. rewrite mult_IZR. ring. }
  assert (Hnu : IZR n * IZR n * u <= / 8).
  { assert (IZR n * IZR n * u <= IZR (2 ^ 50) * u)
      by (apply Rmult_le_compat_r; lra). lra. }
  (* the quotient and its rounding *)
  set (q := s / T).
  assert (Eq : q * T = s) by (unfold q; field; lra).
  assert (Hq : 0 <= q <= 1).
  { split.
    - unfold q. apply Rmult_le_pos; [lra|]. left. apply Rinv_0_lt_compat. lra.
    - apply (Rmult_le_reg_r T); [lra|]. rewrite Eq. lra. }
  pose proof (double_error q) as Dq. rewrite (Rabs_right q) in Dq by lra.
  fold u in Dq. apply Rabs_bounds in Dq.
  set (q' := Double.round q) in *.
  assert (Hq' : 0 <= q') by (apply double_nonneg; lra).
  pose proof (double_error (q' * IZR n)) as Dy.
  rewrite (Rabs_right (q' * IZR n)) in Dy
    by (apply Rle_ge, Rmult_le_pos; lra).
  fold u in Dy. apply Rabs_bounds in Dy.
  set (x := Double.round (q' * IZR n)) in *.
  (* the tile under the offset *)
  pose proof (Zfloor_bound (s / W)) as [F1 F2]. fold t in F1, F2.
  set (p := s / W) in *.
  assert (Ep : p * W = s) by (unfold p; field; lra).
  (* the exact product lies between t and t + 2 - W / T *)
  set (X := q * IZR n).
  assert (HX1 : p <= X).
  { apply (Rmult_le_reg_r W); [lra|]. rewrite Ep, <- Eq. unfold X.
    rewrite Rmult_assoc. apply Rmult_le_compat_l; lra. }
  assert (HXn : X <= IZR n).
  { unfold X. rewrite <- (Rmult_1_l (IZR n)) at 2.
    apply Rmult_le_compat_r; lra. }
  set (r := W / T).
  assert (Er : r * T = W) by (unfold r; field; lra).
  assert (Hr : 0 < r) by (unfold r; apply Rdiv_lt_0_compat; lra).
  assert (Hnr : 1 <= IZR n * r).
  { apply (Rmult_le_reg_r T); [lra|]. rewrite Rmult_assoc, Er. lra. }
  assert (HX2 : X <= IZR t + 2 - r).
  { apply (Rmult_le_reg_r T); [lra|].
    assert (Es : X * T = s * IZR n) by (unfold X; rewrite <- Eq; ring).
    rewrite Es.
    assert (A : s * (IZR n - 1) * W <= (IZR t + 1) * W * T).
    { apply Rle_trans with (s * T).
      - rewrite Rmult_assoc. apply Rmult_le_compat_l; lra.
      - rewrite <- Ep. rewrite (Rmult_comm p W), Rmult_assoc.
        rewrite (Rmult_comm (IZR t + 1) W), Rmult_assoc.
        apply Rmult_le_compat_l; [lra|].
        apply Rmult_le_compat_r; lra. }
    assert (B : s * (IZR n - 1) <= (IZR t + 1) * T).
    { apply (Rmult_le_reg_r W); [lra|]. lra. }
    replace ((IZR t + 2 - r) * T) with ((IZR t + 1) * T + T - r * T) by ring.
    rewrite Er. lra. }
  assert (Hru : 3 * IZR n * u < r).
  { apply (Rmult_lt_reg_l (IZR n)); [lra|].
    apply Rlt_le_trans with 1; [|lra]. nra. }
  assert (Hu1 : u <= 1).
  { assert (1 <= IZR (2 ^ 53)) by (apply IZR_le; lia).
    unfold u. rewrite <- Rinv_1. apply Rinv_le_contravar; lra. }
  (* the rounded product *)
  assert (Hx_up : x <= X + 3 * IZR n * u).
  { assert (x <= q' * IZR n + q' * IZR n * u) by lra.
    assert (q' * IZR n <= X + X * u).
    { unfold X. replace (q * IZR n + q * IZR n * u) with ((q + q * u) * IZR n) by ring.
      apply Rmult_le_compat_r; lra. }
    assert (0 <= X) by (unfold X; apply Rmult_le_pos; lra).
    assert (X * u <= IZR n * u) by (apply Rmult_le_compat_r; lra).
    assert (q' * IZR n * u <= (X + X * u) * u) by (apply Rmult_le_compat_r; lra).
    assert (X * u * u <= IZR n * u).
    { apply Rle_trans with (X * u); [|lra].
      rewrite <- (Rmult_1_r (X * u)) at 2. apply Rmult_le_compat_l; [|lra].
      apply Rmult_le_pos; lra. }
    lra. }
  assert (Hx_lo : X - 3 * IZR n * u <= x).
  { assert (q' * IZR n - q' * IZR n * u <= x) by lra.
    assert (0 <= X) by (unfold X; apply Rmult_le_pos; lra).
    assert (X - X * u <= q' * IZR n).
    { unfold X. replace (q * IZR n - q * IZR n * u) with ((q - q * u) * IZR n) by ring.
      apply Rmult_le_compat_r; lra. }
    assert (q' * IZR n <= X + X * u).
    { unfold X. replace (q * IZR n + q * IZR n * u) with ((q + q * u) * IZR n) by ring.
      apply Rmult_le_compat_r; lra. }
    assert (X * u <= IZR n * u) by (apply Rmult_le_compat_r; lra).
    assert (q' * IZR n * u <= (X + X * u) * u) by (apply Rmult_le_compat_r; lra).
    assert (X * u * u <= IZR n * u).
    { apply Rle_trans with (X * u); [|lra].
      rewrite <- (Rmult_1_r (X * u)) at 2. apply Rmult_le_compat_l; [|lra].
      apply Rmult_le_pos; lra. }
    assert (0 <= X * u * u).
    { apply Rmult_le_pos; [apply Rmult_le_pos|]; lra. }
    lra. }
  assert (Hnu1 : 3 * IZR n * u < 1) by nra.
  unfold c, canvasIndex, Math.floor, Double.mul, Double.div. fold T n q q' x.
  split.
  - apply Zfloor_lub. rewrite minus_IZR. lra.
  - assert (Zfloor x < t + 2)%Z; [|lia].
    apply lt_IZR. rewrite plus_IZR.
    pose proof (Zfloor_bound x) as [G1 G2]. lra.
Qed.

(** X11: on real channel data, on a timeline of positive width cut into
    at most 2^25 tiles of positive width, for a scroll offset between 0
    and the total width less the width of a tile, the tile index the
    listener computes (in double precision) is within one of the tile
    under the offset; so after the scroll notification the canvas of the
    tile under the offset is in the container. *)
Theorem tile_under_scroll_offset_mounted channelData options width height pixelRatio
    clientWidth (s : R) (st : Tiles) (tiles : list Z) :
  channelData <> [] ->
  0 < totalWidth width pixelRatio ->
  0 < singleCanvasWidth options width pixelRatio clientWidth ->
  0 <= s <= totalWidth width pixelRatio
            - singleCanvasWidth options width pixelRatio clientWidth ->
  (numCanvases options width pixelRatio clientWidth <= 2 ^ 25)%Z ->
  materialized channelData options width height pixelRatio clientWidth st tiles ->
  let t := Zfloor (s / singleCanvasWidth options width pixelRatio clientWidth) in
  let c := canvasIndex options width pixelRatio clientWidth s in
  let st' := onScroll channelData options width height pixelRatio clientWidth s st in
  tileOffset options width pixelRatio clientWidth t <= s
    < tileOffset options width pixelRatio clientWidth t
      + clampedWidth options width pixelRatio clientWidth t
  /\ (t - 1 <= c <= t + 1)%Z
  /\ In (tileCanvas channelData options width height pixelRatio clientWidth t)
        (canvasContainer st')
  /\ drawnIndexes st' !! t = Some true.
Proof.
  intros _ HT HW Hs Hn25 Hm t c st'.
  assert (Hs' : 0 <= s < totalWidth width pixelRatio) by lra.
  destruct (pixel_in_tile options width pixelRatio clientWidth HW s Hs') as [Ht Hin].
  fold t in Ht, Hin.
  pose proof (canvasIndex_near_tile options width pixelRatio clientWidth s HT HW Hs
                Hn25) as Hc.
  cbv zeta in Hc. fold t c in Hc.
  split; [exact Hin|]. split; [exact Hc|].
  pose proof (onScroll_materialized channelData options width height pixelRatio
                clientWidth HW s st tiles Hm) as H.
  cbv zeta in H. fold st' c in H.
  set (kept := if (MAX_NODES <? size (drawnIndexes st))%nat then [] else tiles) in *.
  assert (Hmem : t ∈ kept ++ freshTiles (numCanvases options width pixelRatio
                                                      clientWidth) c kept).
  { apply freshTiles_member. right. split; [exact Ht | lia]. }
  destruct H as (_ & Hcan & _ & Hd).
  split.
  - rewrite Hcan. apply in_map. apply list_elem_of_In. exact Hmem.
  - rewrite Hd. destruct (decide _); [reflexivity | contradiction].
Qed.

Lemma tile_under_scroll_offset_mounted_witness :
  let channelData := [[0; 1 / 2; 1; 1 / 2; 0; - (1 / 2); -1; - (1 / 2)]] in
  In (tileCanvas channelData plainOptions 128000 128 1 8000
                 (Zfloor (20000 / singleCanvasWidth plainOptions 128000 1 8000)))
     (canvasContainer (onScroll channelData plainOptions 128000 128 1 8000 20000
                                noTiles)).
Proof.
  intros channelData.
  destruct (sixteen_tiles plainOptions 8000) as (ET & EW & En & Ec);
    [reflexivity | reflexivity | lra |].
  apply (tile_under_scroll_offset_mounted channelData plainOptions 128000 128 1 8000
           20000 noTiles []).
  - discriminate.
  - rewrite ET. lra.
  - rewrite EW. lra.
  - rewrite ET, EW. lra.
  - rewrite En. lia.
  - apply noTiles_materialized.
Defined.

Lemma slice_inside {A : Type} (l : list A) (a b : nat) :
  (a <= b)%nat -> (b <= List.length l)%nat ->
  slice (Z.of_nat a) (Z.of_nat b) l = firstn (b - a) (skipn a l).
Proof.
  intros Hab Hb. unfold slice.
  replace (Z.of_nat a <? 0)%Z with false by (symmetry; apply Z.ltb_ge; lia).
  replace (Z.of_nat b <? 0)%Z with false by (symmetry; apply Z.ltb_ge; lia).
  rewrite !Z.min_l by lia. rewrite Z.max_l by lia.
  rewrite <- Nat2Z.inj_sub by exact Hab. rewrite !Nat2Z.id. reflexivity.
Qed.

Lemma firstn_extend {A : Type} (l : list A) (a b : nat) :
  (a <= b)%nat -> firstn a l ++ firstn (b - a) (skipn a l) = firstn b l.
Proof.
  intros Hab. replace b with (a + (b - a))%nat at 2 by lia.
  generalize (b - a)%nat as m. clear Hab b. revert l.
  induction a as [|a IHa]; intros l m; [reflexivity|].
  destruct l as [|x l]; [cbn; rewrite !firstn_nil; reflexivity|].
  cbn [firstn skipn app Nat.add]. f_equal. apply IHa.
Qed.

Section TileContents.

Variable channelData : list (list R).
Variable options : WaveSurferOptions.
Variables width height pixelRatio clientWidth : R.

Local Abbreviation T := (totalWidth width pixelRatio).
Local Abbreviation W := (singleCanvasWidth options width pixelRatio clientWidth).
Local Abbreviation n := (numCanvases options width pixelRatio clientWidth).
Local Abbreviation offset := (tileOffset options width pixelRatio clientWidth).
Local Abbreviation cw := (clampedWidth options width pixelRatio clientWidth).
Local Abbreviation canvas := (tileCanvas channelData options width height pixelRatio clientWidth).

Hypothesis T_pos : 0 < T.
Hypothesis W_pos : 0 < W.

Lemma widths_sum (k : nat) :
  (Z.of_nat k <= n)%Z ->
  fold_right Rplus 0 (map (fun i => cw (Z.of_nat i)) (seq 0 k))
  = Rmin (IZR (Z.of_nat k) * W) T.
Proof.
  induction k as [|k IH]; intros Hk.
  - cbn [seq map fold_right]. change (Z.of_nat 0) with 0%Z.
    rewrite Rmult_0_l, Rmin_left by lra. reflexivity.
  - rewrite seq_S, map_app. cbn [map Nat.add].
    assert (S1 : forall (l : list R) x,
               fold_right Rplus 0 (l ++ [x]) = fold_right Rplus 0 l + x).
    { induction l as [|y l IHl]; intros x; cbn [app fold_right]; [lra|].
      rewrite IHl. lra. }
    rewrite S1, IH by lia.
    pose proof (offset_below options width pixelRatio clientWidth W_pos
                             (Z.of_nat k)) as Hb.
    unfold tileOffset in Hb. rewrite Rmin_left by (left; apply Hb; lia).
    pose proof (tile_end options width pixelRatio clientWidth (Z.of_nat k)) as He.
    unfold tileOffset in He. rewrite He.
    replace (Z.of_nat k + 1)%Z with (Z.of_nat (S k)) by lia. reflexivity.
Qed.

Local Abbreviation edge := (sampleEdge options width pixelRatio clientWidth).

Lemma edge_range (len : nat) (i : Z) :
  (0 <= i)%Z -> (0 <= edge len i <= Z.of_nat len)%Z.
Proof.
  intros Hi. unfold sampleEdge.
  assert (0 <= IZR i) by (apply IZR_le; exact Hi).
  assert (Hm : 0 <= Rmin (IZR i * W) T <= T).
  { split; [apply Rmin_glb; nra | apply Rmin_r]. }
  assert (Hl : 0 <= INR len) by apply pos_INR.
  assert (E : Rmin (IZR i * W) T / T * T = Rmin (IZR i * W) T) by (field; lra).
  remember (Rmin (IZR i * W) T / T) as q eqn:Eq. clear Eq.
  assert (0 <= q <= 1) by (split; nra).
  split.
  - apply Zfloor_lub. nra.
  - assert (Zfloor (q * INR len) < Z.of_nat len + 1)%Z; [|lia].
    apply lt_IZR. rewrite plus_IZR, <- INR_IZR_INZ.
    pose proof (Zfloor_bound (q * INR len)). nra.
Qed.

Lemma edge_monotone (len : nat) (i j : Z) :
  (i <= j)%Z -> (edge len i <= edge len j)%Z.
Proof.
  intros Hij. unfold sampleEdge. apply Zfloor_le.
  apply IZR_le in Hij.
  assert (Hl : 0 <= INR len) by apply pos_INR.
  assert (Hm : Rmin (IZR i * W) T <= Rmin (IZR j * W) T).
  { apply Rmin_glb; [|apply Rmin_r].
    eapply Rle_trans; [apply Rmin_l|]. nra. }
  apply Rmult_le_compat_r; [exact Hl|].
  apply Rmult_le_compat_r; [|exact Hm].
  left. apply Rinv_0_lt_compat. exact T_pos.
Qed.

Lemma edge_first (len : nat) : edge len 0 = 0%Z.
Proof.
  unfold sampleEdge. rewrite Rmult_0_l, Rmin_left by lra.
  unfold Rdiv. rewrite !Rmult_0_l. apply (ZfloorZ 0).
Qed.

Lemma edge_last (len : nat) : edge len n = Z.of_nat len.
Proof.
  unfold sampleEdge.
  pose proof (numCanvases_bounds options width pixelRatio clientWidth W_pos) as [_ H].
  rewrite Rmin_right by exact H.
  replace (T / T * INR len) with (INR len) by (field; lra).
  rewrite INR_IZR_INZ. apply ZfloorZ.
Qed.

Lemma tileData_slices (i : Z) (j : nat) :
  (0 <= i < n)%Z ->
  nth j (tileData channelData options width pixelRatio clientWidth i) []
  = let channel := nth j channelData [] in
    slice (edge (List.length channel) i) (edge (List.length channel) (i + 1)) channel.
Proof.
  intros Hi. unfold tileData.
  set (f := fun channel : list R =>
              slice (Math.floor (offset i / T * INR (List.length channel)))
                    (Math.floor ((offset i + cw i) / T * INR (List.length channel)))
                    channel).
  assert (Hf : f [] = []).
  { unfold f, slice. cbn [List.length]. rewrite skipn_nil. apply firstn_nil. }
  rewrite <- Hf at 1. rewrite (map_nth f). unfold f. cbv zeta.
  unfold sampleEdge, Math.floor.
  pose proof (offset_below options width pixelRatio clientWidth W_pos i) as Hb.
  rewrite tile_end. unfold tileOffset in *.
  rewrite (Rmin_left (IZR i * W) T) by (left; apply Hb; lia).
  reflexivity.
Qed.

Lemma slices_concat (channel : list R) (k : nat) :
  (Z.of_nat k <= n)%Z ->
  concat (map (fun i => slice (edge (List.length channel) (Z.of_nat i))
                              (edge (List.length channel) (Z.of_nat i + 1))
                              channel)
              (seq 0 k))
  = firstn (Z.to_nat (edge (List.length channel) (Z.of_nat k))) channel.
Proof.
  induction k as [|k IH]; intros Hk.
  - cbn [seq map concat]. change (Z.of_nat 0) with 0%Z. rewrite edge_first.
    reflexivity.
  - rewrite seq_S, map_app, concat_app, IH by lia. cbn [map concat Nat.add].
    rewrite app_nil_r.
    pose proof (edge_range (List.length channel) (Z.of_nat k)) as R1.
    pose proof (edge_range (List.length channel) (Z.of_nat k + 1)) as R2.
    pose proof (edge_monotone (List.length channel) (Z.of_nat k) (Z.of_nat k + 1)) as M.
    replace (Z.of_nat (S k)) with (Z.of_nat k + 1)%Z by lia.
    remember (edge (List.length channel) (Z.of_nat k)) as a eqn:Ea.
    remember (edge (List.length channel) (Z.of_nat k + 1)) as b eqn:Eb.
    clear Ea Eb.
    rewrite <- (Z2Nat.id a), <- (Z2Nat.id b) by lia.
    rewrite slice_inside by lia. rewrite !Nat2Z.id.
    apply firstn_extend. lia.
Qed.

End TileContents.





(** ** The width of the waveform and the tiles *)

Lemma or_else_pos (o : option R) (d : R) : nonneg_option o -> 0 < d -> 0 < or_else o d.
Proof.
  intros Ho Hd. unfold or_else, neqb. destruct o as [x|]; [|exact Hd].
  cbn in Ho. destruct (Req_dec_T x 0); [exact Hd | lra].
Qed.

Lemma singleCanvasWidth_le_capped options width pixelRatio clientWidth :
  nonneg_option (barWidth options) -> nonneg_option (barGap options) ->
  0 <= cappedWidth width pixelRatio clientWidth ->
  singleCanvasWidth options width pixelRatio clientWidth
  <= cappedWidth width pixelRatio clientWidth.
Proof.
  intros Hw Hg Hc. unfold singleCanvasWidth.
  destruct (_ || _); [|lra].
  destruct (neqb _ _); [|lra].
  set (bw := or_else (barWidth options) (5 / 10)).
  assert (Hbw : 0 < bw) by (apply or_else_pos; [exact Hw | lra]).
  set (bg := or_else (barGap options) (bw / 2)).
  assert (Hbg : 0 < bg) by (apply or_else_pos; [exact Hg | lra]).
  pose proof (Zfloor_bound (cappedWidth width pixelRatio clientWidth / (bw + bg)))
    as [F _].
  unfold Math.floor.
  assert (E : cappedWidth width pixelRatio clientWidth / (bw + bg) * (bw + bg)
              = cappedWidth width pixelRatio clientWidth) by (field; lra).
  remember (cappedWidth width pixelRatio clientWidth / (bw + bg)) as q eqn:Eq.
  clear Eq. nra.
Qed.

Lemma cappedWidth_le_client width pixelRatio clientWidth :
  cappedWidth width pixelRatio clientWidth <= clientWidth
  /\ cappedWidth width pixelRatio clientWidth <= totalWidth width pixelRatio
  /\ cappedWidth width pixelRatio clientWidth <= 8000.
Proof.
  unfold cappedWidth, Math.min, MAX_CANVAS_WIDTH.
  pose proof (Rmin_l (Rmin 8000 clientWidth) (totalWidth width pixelRatio)).
  pose proof (Rmin_r (Rmin 8000 clientWidth) (totalWidth width pixelRatio)).
  pose proof (Rmin_l 8000 clientWidth). pose proof (Rmin_r 8000 clientWidth).
  repeat split; lra.
Qed.

Lemma pow2_opp (j : Z) : (0 <= j)%Z -> powerRZ 2 (- j) = / IZR (2 ^ j).
Proof. intros H. rewrite powerRZ_neg', pow2_IZR by exact H. reflexivity. Qed.

(** A width in CSS pixels times a pixel ratio [k / 2^j] and divided by it
    again is the width, in double precision as over the reals, when the
    product is an integer below 2^53 over [2^j]. *)
Lemma width_times_ratio (w k j : Z) (pixelRatio : R) :
  (0 <= j)%Z -> (0 < k)%Z ->
  pixelRatio = IZR k / IZR (2 ^ j) ->
  (Z.abs (w * k) < 2 ^ 53)%Z ->
  Double.mul (IZR w) pixelRatio = IZR w * pixelRatio
  /\ totalWidth (Double.mul (IZR w) pixelRatio) pixelRatio = IZR w.
Proof.
  intros Hj Hk Hpr Hsafe.
  assert (H2 : 0 < IZR (2 ^ j)) by (apply IZR_lt; lia).
  assert (Hkr : 0 < IZR k) by (apply IZR_lt; exact Hk).
  assert (Hp : 0 < pixelRatio).
  { rewrite Hpr. apply Rdiv_lt_0_compat; assumption. }
  assert (E : Double.mul (IZR w) pixelRatio = IZR w * pixelRatio).
  { unfold Double.mul. apply (representable_dyadic _ (w * k) (- j)); [exact Hsafe|].
    rewrite (pow2_opp j Hj), mult_IZR, Hpr. unfold Rdiv. ring. }
  split; [exact E|].
  assert (Q : IZR w * pixelRatio / pixelRatio = IZR w) by (field; lra).
  apply (totalWidth_exact _ _ w); [|rewrite E; exact Q].
  assert (Z.abs w <= Z.abs (w * k))%Z; [|lia].
  rewrite Z.abs_mul. assert (1 <= Z.abs k)%Z by lia.
  pose proof (Z.abs_nonneg w). nia.
Qed.

(** X14: when [render] finds the scroll width larger than the width of
    the parent, for a pixel ratio [k / 2^j] whose product with the scroll
    width is below 2^53 (so that width times ratio divided by ratio is
    exact in double precision) and a positive width of tile, the total
    width handed to the tiles is the scroll width, at least two tiles
    exist, and [renderMultiCanvas] subscribes its scroll listener. *)
Theorem scrollable_waveform_is_tiled channelData options height duration layout
    parentWidth pixelRatio scrollLeft (k j : Z) :
  (0 <= j)%Z -> (0 < k)%Z ->
  pixelRatio = IZR k / IZR (2 ^ j) ->
  (Z.abs (scrollWidth duration layout * k) < 2 ^ 53)%Z ->
  1 <= pixelRatio ->
  0 <= parentWidth ->
  nonneg_option (barWidth options) -> nonneg_option (barGap options) ->
  isScrollable duration layout parentWidth = true ->
  let width := renderWidth duration layout parentWidth pixelRatio in
  0 < singleCanvasWidth options width pixelRatio parentWidth ->
  totalWidth width pixelRatio = IZR (scrollWidth duration layout)
  /\ parentWidth < totalWidth width pixelRatio
  /\ (2 <= numCanvases options width pixelRatio parentWidth)%Z
  /\ snd (renderMultiCanvas channelData options width height pixelRatio parentWidth
                            true scrollLeft) = true.
Proof.
  intros Hj Hk Hratio Hsafe Hpr Hpw Hbw Hbg Hs width HW.
  assert (Ewidth : width = Double.mul (IZR (scrollWidth duration layout)) pixelRatio).
  { unfold width, renderWidth, useParentWidth. rewrite Hs, andb_false_r. reflexivity. }
  destruct (width_times_ratio (scrollWidth duration layout) k j pixelRatio
              Hj Hk Hratio Hsafe) as (_ & ET).
  rewrite <- Ewidth in ET.
  assert (Hlt : parentWidth < IZR (scrollWidth duration layout)).
  { unfold isScrollable, ltb in Hs. destruct (Rlt_dec _ _); [assumption|discriminate]. }
  destruct (cappedWidth_le_client width pixelRatio parentWidth) as (C1 & C2 & C3).
  assert (Hc0 : 0 <= cappedWidth width pixelRatio parentWidth).
  { unfold cappedWidth, Math.min, MAX_CANVAS_WIDTH.
    apply Rmin_glb; [apply Rmin_glb; lra | lra]. }
  pose proof (singleCanvasWidth_le_capped options width pixelRatio parentWidth
                Hbw Hbg Hc0) as HWc.
  assert (Hn : (2 <= numCanvases options width pixelRatio parentWidth)%Z).
  { pose proof (numCanvases_bounds options width pixelRatio parentWidth HW) as [_ N].
    assert (1 < IZR (numCanvases options width pixelRatio parentWidth)) by nra.
    apply lt_IZR in H. lia. }
  split; [exact ET|]. split; [lra|]. split; [exact Hn|].
  unfold renderMultiCanvas.
  rewrite (cappedWidth_nonzero options width pixelRatio parentWidth HW).
  cbn [negb snd]. apply Z.ltb_lt. lia.
Qed.

Lemma scrollWidth_exact (duration pxPerSec : Z) (fill : bool) :
  (Z.abs duration < 2 ^ 53)%Z -> (Z.abs (duration * pxPerSec) < 2 ^ 53)%Z ->
  pxPerSec <> 0%Z ->
  scrollWidth (IZR duration) (mkLayout (Some (IZR pxPerSec)) None fill)
  = (duration * pxPerSec)%Z.
Proof.
  intros Hd Hp Hne. unfold scrollWidth. cbn [audioRate minPxPerSec or_else].
  rewrite neqb_true by (apply not_0_IZR; exact Hne).
  unfold Double.div, Double.mul.
  replace (IZR duration / 1) with (IZR duration) by lra.
  rewrite (double_IZR duration Hd), <- mult_IZR, (double_IZR _ Hp).
  apply Zceil_eq. rewrite <- (minus_IZR _ 1). split.
  - apply IZR_lt. lia.
  - lra.
Qed.

Lemma scrollable_waveform_is_tiled_witness :
  snd (renderMultiCanvas [[0; 1; 0; -1]] plainOptions
         (renderWidth 100 (mkLayout (Some 200) None true) 8000 1) 128 1 8000 true 0)
  = true.
Proof.
  assert (Esw : scrollWidth 100 (mkLayout (Some 200) None true) = 20000%Z)
    by (apply (scrollWidth_exact 100 200 true); [reflexivity | reflexivity | lia]).
  assert (Es : isScrollable 100 (mkLayout (Some 200) None true) 8000 = true).
  { unfold isScrollable. rewrite Esw. apply ltb_true. lra. }
  assert (Ew : renderWidth 100 (mkLayout (Some 200) None true) 8000 1 = 20000).
  { unfold renderWidth, useParentWidth. rewrite Es, Esw. cbn [fillParent andb negb].
    unfold Double.mul. rewrite Rmult_1_r. apply (double_IZR 20000). reflexivity. }
  destruct (plain_widths 20000) as [ET EW]; [lia|].
  apply (scrollable_waveform_is_tiled [[0; 1; 0; -1]] plainOptions 128 100
           (mkLayout (Some 200) None true) 8000 1 0 1 0);
    [ lia | lia | change (2 ^ 0)%Z with 1%Z; lra | rewrite Esw; reflexivity
    | lra | lra | exact I | exact I | exact Es | rewrite Ew, EW; lra ].
Defined.

(** X15: a waveform that does not scroll and fills a parent whose width
    is a whole number of pixels, at most 8000, without bar options, for a
    pixel ratio [k / 2^j] with [k] below 2^40 (so that width times ratio
    divided by ratio is exact in double precision), is drawn on one
    canvas, placed at 0 and as wide as the parent. *)
Theorem fitting_waveform_is_one_canvas channelData options height duration layout
    pixelRatio scrollLeft (p k j : Z) :
  (0 <= j)%Z -> (0 < k < 2 ^ 40)%Z ->
  pixelRatio = IZR k / IZR (2 ^ j) ->
  1 <= pixelRatio ->
  (0 < p <= 8000)%Z ->
  truthy (barWidth options) = false -> truthy (barGap options) = false ->
  fillParent layout = true ->
  let parentWidth := IZR p in
  isScrollable duration layout parentWidth = false ->
  let width := renderWidth duration layout parentWidth pixelRatio in
  totalWidth width pixelRatio = parentWidth
  /\ numCanvases options width pixelRatio parentWidth = 1%Z
  /\ map (fun c => (style_left c, style_width c))
         (canvasContainer
            (fst (renderMultiCanvas channelData options width height pixelRatio
                                    parentWidth false scrollLeft)))
     = [(0%Z, parentWidth)].
Proof.
  intros Hj Hk Hratio Hpr Hp Hbw Hbg Hfill parentWidth Hs width.
  assert (Hpw : 0 < parentWidth <= 8000).
  { unfold parentWidth. split; [apply IZR_lt | apply IZR_le]; lia. }
  assert (Ewidth : width = Double.mul (IZR p) pixelRatio).
  { unfold width, renderWidth, useParentWidth. rewrite Hs, Hfill. reflexivity. }
  destruct (width_times_ratio p k j pixelRatio Hj ltac:(lia) Hratio)
    as (_ & ET).
  { rewrite Z.abs_mul, (Z.abs_eq p), (Z.abs_eq k) by lia.
    assert (p * k < 8192 * 2 ^ 40)%Z by nia.
    change (2 ^ 53)%Z with (8192 * 2 ^ 40)%Z. lia. }
  rewrite <- Ewidth in ET. fold parentWidth in ET.
  assert (EW : singleCanvasWidth options width pixelRatio parentWidth = parentWidth).
  { rewrite singleCanvasWidth_no_bars by assumption.
    unfold cappedWidth. rewrite ET. unfold Math.min, MAX_CANVAS_WIDTH.
    rewrite (Rmin_right 8000 parentWidth) by lra. apply Rmin_left. lra. }
  assert (HW : 0 < singleCanvasWidth options width pixelRatio parentWidth)
    by (rewrite EW; lra).
  assert (En : numCanvases options width pixelRatio parentWidth = 1%Z).
  { unfold numCanvases. rewrite ET, EW. apply Zceil_eq.
    replace (parentWidth / parentWidth) with 1 by (field; lra). lra. }
  split; [exact ET|]. split; [exact En|].
  unfold renderMultiCanvas.
  rewrite (cappedWidth_nonzero options width pixelRatio parentWidth HW).
  cbn [negb fst].
  destruct (draw_loop channelData options width height pixelRatio parentWidth HW
                      (Z.to_nat (numCanvases options width pixelRatio parentWidth)))
    as [Hc _]; [rewrite En; lia|].
  rewrite Hc, En. change (Z.to_nat 1) with 1%nat.
  cbn [seq map tileCanvas style_left style_width]. change (Z.of_nat 0) with 0%Z.
  unfold clampedWidth, tileOffset, Math.min. rewrite ET, EW.
  rewrite Rmult_0_l, Rminus_0_r, Rmin_left by lra.
  rewrite (round_eq 0 0) by lra. reflexivity.
Qed.

Lemma fitting_waveform_is_one_canvas_witness :
  numCanvases plainOptions (renderWidth 10 (mkLayout (Some 50) None true) 600 (3 / 2))
              (3 / 2) 600 = 1%Z.
Proof.
  assert (Esw : scrollWidth 10 (mkLayout (Some 50) None true) = 500%Z)
    by (apply (scrollWidth_exact 10 50 true); [reflexivity | reflexivity | lia]).
  apply (fitting_waveform_is_one_canvas [[0; 1; 0; -1]] plainOptions 128 10
           (mkLayout (Some 50) None true) (3 / 2) 0 600 3 1);
    try lia; try reflexivity.
  - lra.
  - unfold isScrollable. rewrite Esw. apply ltb_false. lra.
Defined.

(** ** [reRender] *)

(** X16: the scroll adjustment of [reRender] is a multiple of half a pixel,
    is at least as far from 0 as the raw difference and on the same side,
    and exceeds it by less than half a pixel; a difference that is a
    multiple of half a pixel is kept. *)
Theorem roundDelta_away_from_zero (delta : R) :
  (exists k : Z, roundDelta delta = IZR k / 2)
  /\ Rabs delta <= Rabs (roundDelta delta) < Rabs delta + 1 / 2
  /\ 0 <= delta * roundDelta delta
  /\ (forall k : Z, roundDelta (IZR k / 2) = IZR k / 2).
Proof.
  assert (Fix : forall k : Z, roundDelta (IZR k / 2) = IZR k / 2).
  { intros k. unfold roundDelta, Math.floor, Math.ceil.
    replace (IZR k / 2 * 2) with (IZR k) by lra.
    destruct (ltb (IZR k) 0); f_equal; f_equal.
    - apply ZfloorZ.
    - apply Zceil_eq. lra. }
  unfold roundDelta, Math.floor, Math.ceil, ltb in *.
  destruct (Rlt_dec (delta * 2) 0) as [Hneg|Hpos].
  - pose proof (Zfloor_bound (delta * 2)) as [F1 F2].
    split; [eexists; reflexivity|].
    rewrite (Rabs_left delta) by lra.
    rewrite (Rabs_left (IZR (Zfloor (delta * 2)) / 2)) by lra.
    repeat split; try lra; [nra | exact Fix].
  - pose proof (Zceil_bound (delta * 2)) as [F1 F2].
    split; [eexists; reflexivity|].
    rewrite (Rabs_pos_eq delta) by lra.
    rewrite (Rabs_pos_eq (IZR (Zceil (delta * 2)) / 2)) by lra.
    repeat split; try lra; [nra | exact Fix].
Qed.

(** ** More on the Spectral Analyzer *)

Lemma frames_count (feature : nat -> R) frameStart segmentEnd total framesCount :
  snd (frames feature frameStart segmentEnd total framesCount)
  = (framesCount
     + (if Compare_dec.le_dec (frameStart + fftSize) segmentEnd
        then (segmentEnd - frameStart - fftSize) / hopSize + 1 else 0))%nat.
Proof.
  funelim (frames feature frameStart segmentEnd total framesCount).
  - rewrite H. clear H Heqcall Heq.
    change hopSize with 32%nat in *. change fftSize with 128%nat in *.
    destruct (Compare_dec.le_dec (frameStart + 128) segmentEnd) as [L|L];
      [|contradiction].
    destruct (Compare_dec.le_dec (frameStart + 32 + 128) segmentEnd) as [L2|L2].
    + replace (segmentEnd - frameStart - 128)%nat
        with ((segmentEnd - (frameStart + 32) - 128) + 1 * 32)%nat by lia.
      rewrite Nat.div_add by lia. lia.
    + rewrite (Nat.div_small (segmentEnd - frameStart - 128) 32) by lia. lia.
  - destruct (Compare_dec.le_dec (frameStart + fftSize) segmentEnd) as [L|L];
      [contradiction|].
    cbn [snd]. lia.
Qed.

(** X17: a segment of at least 128 samples is analysed in
    [(size - 128) / 32 + 1] windows: one window every 32 samples as long
    as a whole window fits. *)
Theorem frames_per_segment (feature : nat -> R) (segmentStart segmentEnd : nat) :
  (segmentStart + 128 <= segmentEnd)%nat ->
  snd (frames feature segmentStart segmentEnd 0 0)
  = ((segmentEnd - segmentStart - 128) / 32 + 1)%nat.
Proof.
  intros H. rewrite frames_count.
  change hopSize with 32%nat. change fftSize with 128%nat.
  destruct (Compare_dec.le_dec (segmentStart + 128) segmentEnd); [lia | contradiction].
Qed.

Lemma frames_per_segment_witness :
  snd (frames (fun _ => 1) 0 1600 0 0) = ((1600 - 0 - 128) / 32 + 1)%nat.
Proof. apply (frames_per_segment (fun _ => 1) 0 1600). lia. Defined.

Lemma frames_total_bounds (feature : nat -> R) frameStart segmentEnd total framesCount :
  (forall k, 0 <= feature k <= 1) ->
  let result := frames feature frameStart segmentEnd total framesCount in
  (framesCount <= snd result)%nat
  /\ total <= fst result <= total + INR (snd result - framesCount).
Proof.
  intros Hf.
  funelim (frames feature frameStart segmentEnd total framesCount).
  - specialize (H Hf). clear Heqcall Heq. cbv zeta in *.
    destruct H as [Hc [H1 H2]].
    destruct (frames feature (frameStart + hopSize) segmentEnd
                     (total + feature frameStart) (S framesCount)) as [t c].
    cbn [fst snd] in *. pose proof (Hf frameStart).
    split; [lia|].
    replace (c - framesCount)%nat with (S (c - S framesCount)) by lia.
    rewrite S_INR. lra.
  - cbv zeta. cbn [fst snd]. rewrite Nat.sub_diag. cbn [INR]. split; [lia | lra].
Qed.

Lemma sqrt_nonneg (x : R) : 0 <= sqrt x.
Proof. apply sqrt_pos. Qed.

Lemma centroid_fold_bounds (sampleRate : R) (fftOutput : list R) (l : list nat)
    (a d : R) :
  0 < sampleRate ->
  Forall (fun i => (i <= fftSize / 2 - 1)%nat) l ->
  0 <= a -> 0 <= d -> a <= INR (fftSize / 2 - 1) * sampleRate / INR fftSize * d ->
  let '(numerator, denominator) :=
    fold_left (fun '(numerator, denominator) i =>
                 let frequency := INR i * sampleRate / INR fftSize in
                 let m := magnitude fftOutput i in
                 (numerator + frequency * m, denominator + m))
              l (a, d) in
  0 <= numerator /\ 0 <= denominator
  /\ numerator <= INR (fftSize / 2 - 1) * sampleRate / INR fftSize * denominator.
Proof.
  intros Hsr Hl. revert a d. induction Hl as [|i l Hi _ IH]; intros a d Ha Hd Had.
  - cbn [fold_left]. repeat split; assumption.
  - cbn [fold_left]. cbv zeta. apply IH.
    + pose proof (sqrt_nonneg
                    (nth (i * 2) fftOutput 0 * nth (i * 2) fftOutput 0
                     + nth (i * 2 + 1) fftOutput 0 * nth (i * 2 + 1) fftOutput 0)) as Hm.
      fold (magnitude fftOutput i) in Hm.
      assert (0 <= INR i) by apply pos_INR.
      assert (0 < INR fftSize) by (rewrite INR_fftSize; lra).
      assert (0 <= INR i * sampleRate / INR fftSize).
      { apply Rmult_le_pos; [nra|]. left. apply Rinv_0_lt_compat. lra. }
      nra.
    + pose proof (sqrt_nonneg
                    (nth (i * 2) fftOutput 0 * nth (i * 2) fftOutput 0
                     + nth (i * 2 + 1) fftOutput 0 * nth (i * 2 + 1) fftOutput 0)) as Hm.
      fold (magnitude fftOutput i) in Hm. lra.
    + pose proof (sqrt_nonneg
                    (nth (i * 2) fftOutput 0 * nth (i * 2) fftOutput 0
                     + nth (i * 2 + 1) fftOutput 0 * nth (i * 2 + 1) fftOutput 0)) as Hm.
      fold (magnitude fftOutput i) in Hm.
      apply le_INR in Hi.
      assert (0 < / INR fftSize).
      { apply Rinv_0_lt_compat. rewrite INR_fftSize. lra. }
      assert (INR i * sampleRate / INR fftSize
              <= INR (fftSize / 2 - 1) * sampleRate / INR fftSize).
      { unfold Rdiv. apply Rmult_le_compat_r; [lra|]. nra. }
      nra.
Qed.

Lemma bins_bounded : Forall (fun i => (i <= fftSize / 2 - 1)%nat) bins.
Proof.
  apply List.Forall_forall. intros i Hi. unfold bins in Hi. apply in_seq in Hi.
  change (fftSize / 2 - 1)%nat with 63%nat in *. lia.
Qed.

Lemma centroid_bounds (sampleRate : R) (fftOutput : list R) :
  0 < sampleRate ->
  0 <= centroid sampleRate fftOutput < sampleRate / 2.
Proof.
  intros Hsr. unfold centroid.
  pose proof (centroid_fold_bounds sampleRate fftOutput bins 0 0 Hsr bins_bounded)
    as H.
  destruct (fold_left _ bins (0, 0)) as [numerator denominator].
  destruct H as (Hn & Hd & Hnd); [lra | lra | lra |].
  unfold neqb. destruct (Req_dec_T denominator 0) as [E|Hne]; [lra|].
  assert (E63 : INR (fftSize / 2 - 1) = 63).
  { rewrite INR_IZR_INZ. reflexivity. }
  rewrite E63, INR_fftSize in Hnd.
  assert (Hpos : 0 < denominator) by lra.
  assert (Eq : numerator / denominator * denominator = numerator) by (field; lra).
  remember (numerator / denominator) as q eqn:Eqq. clear Eqq.
  split; nra.
Qed.

Lemma normalizedFrameCentroid_bounds transform channelData sampleRate frameStart :
  0 < sampleRate ->
  0 <= normalizedFrameCentroid transform channelData sampleRate frameStart <= 1.
Proof.
  intros Hsr. unfold normalizedFrameCentroid.
  pose proof (centroid_bounds sampleRate
                (transform (fftInput channelData frameStart)) Hsr) as [C1 C2].
  set (c := centroid sampleRate (transform (fftInput channelData frameStart))) in *.
  assert (L0 : 0 <= ln (1 + c)).
  { rewrite <- ln_1. destruct (Req_dec_T c 0) as [->|Hc].
    - rewrite Rplus_0_r. lra.
    - left. apply ln_increasing; lra. }
  assert (L1 : ln (1 + c) < ln (1 + sampleRate / 2)) by (apply ln_increasing; lra).
  assert (Lp : 0 < ln (1 + sampleRate / 2)) by lra.
  split.
  - apply Rmult_le_pos; [lra|]. left. apply Rinv_0_lt_compat. lra.
  - apply (Rmult_le_reg_r (ln (1 + sampleRate / 2))); [lra|].
    unfold Rdiv. rewrite Rmult_assoc, Rinv_l by lra. lra.
Qed.

(** X18: for a buffer of a positive sample rate, the spectral centroid of
    every window lies in [[0, sampleRate / 2)], and every raw brightness
    value, before the normalization, lies in [0,1]. *)
Theorem raw_brightness_in_unit_interval transform audioBuffer numberOfSegments :
  0 < sampleRate audioBuffer ->
  (forall frameStart,
      0 <= centroid (sampleRate audioBuffer)
                    (transform (fftInput (channel0 audioBuffer) frameStart))
        < sampleRate audioBuffer / 2)
  /\ Forall (fun v => 0 <= v <= 1)
            (rawBrightnessValues transform audioBuffer numberOfSegments).
Proof.
  intros Hsr. split; [intros frameStart; apply centroid_bounds; exact Hsr|].
  unfold rawBrightnessValues, segmentValues. apply List.Forall_map.
  apply List.Forall_forall. intros idx _. unfold segmentValue.
  destruct (_ <? fftSize)%nat; [lra|].
  pose proof (frames_total_bounds
                (normalizedFrameCentroid transform (channel0 audioBuffer)
                                         (sampleRate audioBuffer))
                (idx * (List.length (channel0 audioBuffer) / numberOfSegments))
                (Nat.min (idx * (List.length (channel0 audioBuffer) / numberOfSegments)
                          + List.length (channel0 audioBuffer) / numberOfSegments)
                         (List.length (channel0 audioBuffer)))
                0 0
                (fun k => normalizedFrameCentroid_bounds transform _ _ k Hsr)) as H.
  cbv zeta in H.
  destruct (frames _ _ _ 0 0) as [total count]. cbn [fst snd] in H.
  destruct H as (_ & T0 & T1). rewrite Nat.sub_0_r in T1.
  destruct (0 <? count)%nat eqn:E; [|lra].
  apply Nat.ltb_lt in E. apply lt_INR in E. cbn [INR] in E.
  assert (Eq : total / INR count * INR count = total) by (field; lra).
  remember (total / INR count) as q eqn:Eqq. clear Eqq.
  split; nra.
Qed.

Lemma raw_brightness_in_unit_interval_witness :
  Forall (fun v => 0 <= v <= 1)
         (rawBrightnessValues dft (mkAudioBuffer [0; 1; 0; -1] [] 44100) 2).
Proof.
  apply (raw_brightness_in_unit_interval dft (mkAudioBuffer [0; 1; 0; -1] [] 44100) 2).
  cbn [sampleRate]. lra.
Defined.

Lemma min_list_constant (d : R) (k : nat) : Math.min_list d (repeat d k) = d.
Proof.
  unfold Math.min_list. induction k as [|k IH]; [reflexivity|].
  cbn [repeat fold_left]. rewrite Rmin_left by lra. exact IH.
Qed.

Lemma max_list_constant (d : R) (k : nat) : Math.max_list d (repeat d k) = d.
Proof.
  unfold Math.max_list. induction k as [|k IH]; [reflexivity|].
  cbn [repeat fold_left]. rewrite Rmax_left by lra. exact IH.
Qed.

Lemma map_constant {A B : Type} (f : A -> B) (y : B) (l : list A) :
  (forall x, In x l -> f x = y) -> map f l = repeat y (List.length l).
Proof.
  induction l as [|x l IH]; intros H; [reflexivity|].
  cbn [map List.length repeat]. rewrite (H x) by (left; reflexivity).
  f_equal. apply IH. intros z Hz. apply H. right. exact Hz.
Qed.

Lemma normalize_constant (d : R) (k : nat) :
  map (fun value =>
         Num ((value - Math.min_list d (repeat d k))
              / normalizationRange (Math.min_list d (repeat d k))
                                   (Math.max_list d (repeat d k))))
      (d :: repeat d k)
  = repeat (Num 0) (S k).
Proof.
  rewrite min_list_constant, max_list_constant.
  change (d :: repeat d k) with (repeat d (S k)).
  rewrite (map_constant _ (Num 0));
    [rewrite repeat_length; reflexivity|].
  intros x Hx. apply repeat_spec in Hx. subst x. f_equal.
  unfold normalizationRange. rewrite ltb_false by lra. lra.
Qed.

Lemma segmentValue_short feature default length segmentSize segmentIndex :
  (segmentSize < fftSize)%nat ->
  segmentValue feature default length segmentSize segmentIndex = default.
Proof.
  intros H. unfold segmentValue.
  replace (_ <? fftSize)%nat with true; [reflexivity|].
  symmetry. apply Nat.ltb_lt. lia.
Qed.

Lemma segmentValues_short feature default length n :
  (length / n < fftSize)%nat ->
  segmentValues feature default length n = repeat default n.
Proof.
  intros H. unfold segmentValues.
  rewrite (map_constant _ default); [rewrite length_seq; reflexivity|].
  intros idx _. apply segmentValue_short. exact H.
Qed.

(** X19: when the segments are shorter than the window of 128 samples, no
    window is transformed: every raw value is the neutral default (0.5
    for the brightness, a quarter of the sample rate for the prominent
    frequency), whatever the transform, and both analyses return zeros
    (the brightness with no power configured). *)
Theorem short_segments_get_defaults transform options audioBuffer n :
  (1 <= n)%nat ->
  (bufferLength audioBuffer / n < 128)%nat ->
  colorizeByBrightness options = true ->
  normalizationPower options = None ->
  rawBrightnessValues transform audioBuffer n = repeat (5 / 10) n
  /\ rawProminentFrequencyValues transform audioBuffer n
     = repeat (sampleRate audioBuffer / 4) n
  /\ analyzeBrightness transform options audioBuffer n = repeat (Num 0) n
  /\ analyzeProminentFrequency transform audioBuffer n = repeat (Num 0) n.
Proof.
  intros Hn Hshort Hc Hp.
  assert (R1 : rawBrightnessValues transform audioBuffer n = repeat (5 / 10) n)
    by (apply segmentValues_short; exact Hshort).
  assert (R2 : rawProminentFrequencyValues transform audioBuffer n
               = repeat (sampleRate audioBuffer / 4) n)
    by (apply segmentValues_short; exact Hshort).
  split; [exact R1|]. split; [exact R2|].
  destruct n as [|k]; [lia|].
  split.
  - unfold analyzeBrightness. rewrite Hc, R1, Hp. cbn [negb repeat].
    apply normalize_constant.
  - unfold analyzeProminentFrequency. rewrite R2. cbn [repeat].
    apply normalize_constant.
Qed.

Lemma short_segments_get_defaults_witness :
  analyzeProminentFrequency dft (mkAudioBuffer [0; 1; 0; -1] [] 44100) 2
  = repeat (Num 0) 2.
Proof.
  apply (short_segments_get_defaults dft
           (mkOptions true None None None None None None None)
           (mkAudioBuffer [0; 1; 0; -1] [] 44100) 2).
  - lia.
  - apply Nat.ltb_lt. reflexivity.
  - reflexivity.
  - reflexivity.
Defined.

Lemma min_list_member (x : R) (xs : list R) : In (Math.min_list x xs) (x :: xs).
Proof.
  unfold Math.min_list. revert x. induction xs as [|y ys IH]; intros x.
  - left. reflexivity.
  - cbn [fold_left]. destruct (IH (Rmin x y)) as [E|Hin].
    + unfold Rmin in E at 1. rewrite <- E.
      destruct (Rle_dec x y); [left | right; left]; reflexivity.
    + right. right. exact Hin.
Qed.

Lemma max_list_member (x : R) (xs : list R) : In (Math.max_list x xs) (x :: xs).
Proof.
  unfold Math.max_list. revert x. induction xs as [|y ys IH]; intros x.
  - left. reflexivity.
  - cbn [fold_left]. destruct (IH (Rmax x y)) as [E|Hin].
    + unfold Rmax in E at 1. rewrite <- E.
      destruct (Rle_dec x y); [right; left | left]; reflexivity.
    + right. right. exact Hin.
Qed.

(** X20: the normalization of [analyzeProminentFrequency] uses the whole
    range: for one segment or more the result holds the value 0 (at a
    segment of the lowest raw value), and when the raw values are more
    than 0.001 apart it holds the value 1 as well. *)
Theorem normalization_reaches_the_ends transform audioBuffer n :
  (1 <= n)%nat ->
  In (Num 0) (analyzeProminentFrequency transform audioBuffer n)
  /\ (match rawProminentFrequencyValues transform audioBuffer n with
      | [] => True
      | v :: vs =>
          1 / 1000 < Math.max_list v vs - Math.min_list v vs ->
          In (Num 1) (analyzeProminentFrequency transform audioBuffer n)
      end).
Proof.
  intros Hn. unfold analyzeProminentFrequency.
  pose proof (segmentValues_length
                (prominentFrequency transform (channel0 audioBuffer)
                                    (sampleRate audioBuffer))
                (sampleRate audioBuffer / 4)
                (List.length (channel0 audioBuffer)) n) as Hlen.
  fold (rawProminentFrequencyValues transform audioBuffer n) in Hlen.
  destruct (rawProminentFrequencyValues transform audioBuffer n) as [|v vs];
    [cbn in Hlen; lia|].
  split.
  - apply in_map_iff. exists (Math.min_list v vs).
    split; [|apply min_list_member].
    f_equal. unfold Rdiv. rewrite Rminus_diag. apply Rmult_0_l.
  - intros Hr. apply in_map_iff. exists (Math.max_list v vs).
    split; [|apply max_list_member].
    f_equal. unfold normalizationRange. rewrite ltb_true by exact Hr.
    field. lra.
Qed.

Lemma normalization_reaches_the_ends_witness :
  In (Num 0) (analyzeProminentFrequency dft (mkAudioBuffer [0; 1; 0; -1] [] 44100) 2).
Proof.
  apply (normalization_reaches_the_ends dft (mkAudioBuffer [0; 1; 0; -1] [] 44100) 2).
  lia.
Defined.

Lemma segmentValues_constant (feature : nat -> R) (default : R) (length n : nat) :
  (forall k, feature k = 0) ->
  exists c, segmentValues feature default length n = repeat c n.
Proof.
  intros Hz. unfold segmentValues.
  destruct (Nat.ltb_spec (length / n) fftSize) as [Hs|Hs].
  - exists default. rewrite (map_constant _ default);
      [rewrite length_seq; reflexivity|].
    intros idx _. apply segmentValue_short. exact Hs.
  - exists 0. rewrite (map_constant _ 0); [rewrite length_seq; reflexivity|].
    intros idx Hin. apply in_seq in Hin.
    apply segmentValue_zero; [exact Hz | exact Hs |].
    destruct n as [|n']; [lia|].
    pose proof (Nat.Div0.mul_div_le length (S n')).
    assert ((idx + 1) * (length / S n') <= S n' * (length / S n'))%nat
      by (apply Nat.mul_le_mono_r; lia).
    lia.
Qed.

Lemma prominentBin_no_energy (fftOutput : list R) :
  (forall i, magnitude fftOutput i = 0) -> prominentBin fftOutput = 0%nat.
Proof.
  intros Hm. unfold prominentBin.
  assert (E : forall l,
             fold_left (fun '(maxMagnitude, prominentBin) i =>
                          let m := magnitude fftOutput i in
                          if ltb maxMagnitude m then (m, i)
                          else (maxMagnitude, prominentBin))
                       l (0, 0%nat) = (0, 0%nat)).
  { induction l as [|i l IH]; [reflexivity|].
    cbn [fold_left]. cbv zeta. rewrite Hm, ltb_false by lra. exact IH. }
  rewrite E. reflexivity.
Qed.

(** X21: a buffer of zeros of any length, analysed in any number of
    segments by a transform that maps the zero frame to the zero
    spectrum, gives zeros in both modes (the brightness with a power that
    is absent or positive). *)
Theorem silence_is_flat transform options (samples : nat) (more : list (list R))
    (rate : R) (n : nat) :
  transform (repeat 0 (2 * fftSize)) = repeat 0 (2 * fftSize) ->
  (1 <= n)%nat ->
  colorizeByBrightness options = true ->
  match normalizationPower options with Some p => 0 < p | None => True end ->
  let audioBuffer := mkAudioBuffer (repeat 0 samples) more rate in
  analyzeBrightness transform options audioBuffer n = repeat (Num 0) n
  /\ analyzeProminentFrequency transform audioBuffer n = repeat (Num 0) n.
Proof.
  intros Ht Hn Hc Hp audioBuffer.
  destruct n as [|k]; [lia|].
  split.
  - unfold analyzeBrightness, rawBrightnessValues. rewrite Hc. cbn [negb].
    destruct (segmentValues_constant
                (normalizedFrameCentroid transform (channel0 audioBuffer)
                                         (sampleRate audioBuffer))
                (5 / 10) (List.length (channel0 audioBuffer)) (S k)) as [c Ec].
    { intros j. apply (normalizedFrameCentroid_silence transform Ht). }
    rewrite Ec. cbn [repeat]. cbv zeta.
    rewrite min_list_constant, max_list_constant.
    change (c :: repeat c k) with (repeat c (S k)).
    rewrite (map_constant _ (Num 0)); [rewrite repeat_length; reflexivity|].
    intros x Hx. apply repeat_spec in Hx. subst x.
    assert (E0 : (c - c) / normalizationRange c c = 0).
    { unfold Rdiv. rewrite Rminus_diag. apply Rmult_0_l. }
    destruct (normalizationPower options) as [p|].
    + apply pow_0_positive; assumption.
    + f_equal. exact E0.
  - unfold analyzeProminentFrequency, rawProminentFrequencyValues.
    destruct (segmentValues_constant
                (prominentFrequency transform (channel0 audioBuffer)
                                    (sampleRate audioBuffer))
                (sampleRate audioBuffer / 4)
                (List.length (channel0 audioBuffer)) (S k)) as [c Ec].
    { intros j. unfold prominentFrequency.
      rewrite prominentBin_no_energy
        by (intros i; apply (magnitude_silence transform Ht)).
      cbn [INR]. unfold Rdiv. rewrite !Rmult_0_l. reflexivity. }
    rewrite Ec. cbn [repeat]. apply normalize_constant.
Qed.

Lemma silence_is_flat_witness :
  analyzeProminentFrequency dft (mkAudioBuffer (repeat 0 300) [] 8000) 2
  = repeat (Num 0) 2.
Proof.
  apply (silence_is_flat dft (mkOptions true None None (Some 2) None None None None)
                         300 [] 8000 2).
  - apply (dft_silence (2 * fftSize)).
  - lia.
  - reflexivity.
  - cbn. lra.
Defined.

(** ** More on the Waveform Rasterizer *)

Section BarSimulation.

Variable thisOptions : WaveSurferOptions.
Variable data : AnalysisData.
Variable pixelRatio : R.
Variable channelData : list (list R).
Variable options : WaveSurferOptions.
Variable vScale : R.
Variable ctx0 : Context2D.

Local Abbreviation plainStep := (plainBarStep pixelRatio channelData options vScale ctx0).
Local Abbreviation colorStep :=
  (colorBarStep thisOptions data pixelRatio channelData options vScale ctx0).
Local Abbreviation rectOf := (barRect pixelRatio options vScale ctx0).

Local Abbreviation inStep := (barsInStep options ctx0).

Lemma rectOf_is_rect (st : BarLoop) : is_rect (rectOf st) = true.
Proof. unfold barRect, rectFn. destruct (_ && _); reflexivity. Qed.

Lemma rectOf_ext (p c : BarLoop) :
  prevX p = prevX c -> maxTop p = maxTop c -> maxBottom p = maxBottom c ->
  rectOf p = rectOf c.
Proof. intros H1 H2 H3. unfold barRect. rewrite H1, H2, H3. reflexivity. Qed.

Lemma steps_inStep (turns : list nat) :
  forall base bars p c,
    inStep base bars p c ->
    exists bars', inStep base bars' (fold_left plainStep turns p)
                         (fold_left colorStep turns c).
Proof.
  induction turns as [|i turns IH]; intros base bars p c H; [exists bars; exact H|].
  cbn [fold_left].
  destruct H as (Hx & Ht & Hb & Hf & Hp & Hc & Hall).
  unfold plainBarStep, colorBarStep. rewrite <- Hx.
  destruct (prevX p <? Math.round (INR i * barIndexScale pixelRatio channelData options ctx0))%Z.
  - apply (IH base
              (bars ++ [(rectOf c,
                         CssColor (getColorValue
                                     (analysisValue (analysisData thisOptions data)
                                        (brightnessIndex data pixelRatio options ctx0 c))
                                     (stopsOf options)))])).
    unfold barsInStep, takeSample, fill, call, set_fillStyle.
    cbn [prevX maxTop maxBottom bar_ctx fillStyle calls].
    repeat split; try reflexivity.
    + exact Hf.
    + rewrite Hp, map_app, (rectOf_ext p c Hx Ht Hb). cbn [map fst].
      rewrite <- app_assoc. reflexivity.
    + rewrite Hc, flat_map_app. cbn [flat_map barPath fst snd app].
      rewrite <- !app_assoc. reflexivity.
    + apply Forall_app. split; [exact Hall|].
      constructor; [|constructor]. cbn [fst snd].
      split; [apply rectOf_is_rect | eexists; reflexivity].
  - apply (IH base bars).
    unfold barsInStep, takeSample. cbn [prevX maxTop maxBottom bar_ctx].
    rewrite Ht, Hb. repeat split; assumption.
Qed.

End BarSimulation.

(** X22: with colorization in use, [renderBarWaveform] draws the very
    rectangles it draws without analysis data; without, they form one
    path filled once in the fill style found at entry; with, each bar is
    a path of its own, filled in a colour [getColorValue] returned. *)
Theorem colorization_keeps_the_bars thisOptions data pixelRatio channelData options
    vScale ctx :
  useColorization data options = true ->
  exists bars : list (Call * FillStyle),
    calls (renderBarWaveform thisOptions noAnalysis pixelRatio channelData options
                             vScale ctx)
    = calls ctx ++ BeginPath :: map fst bars ++ [Fill (fillStyle ctx); ClosePath]
    /\ calls (renderBarWaveform thisOptions data pixelRatio channelData options
                                vScale ctx)
       = calls ctx ++ flat_map barPath bars
    /\ Forall (fun bar => is_rect (fst bar) = true
                          /\ exists v, snd bar
                                       = CssColor (getColorValue v (stopsOf options)))
              bars.
Proof.
  intros Hc.
  destruct (steps_inStep thisOptions data pixelRatio channelData options vScale ctx
              (barTurns channelData) (calls ctx) []
              (mkBarLoop 0 0 0 0 (call BeginPath ctx)) (mkBarLoop 0 0 0 0 ctx))
    as (bars & _ & _ & _ & Hf & Hp & Hcol & Hall).
  { unfold barsInStep. cbn [prevX maxTop maxBottom bar_ctx call fillStyle calls map
                           flat_map].
    rewrite app_nil_r. repeat split; constructor. }
  exists bars. split; [|split; [|exact Hall]].
  - unfold renderBarWaveform, useColorization.
    rewrite andb_false_r. cbn [negb].
    change (calls (call ClosePath (fill ?x)))
      with ((calls x ++ [Fill (fillStyle x)]) ++ [ClosePath]).
    rewrite Hp, Hf, <- !app_assoc. reflexivity.
  - unfold renderBarWaveform. rewrite Hc. cbn [negb].
    unfold set_fillStyle. cbn [calls]. exact Hcol.
Qed.

Lemma colorization_keeps_the_bars_witness :
  let options := mkOptions true None
                           (Some [mkStop 0 "#000000"; mkStop 1 "#ffffff"])
                           None (Some 2) None None None in
  let data := mkAnalysisData [Num (1 / 4); Num (3 / 4)] [] in
  let ctx := mkContext (CssColor "#999999") 4 2 true [] in
  exists bars : list (Call * FillStyle),
    calls (renderBarWaveform options noAnalysis 1 [[0; 1; 0; -1]] options 1 ctx)
    = calls ctx ++ BeginPath :: map fst bars ++ [Fill (fillStyle ctx); ClosePath]
    /\ calls (renderBarWaveform options data 1 [[0; 1; 0; -1]] options 1 ctx)
       = calls ctx ++ flat_map barPath bars
    /\ Forall (fun bar => is_rect (fst bar) = true
                          /\ exists v, snd bar
                                       = CssColor (getColorValue v (stopsOf options)))
              bars.
Proof.
  intros options data ctx.
  apply (colorization_keeps_the_bars options data 1 [[0; 1; 0; -1]] options 1 ctx).
  reflexivity.
Defined.

(** X23: after a render pass in the ['prominentFrequency'] mode the
    rasterizer never colours: [brightnessData] is empty, so colorization
    is not in use whatever the options of the channel, and bars and lines
    are painted as without any analysis data. *)
Theorem prominent_frequency_is_never_painted transform options audioData width
    pixelRatio thisOptions channelOptions channelData vScale ctx :
  colorizeByBrightness options = true ->
  colorAnalysisType options = Some "prominentFrequency"%string ->
  let d := renderAnalysis transform options audioData width pixelRatio in
  useColorization d channelOptions = false
  /\ renderBarWaveform thisOptions d pixelRatio channelData channelOptions vScale ctx
     = renderBarWaveform thisOptions noAnalysis pixelRatio channelData channelOptions
                         vScale ctx
  /\ renderLineWaveform thisOptions d channelData channelOptions vScale ctx
     = renderLineWaveform thisOptions noAnalysis channelData channelOptions vScale ctx.
Proof.
  intros Hc Ht d.
  assert (Hb : brightnessData d = []).
  { unfold d, renderAnalysis, isProminentFrequency.
    rewrite Hc, Ht, String.eqb_refl. reflexivity. }
  assert (Hu : useColorization d channelOptions = false).
  { unfold useColorization. rewrite Hb. apply andb_false_r. }
  assert (Hn : useColorization noAnalysis channelOptions = false).
  { unfold useColorization. apply andb_false_r. }
  split; [exact Hu|].
  unfold renderBarWaveform, renderLineWaveform. rewrite Hu, Hn.
  split; reflexivity.
Qed.

Lemma prominent_frequency_is_never_painted_witness :
  let options := mkOptions true (Some "prominentFrequency"%string)
                           (Some [mkStop 0 "#000000"; mkStop 1 "#ffffff"])
                           None None None None None in
  useColorization
    (renderAnalysis dft options (mkAudioBuffer [0; 1; 0; -1] [] 44100) 800 1)
    options
  = false.
Proof.
  intros options.
  apply (prominent_frequency_is_never_painted dft options
           (mkAudioBuffer [0; 1; 0; -1] [] 44100) 800 1 options options
           [[0; 1; 0; -1]] 1 (mkContext (CssColor "#999999") 4 2 true []));
    reflexivity.
Defined.

(** ** The vertical scale and the gradient of [renderWaveform] *)

Lemma peak_fold_bounds (channel : list R) (m : R) :
  0 <= m ->
  let p := fold_left (fun max value => Math.max max (Math.abs value)) channel m in
  m <= p
  /\ Forall (fun x => Rabs x <= p) channel
  /\ (p = m \/ exists x, In x channel /\ Rabs x = p).
Proof.
  revert m. induction channel as [|x l IH]; intros m Hm p.
  - subst p. cbn [fold_left]. split; [lra|]. split; [constructor | left; reflexivity].
  - subst p. cbn [fold_left].
    change (Math.max m (Math.abs x)) with (Rmax m (Rabs x)).
    pose proof (Rmax_l m (Rabs x)) as M1. pose proof (Rmax_r m (Rabs x)) as M2.
    destruct (IH (Rmax m (Rabs x))) as (I1 & I2 & I3); [lra|].
    cbv zeta in I1, I2, I3.
    split; [lra|]. split; [constructor; [lra | exact I2]|].
    destruct I3 as [E|(y & Hy & Ey)].
    + destruct (Rle_dec m (Rabs x)) as [Hle|Hgt].
      * right. exists x. split; [left; reflexivity|].
        rewrite E. symmetry. apply Rmax_right. exact Hle.
      * left. rewrite E. apply Rmax_left. lra.
    + right. exists y. split; [right; exact Hy | exact Ey].
Qed.

(** X24: with [normalize], the vertical scale brings the loudest sample of
    the first channel to full height and no sample beyond: every
    magnitude times the scale is at most 1, and it is 1 for a loudest
    sample; for a channel of zeros (or an empty one) the scale is 1. *)
Theorem normalize_scales_peak_to_one (barHeight : option R) (channel : list R) :
  let vScale := verticalScale barHeight true channel in
  0 < vScale
  /\ Forall (fun x => Rabs x * vScale <= 1) channel
  /\ (Forall (fun x => x = 0) channel -> vScale = 1)
  /\ (~ Forall (fun x => x = 0) channel ->
      exists x, In x channel /\ Rabs x * vScale = 1).
Proof.
  intros vScale. unfold verticalScale in vScale. cbv zeta in vScale.
  destruct (peak_fold_bounds channel 0 (Rle_refl 0)) as (P0 & Pall & Por).
  cbv zeta in P0, Pall, Por. fold (peak channel) in P0, Pall, Por, vScale.
  unfold neqb in vScale.
  destruct (Req_dec_T (peak channel) 0) as [E|Hne].
  - subst vScale. rewrite E in Pall.
    assert (Z : Forall (fun x => x = 0) channel).
    { eapply Forall_impl; [exact Pall|]. intros x Hx. cbv beta in Hx.
      pose proof (Rabs_pos x). destruct (Req_dec_T x 0) as [E0|N0]; [exact E0|].
      pose proof (Rabs_pos_lt x N0). lra. }
    split; [lra|]. split.
    + eapply Forall_impl; [exact Z|]. intros x ->. rewrite Rabs_R0. lra.
    + split; [reflexivity | contradiction].
  - assert (Hp : 0 < peak channel) by lra.
    assert (Hinv : 0 < 1 / peak channel).
    { unfold Rdiv. rewrite Rmult_1_l. apply Rinv_0_lt_compat. exact Hp. }
    subst vScale. split; [exact Hinv|]. split.
    + eapply Forall_impl; [exact Pall|]. intros x Hx. cbv beta in Hx.
      apply (Rmult_le_reg_r (peak channel)); [exact Hp|].
      replace (Rabs x * (1 / peak channel) * peak channel) with (Rabs x)
        by (field; lra).
      lra.
    + split.
      * intros Z. exfalso. destruct Por as [E|(x & Hx & Ex)]; [lra|].
        rewrite List.Forall_forall in Z. rewrite (Z x Hx), Rabs_R0 in Ex. lra.
      * intros _. destruct Por as [E|(x & Hx & Ex)]; [lra|].
        exists x. split; [exact Hx|]. rewrite Ex. field. lra.
Qed.

Lemma gradient_stops_shape (colors : list string) (p : R) (start : nat) :
  let stops := map (fun '(index, color) => (INR index * p, color))
                   (combine (seq start (List.length colors)) colors) in
  map snd stops = colors
  /\ map fst stops = map (fun i => INR i * p) (seq start (List.length colors)).
Proof.
  revert start. induction colors as [|c l IH]; intros start; [split; reflexivity|].
  cbn [List.length seq combine map fst snd].
  destruct (IH (S start)) as [I1 I2]. cbv zeta in I1, I2.
  rewrite I1, I2. split; reflexivity.
Qed.

(** X25: for an array of two colours or more, [convertColorValues] builds a
    gradient that keeps the colours in order, the colour [i] at the
    offset [i / (length - 1)]: the first at 0, the last at 1, and every
    offset within [0,1], as [addColorStop] requires. *)
Theorem gradient_offsets_span_unit_interval (colors : list string) :
  (2 <= List.length colors)%nat ->
  exists stops,
    convertColorValues (Colors colors) = CanvasGradient stops
    /\ map snd stops = colors
    /\ map fst stops
       = map (fun i => INR i / (INR (List.length colors) - 1))
             (seq 0 (List.length colors))
    /\ Forall (fun o => 0 <= o <= 1) (map fst stops)
    /\ nth 0 (map fst stops) 0 = 0
    /\ nth (List.length colors - 1) (map fst stops) 0 = 1.
Proof.
  intros Hlen. unfold convertColorValues.
  replace (List.length colors <? 2)%nat with false
    by (symmetry; apply Nat.ltb_ge; exact Hlen).
  eexists. split; [reflexivity|].
  destruct (gradient_stops_shape colors (1 / (INR (List.length colors) - 1)) 0)
    as [S1 S2].
  cbv zeta in S1, S2.
  assert (Hn : 1 < INR (List.length colors)).
  { apply lt_INR in Hlen. cbn [INR] in Hlen. lra. }
  assert (S3 : map (fun i => INR i * (1 / (INR (List.length colors) - 1)))
                   (seq 0 (List.length colors))
               = map (fun i => INR i / (INR (List.length colors) - 1))
                     (seq 0 (List.length colors))).
  { apply map_ext. intros i. field. lra. }
  rewrite S2, S3. split; [exact S1|]. split; [reflexivity|].
  split.
  - apply List.Forall_map. apply List.Forall_forall. intros i Hi.
    apply in_seq in Hi.
    assert (0 <= INR i) by apply pos_INR.
    assert (INR i <= INR (List.length colors) - 1).
    { assert (i <= List.length colors - 1)%nat as Hle by lia.
      apply le_INR in Hle. rewrite minus_INR in Hle by lia. cbn [INR] in Hle. lra. }
    split.
    + apply Rmult_le_pos; [lra|]. left. apply Rinv_0_lt_compat. lra.
    + apply (Rmult_le_reg_r (INR (List.length colors) - 1)); [lra|].
      unfold Rdiv. rewrite Rmult_assoc, Rinv_l by lra. lra.
  - split.
    + rewrite (nth_indep _ 0 ((fun i => INR i / (INR (List.length colors) - 1)) 0%nat))
        by (rewrite length_map, length_seq; lia).
      rewrite (map_nth (fun i => INR i / (INR (List.length colors) - 1))).
      rewrite seq_nth by lia. cbn [Nat.add INR]. unfold Rdiv. apply Rmult_0_l.
    + rewrite (nth_indep _ 0 ((fun i => INR i / (INR (List.length colors) - 1)) 0%nat))
        by (rewrite length_map, length_seq; lia).
      rewrite (map_nth (fun i => INR i / (INR (List.length colors) - 1))).
      rewrite seq_nth by lia. cbn [Nat.add].
      rewrite minus_INR by lia. cbn [INR]. field. lra.
Qed.

Lemma gradient_offsets_span_unit_interval_witness :
  exists stops,
    convertColorValues (Colors ["red"; "green"; "blue"]%string) = CanvasGradient stops
    /\ map snd stops = ["red"; "green"; "blue"]%string
    /\ map fst stops = map (fun i => INR i / (INR 3 - 1)) (seq 0 3)
    /\ Forall (fun o => 0 <= o <= 1) (map fst stops)
    /\ nth 0 (map fst stops) 0 = 0
    /\ nth (3 - 1) (map fst stops) 0 = 1.
Proof.
  apply (gradient_offsets_span_unit_interval ["red"; "green"; "blue"]%string).
  cbn [List.length]. lia.
Defined.

(** ** The Segments plugin *)

Lemma renderIfVisible_tracks start st s :
  Segments.attached st = Segments.wasVisible st ->
  let st' := Segments.renderIfVisible start st s in
  Segments.attached st' = Segments.isVisible start s
  /\ Segments.wasVisible st' = Segments.isVisible start s.
Proof.
  intros Hinv st'. subst st'. unfold Segments.renderIfVisible. cbv zeta.
  destruct (Bool.eqb (Segments.isVisible start s) (Segments.wasVisible st)) eqn:E.
  - apply Bool.eqb_prop in E. rewrite Hinv, E. split; reflexivity.
  - split; reflexivity.
Qed.

Lemma last_nonempty {A} (l : list A) (a d d' : A) :
  List.last (a :: l) d = List.last (a :: l) d'.
Proof.
  revert a. induction l as [|x l IH]; intros a; [reflexivity|].
  change (List.last (x :: l) d = List.last (x :: l) d'). apply IH.
Qed.

Lemma scrolls_track start scrolls : forall st s,
  Segments.attached st = Segments.wasVisible st ->
  Segments.attached (fold_left (Segments.renderIfVisible start) scrolls
                               (Segments.renderIfVisible start st s))
  = Segments.isVisible start (List.last scrolls s).
Proof.
  induction scrolls as [|s' l IH]; intros st s Hinv.
  - cbn [fold_left List.last]. apply renderIfVisible_tracks. exact Hinv.
  - cbn [fold_left].
    destruct (renderIfVisible_tracks start st s Hinv) as [H1 H2]. cbv zeta in H1, H2.
    rewrite (IH (Segments.renderIfVisible start st s) s') by congruence.
    destruct l as [|s0 l]; [reflexivity|].
    f_equal. change (List.last (s' :: s0 :: l) s) with (List.last (s0 :: l) s).
    apply last_nonempty.
Qed.


(** X27: with a positive duration and a wrapper of positive scroll width,
    [initSegments] builds one element per segment, in order, and a
    segment within the duration lies within the wrapper: its left edge
    is [start / duration] of the scroll width, it is not negative, its
    width is not negative, and its right edge is [end / duration] of
    the scroll width, not beyond it. *)
Theorem segments_lie_within_the_waveform (duration W fallback : R)
    (segments : list Segments.Segment) :
  0 < duration -> 0 < W ->
  Forall (fun s => 0 <= Segments.start s <= Segments.end_ s
                   /\ Segments.end_ s <= duration) segments ->
  exists elements,
    Segments.initSegments duration W fallback segments = Some elements
    /\ map Segments.textContent elements = map Segments.label segments
    /\ Forall2 (fun s e =>
         Segments.style_left e = Segments.start s / duration * W
         /\ Segments.style_left e + Segments.style_width e
            = Segments.end_ s / duration * W
         /\ 0 <= Segments.style_left e
         /\ 0 <= Segments.style_width e
         /\ Segments.style_left e + Segments.style_width e <= W)
       segments elements.
Proof.
  intros Hd HW Hall. unfold Segments.initSegments.
  rewrite leb_false by exact Hd. cbv zeta.
  eexists. split; [reflexivity|].
  unfold Segments.pxPerSec. rewrite neqb_true by lra.
  split.
  - rewrite map_map. reflexivity.
  - induction Hall as [|s l (Hs & He) _ IH]; [constructor|].
    cbn [map]. constructor; [|exact IH].
    unfold Segments.segmentElement. cbv zeta.
    cbn [Segments.style_left Segments.style_width].
    assert (Hq : 0 < W / duration).
    { unfold Rdiv. apply Rmult_lt_0_compat; [lra|]. apply Rinv_0_lt_compat. lra. }
    assert (E1 : Segments.start s / duration * W = Segments.start s * (W / duration))
      by (field; lra).
    assert (E2 : Segments.end_ s / duration * W = Segments.end_ s * (W / duration))
      by (field; lra).
    assert (E3 : duration * (W / duration) = W) by (field; lra).
    rewrite E1, E2.
    split; [reflexivity|]. split; [lra|].
    split; [apply Rmult_le_pos; lra|].
    split; [nra|]. nra.
Qed.

Lemma segments_lie_within_the_waveform_witness :
  exists elements,
    Segments.initSegments 10 800 0
      [Segments.mkSegment 0 4 "intro"; Segments.mkSegment 4 10 "verse"]
    = Some elements
    /\ map Segments.textContent elements = ["intro"; "verse"]%string.
Proof.
  destruct (segments_lie_within_the_waveform 10 800 0
              [Segments.mkSegment 0 4 "intro"; Segments.mkSegment 4 10 "verse"])
    as (elements & H1 & H2 & _).
  - lra.
  - lra.
  - repeat constructor; cbn; lra.
  - exists elements. split; [exact H1 | exact H2].
Defined.

(** ** The cursor of [renderProgress] *)

(** X28: the cursor is moved back by its width exactly when the
    percents, the product [progress * 100] in double precision, round to
    100.  That is so for every progress from 0.995 to 1, and also for
    the double nearest to 0.995, which lies below 0.995 and whose product
    with 100 rounds to 99.5; it is not so for a progress of at most 0.99
    or at least 1.01. *)
Theorem cursor_steps_back_only_at_the_end (cursorWidth progress : R) :
  (exists st,
      renderProgress cursorWidth (Some progress) = Some st
      /\ percents st = Double.mul progress 100
      /\ (199 / 2 <= percents st < 201 / 2 -> cursorOffset st = cursorWidth)
      /\ (percents st < 199 / 2 \/ 201 / 2 <= percents st -> cursorOffset st = 0)
      /\ (199 / 200 <= progress <= 1 -> cursorOffset st = cursorWidth)
      /\ (progress <= 99 / 100 \/ 101 / 100 <= progress -> cursorOffset st = 0))
  /\ (let nearest := 8962163258467287 * powerRZ 2 (-53) in
      nearest < 199 / 200
      /\ Double.representable nearest
      /\ renderProgress cursorWidth (Some nearest)
         = Some (mkProgressStyle (199 / 2) cursorWidth)).
Proof.
  assert (In100 : forall x, 199 / 2 <= x < 201 / 2 -> Math.round x = 100%Z)
    by (intros x H; apply round_eq; lra).
  assert (Out100 : forall x, x < 199 / 2 \/ 201 / 2 <= x -> (Math.round x =? 100)%Z = false).
  { intros x H. apply Z.eqb_neq. intros E. unfold Math.round in E.
    pose proof (Zfloor_bound (x + / 2)) as B. rewrite E in B. lra. }
  assert (R99 : Double.round 99 = 99) by (apply (double_IZR 99); reflexivity).
  assert (R100 : Double.round 100 = 100) by (apply (double_IZR 100); reflexivity).
  assert (R101 : Double.round 101 = 101) by (apply (double_IZR 101); reflexivity).
  assert (R995 : Double.round (199 / 2) = 199 / 2).
  { apply (representable_dyadic _ 199 (-1)); [reflexivity|].
    rewrite (pow2_neg 1). change (2 ^ 1)%Z with 2%Z. lra. }
  split.
  - unfold renderProgress. cbv zeta. eexists. split; [reflexivity|].
    cbn [percents cursorOffset]. split; [reflexivity|].
    split; [intros H; rewrite (In100 _ H); reflexivity|].
    split; [intros H; rewrite (Out100 _ H); reflexivity|].
    unfold Double.mul. split.
    + intros H. rewrite In100; [reflexivity|].
      assert (199 / 2 <= Double.round (progress * 100) <= 100)
        by (apply double_between; [exact R995 | exact R100 | lra]).
      lra.
    + intros [H|H]; rewrite Out100; try reflexivity.
      * left. assert (Double.round (progress * 100) <= 99).
        { pose proof (double_mono (progress * 100) 99 ltac:(lra)) as M.
          rewrite R99 in M. exact M. }
        lra.
      * right. assert (101 <= Double.round (progress * 100)).
        { pose proof (double_mono 101 (progress * 100) ltac:(lra)) as M.
          rewrite R101 in M. exact M. }
        lra.
  - cbv zeta.
    assert (P53 : powerRZ 2 (-53) = / 9007199254740992)
      by (rewrite (pow2_neg 53); reflexivity).
    assert (P46 : powerRZ 2 (-46) = / 70368744177664)
      by (rewrite (pow2_neg 46); reflexivity).
    split; [rewrite P53; lra|].
    split; [apply (representable_dyadic _ 8962163258467287 (-53)); reflexivity|].
    assert (E : Double.mul (8962163258467287 * powerRZ 2 (-53)) 100 = 199 / 2).
    { unfold Double.mul.
      rewrite (double_eval _ 6 7001690045677568).
      - change (6 - 52)%Z with (-46)%Z. rewrite P46. lra.
      - change (6 + 1)%Z with 7%Z. rewrite (pow2_IZR 6), (pow2_IZR 7), P53 by lia.
        change (2 ^ 6)%Z with 64%Z. change (2 ^ 7)%Z with 128%Z. lra.
      - change (52 - 6)%Z with 46%Z. rewrite (pow2_IZR 46), P53 by lia.
        change (2 ^ 46)%Z with 70368744177664%Z.
        apply Rabs_def1; lra. }
    unfold renderProgress. cbv zeta. rewrite E.
    rewrite (In100 (199 / 2)) by lra. reflexivity.
Qed.
